(** * A shallow embedding of [vector_renderer.cpp]

    The renderer fills closed polygons into an 8-bit RGBA raster with a
    scanline / edge-table algorithm (even-odd rule), samples a linear or
    radial gradient per pixel and composites with one of five blend modes.

    C++ [float] is IEEE-754 binary32.  It is modelled by the executable
    specification of the Standard Library ([SpecFloat], precision 24,
    [emax] 128): every operation of the source is one correctly rounded
    operation (round to nearest even, no fused multiply-add, no wider
    intermediate precision, no trap on division by zero).  C++ [int] is
    modelled by [Z]; the loops of the program keep every index inside the
    image, so no wrap-around occurs on the paths studied here.  [Byte] is
    [Byte.byte]. *)

From Stdlib Require Import ZArith List Bool Lia Strings.Byte SpecFloat QArith Qabs
  Sorting.Permutation.
Import ListNotations.
Local Open Scope Z_scope.

(** ** Binary32 arithmetic *)

Module F32.

Definition prec : Z := 24.
Definition emax : Z := 128.

Abbreviation float := spec_float.

Definition add : float -> float -> float := SFadd prec emax.
Definition sub : float -> float -> float := SFsub prec emax.
Definition mul : float -> float -> float := SFmul prec emax.
Definition div : float -> float -> float := SFdiv prec emax.
Definition sqrt : float -> float := SFsqrt prec emax.
Definition abs : float -> float := SFabs.
Definition ltb : float -> float -> bool := SFltb.
Definition leb : float -> float -> bool := SFleb.
Definition eqb : float -> float -> bool := SFeqb.
Definition valid : float -> bool := valid_binary prec emax.

Definition nan : float := S754_nan.

(** The smallest exponent and the exponent function of the format. *)
Definition emin : Z := SpecFloat.emin prec emax.
Definition fexp : Z -> Z := SpecFloat.fexp prec emax.

(** Literals of the program, in canonical form. *)
Definition zero : float := S754_zero false.            (* 0.0f   *)
Definition half : float := S754_finite false 8388608 (-24).   (* 0.5f   *)
Definition one : float := S754_finite false 8388608 (-23).    (* 1.0f   *)
Definition two : float := S754_finite false 8388608 (-22).    (* 2.0f   *)
Definition f255 : float := S754_finite false 16711680 (-16).  (* 255.0f *)

(** [(float)k] for an integer [k]: round to nearest even. *)
Definition of_int (k : Z) : float := binary_normalize prec emax k 0 false.

Definition INT_MIN : Z := - 2 ^ 31.

(** Magnitude of a finite float truncated toward zero. *)
Definition trunc_mag (m : positive) (e : Z) : Z :=
  match e with
  | Z0 => Zpos m
  | Zpos p => Zpos m * 2 ^ Zpos p
  | Zneg p => Zpos m / 2 ^ Zpos p
  end.

(** [(int)f]: truncation toward zero.  The conversion is undefined in
    C++ when the value does not fit an [int] (NaN, infinities, huge
    values); the model returns what the x86 conversion instruction
    returns there, the "integer indefinite" value [INT_MIN]. *)
Definition to_int (f : float) : Z :=
  match f with
  | S754_zero _ => 0
  | S754_finite s m e =>
      let v := cond_Zopp s (trunc_mag m e) in
      if (INT_MIN <=? v) && (v <? 2 ^ 31) then v else INT_MIN
  | _ => INT_MIN
  end.

(** [(Byte)f]: the integer conversion followed by the narrowing to
    eight bits. *)
Definition to_byte (f : float) : byte :=
  match Byte.of_N (Z.to_N (to_int f mod 256)) with
  | Some b => b
  | None => x00
  end.

(** A [Byte] promoted to [int] and converted to [float]. *)
Definition of_byte (b : byte) : float := of_int (Z.of_N (Byte.to_N b)).

End F32.

Import F32.

(** ** Helpers and records of the program *)

Definition clamp_float (val minVal maxVal : float) : float :=
  if ltb val minVal then minVal
  else if ltb maxVal val then maxVal
  else val.

Record Point := mkPoint { px : float; py : float }.

Definition createRect (x y w h : float) : list Point :=
  [ mkPoint x y; mkPoint (add x w) y; mkPoint (add x w) (add y h);
    mkPoint x (add y h) ].

(** Modelled from the spec: the pixel type [RGBA] of [image.h], four 8-bit
    channels in the order r, g, b, a. *)
Record RGBA := mkRGBA { rgba_r : byte; rgba_g : byte; rgba_b : byte; rgba_a : byte }.

Record ColorF := mkColorF { cr : float; cg : float; cb : float; ca : float }.

(** The default constructor [ColorF()]. *)
Definition ColorF_default : ColorF := mkColorF zero zero zero one.

Definition toRGBA (c : ColorF) : RGBA :=
  mkRGBA (to_byte (clamp_float (mul (cr c) f255) zero f255))
         (to_byte (clamp_float (mul (cg c) f255) zero f255))
         (to_byte (clamp_float (mul (cb c) f255) zero f255))
         (to_byte (clamp_float (mul (ca c) f255) zero f255)).

Definition fromRGBA (c : RGBA) : ColorF :=
  mkColorF (div (of_byte (rgba_r c)) f255) (div (of_byte (rgba_g c)) f255)
           (div (of_byte (rgba_b c)) f255) (div (of_byte (rgba_a c)) f255).

(** ** Blending *)

Definition BLEND_NORMAL : Z := 0.
Definition BLEND_MULTIPLY : Z := 1.
Definition BLEND_ADD : Z := 2.
Definition BLEND_DIFFERENCE : Z := 3.
Definition BLEND_OVERLAY : Z := 4.

Definition overlay_channel (s d : float) : float :=
  if ltb d half then mul (mul two s) d
  else sub one (mul (mul two (sub one s)) (sub one d)).

(** The intermediate colour [(r, g, b)] that [blend] computes before the
    alpha mix; it starts as the destination and is overwritten by the
    branch of the mode, if any. *)
Definition blend_rgb (src dest : ColorF) (mode : Z) : float * float * float :=
  if mode =? BLEND_NORMAL then (cr src, cg src, cb src)
  else if mode =? BLEND_MULTIPLY then
    (mul (cr src) (cr dest), mul (cg src) (cg dest), mul (cb src) (cb dest))
  else if mode =? BLEND_ADD then
    (clamp_float (add (cr src) (cr dest)) zero one,
     clamp_float (add (cg src) (cg dest)) zero one,
     clamp_float (add (cb src) (cb dest)) zero one)
  else if mode =? BLEND_DIFFERENCE then
    (abs (sub (cr dest) (cr src)), abs (sub (cg dest) (cg src)),
     abs (sub (cb dest) (cb src)))
  else if mode =? BLEND_OVERLAY then
    (overlay_channel (cr src) (cr dest), overlay_channel (cg src) (cg dest),
     overlay_channel (cb src) (cb dest))
  else (cr dest, cg dest, cb dest).

Definition blend (src dest : ColorF) (mode : Z) : ColorF :=
  let alpha := ca src in
  let invAlpha := sub one alpha in
  let '(r, g, b) := blend_rgb src dest mode in
  mkColorF (add (mul r alpha) (mul (cr dest) invAlpha))
           (add (mul g alpha) (mul (cg dest) invAlpha))
           (add (mul b alpha) (mul (cb dest) invAlpha))
           one.

(** ** Gradients *)

Record GradientStop := mkStop { position : float; color : ColorF }.

Record Gradient := mkGradient {
  isRadial : bool;
  p1 : Point;
  p2 : Point;
  radius : float;
  stops : list GradientStop
}.

(** [std::sort] with [compareStops], as the insertion sort that the
    library runs on short ranges: the elements are taken in order and
    each goes behind the elements that are not greater.  (The order of
    equal keys is unspecified for [std::sort]; nothing below depends on
    it.) *)
Fixpoint insertStop (s : GradientStop) (l : list GradientStop) : list GradientStop :=
  match l with
  | [] => [s]
  | h :: t => if ltb (position s) (position h) then s :: l else h :: insertStop s t
  end.

Definition sortStops (l : list GradientStop) : list GradientStop :=
  fold_left (fun sorted s => insertStop s sorted) l [].

Definition addStop (g : Gradient) (pos : float) (col : ColorF) : Gradient :=
  mkGradient (isRadial g) (p1 g) (p2 g) (radius g)
             (sortStops (stops g ++ [mkStop pos col])).

Definition lerpColor (c1 c2 : ColorF) (f : float) : ColorF :=
  mkColorF (add (cr c1) (mul (sub (cr c2) (cr c1)) f))
           (add (cg c1) (mul (sub (cg c2) (cg c1)) f))
           (add (cb c1) (mul (sub (cb c2) (cb c1)) f))
           (add (ca c1) (mul (sub (ca c2) (ca c1)) f)).

(** The search loop of [getColorAt]: the first adjacent pair of stops
    that brackets [t], interpolated; [None] when the loop runs out. *)
Fixpoint findSegment (t : float) (l : list GradientStop) : option ColorF :=
  match l with
  | s0 :: ((s1 :: _) as rest) =>
      if leb (position s0) t && leb t (position s1) then
        let t0 := position s0 in
        let t1 := position s1 in
        let f := div (sub t t0) (sub t1 t0) in
        Some (lerpColor (color s0) (color s1) f)
      else findSegment t rest
  | _ => None
  end.

Definition getColorAt (g : Gradient) (t : float) : ColorF :=
  match stops g with
  | [] => mkColorF zero zero zero one
  | front :: _ =>
      let back := last (stops g) front in
      if leb t (position front) then color front
      else if leb (position back) t then color back
      else match findSegment t (stops g) with
           | Some c => c
           | None => color back
           end
  end.

(** The operands [(numerator, denominator)] of the one division that the
    pixel loop executes for pixel [(x, y)] when a gradient is present. *)
Definition gradientDivision (g : Gradient) (x y : Z) : float * float :=
  if isRadial g then
    let dx := sub (of_int x) (px (p1 g)) in
    let dy := sub (of_int y) (py (p1 g)) in
    let dist := sqrt (add (mul dx dx) (mul dy dy)) in
    (dist, radius g)
  else
    let dx := sub (px (p2 g)) (px (p1 g)) in
    let dy := sub (py (p2 g)) (py (p1 g)) in
    let lenSq := add (mul dx dx) (mul dy dy) in
    let pdx := sub (of_int x) (px (p1 g)) in
    let pdy := sub (of_int y) (py (p1 g)) in
    (add (mul pdx dx) (mul pdy dy), lenSq).

(** The parameter [t] before the clamp. *)
Definition gradientRawT (g : Gradient) (x y : Z) : float :=
  let '(n, d) := gradientDivision g x y in div n d.

Definition gradientT (g : Gradient) (x y : Z) : float :=
  clamp_float (gradientRawT g x y) zero one.

(** ** The image *)

(** Modelled from the spec: the [ColorImage] of [image.h], of which the
    rasterizer uses the width, the height, the pixel read [Get(x, y)] and
    the pixel write [image(x, y) = v]. *)
Record ColorImage := mkImage {
  GetWidth : Z;
  GetHeight : Z;
  Get : Z -> Z -> RGBA
}.

Definition setPixel (image : ColorImage) (x y : Z) (v : RGBA) : ColorImage :=
  mkImage (GetWidth image) (GetHeight image)
          (fun x' y' => if (x' =? x) && (y' =? y) then v else Get image x' y').

(** ** The polygon rasterizer *)

Record Edge := mkEdge { yMin : Z; yMax : Z; edge_x : float; mInv : float }.

(** State of the edge-construction loop: the edge table and the running
    [globalMinY], [globalMaxY]. *)
Record EdgeTable := mkTable { edges : list Edge; globalMinY : Z; globalMaxY : Z }.

(** One iteration of the edge-construction loop for the vertex pair
    [(a, b)]. *)
Definition addEdge (height : Z) (a b : Point) (st : EdgeTable) : EdgeTable :=
  if to_int (py a) =? to_int (py b) then st
  else
    let '(a, b) := if ltb (py b) (py a) then (b, a) else (a, b) in
    let e := mkEdge (to_int (py a)) (to_int (py b)) (px a)
                    (div (sub (px b) (px a)) (sub (py b) (py a))) in
    if (yMax e <=? 0) || (height <=? yMin e) then st
    else mkTable (edges st ++ [e])
                 (if yMin e <? globalMinY st then yMin e else globalMinY st)
                 (if globalMaxY st <? yMax e then yMax e else globalMaxY st).

Definition origin : Point := mkPoint zero zero.

Definition buildEdges (height : Z) (vertices : list Point) : EdgeTable :=
  let n := length vertices in
  fold_left
    (fun st i => addEdge height (nth i vertices origin)
                         (nth ((i + 1) mod n)%nat vertices origin) st)
    (seq 0 n) (mkTable [] height 0).

(** The clamp of the scanline range to the image. *)
Definition clampRange (height : Z) (st : EdgeTable) : Z * Z :=
  ((if globalMinY st <? 0 then 0 else globalMinY st),
   (if height <? globalMaxY st then height else globalMaxY st)).

(** [for (int i = lo; i < hi; i++) body], threading the state. *)
Fixpoint forLoop {S : Type} (n : nat) (i : Z) (body : Z -> S -> S) (s : S) : S :=
  match n with
  | O => s
  | Datatypes.S n' => forLoop n' (i + 1) body (body i s)
  end.

Definition forRange {S : Type} (lo hi : Z) (body : Z -> S -> S) (s : S) : S :=
  forLoop (Z.to_nat (hi - lo)) lo body s.

Definition intersections (es : list Edge) (y : Z) : list float :=
  flat_map (fun e =>
              if (yMin e <=? y) && (y <? yMax e)
              then [add (edge_x e) (mul (mInv e) (of_int (y - yMin e)))]
              else []) es.

(** [std::sort] on the intersections, as an insertion sort with [<]. *)
Fixpoint insertNode (v : float) (l : list float) : list float :=
  match l with
  | [] => [v]
  | h :: t => if ltb v h then v :: l else h :: insertNode v t
  end.

Definition sortNodes (l : list float) : list float :=
  fold_left (fun sorted v => insertNode v sorted) l [].

(** The body of the pixel loop. *)
Definition shadePixel (color : ColorF) (grad : option Gradient) (blendMode : Z)
           (y x : Z) (image : ColorImage) : ColorImage :=
  let drawColor :=
    match grad with
    | Some g => getColorAt g (gradientT g x y)
    | None => color
    end in
  let bgPixel := Get image x y in
  let bgColor := fromRGBA bgPixel in
  let finalColor := blend drawColor bgColor blendMode in
  setPixel image x y (toRGBA finalColor).

(** The span loop over pairs of sorted intersections. *)
Fixpoint fillSpans (width : Z) (paint : Z -> ColorImage -> ColorImage)
         (nodes : list float) (image : ColorImage) : ColorImage :=
  match nodes with
  | n0 :: n1 :: rest =>
      let startX := to_int n0 in
      let endX := to_int n1 in
      if width <=? startX then fillSpans width paint rest image
      else if endX <=? 0 then fillSpans width paint rest image
      else
        let startX := if startX <? 0 then 0 else startX in
        let endX := if width <? endX then width else endX in
        fillSpans width paint rest (forRange startX endX paint image)
  | _ => image
  end.

Definition scanline (width : Z) (es : list Edge) (color : ColorF)
           (grad : option Gradient) (blendMode : Z) (y : Z)
           (image : ColorImage) : ColorImage :=
  fillSpans width (shadePixel color grad blendMode y)
            (sortNodes (intersections es y)) image.

Definition drawPolygon (image : ColorImage) (vertices : list Point)
           (color : ColorF) (grad : option Gradient) (blendMode : Z) : ColorImage :=
  if (length vertices <? 3)%nat then image
  else
    let width := GetWidth image in
    let height := GetHeight image in
    let st := buildEdges height vertices in
    let '(lo, hi) := clampRange height st in
    forRange lo hi (scanline width (edges st) color grad blendMode) image.

(** ** A blank canvas *)

Definition white : RGBA := mkRGBA xff xff xff xff.
Definition canvas : ColorImage := mkImage 800 600 (fun _ _ => white).

(** ** The blend modes in the spec's words *)

Inductive BlendMode := Normal | Multiply | Add | Difference | Overlay.

Definition mode_code (m : BlendMode) : Z :=
  match m with
  | Normal => BLEND_NORMAL
  | Multiply => BLEND_MULTIPLY
  | Add => BLEND_ADD
  | Difference => BLEND_DIFFERENCE
  | Overlay => BLEND_OVERLAY
  end.

(** The clamp of the specification, [clamp(v, lo, hi)]: the smaller of
    [hi] and the larger of [v] and [lo].  It is stated on the binary32
    order alone and does not mention the program's [clamp_float]. *)
Definition spec_max (a b : float) : float := if ltb a b then b else a.
Definition spec_min (a b : float) : float := if ltb b a then b else a.

Definition spec_clamp (v lo hi : float) : float := spec_min (spec_max v lo) hi.

(** The per-mode intermediate channel, as the specification words it. *)
Definition spec_intermediate (m : BlendMode) (s d : float) : float :=
  match m with
  | Normal => s
  | Multiply => mul s d
  | Add => spec_clamp (add s d) zero one
  | Difference => abs (sub d s)
  | Overlay =>
      if ltb d half then mul (mul two s) d
      else sub one (mul (mul two (sub one s)) (sub one d))
  end.

(** Source-over mix of one channel: [m * alpha + dest * (1 - alpha)]. *)
Definition spec_mix (m d alpha : float) : float :=
  add (mul m alpha) (mul d (sub one alpha)).

Definition spec_blend (m : BlendMode) (src dest : ColorF) : ColorF :=
  mkColorF (spec_mix (spec_intermediate m (cr src) (cr dest)) (cr dest) (ca src))
           (spec_mix (spec_intermediate m (cg src) (cg dest)) (cg dest) (ca src))
           (spec_mix (spec_intermediate m (cb src) (cb dest)) (cb dest) (ca src))
           one.

Definition known_mode (mode : Z) : bool :=
  existsb (Z.eqb mode)
          [BLEND_NORMAL; BLEND_MULTIPLY; BLEND_ADD; BLEND_DIFFERENCE; BLEND_OVERLAY].

Definition isZero (f : float) : bool :=
  match f with S754_zero _ => true | _ => false end.

(** The colour [getColorAt] falls back to when no test on [t] succeeds. *)
Definition fallbackColor (g : Gradient) : ColorF :=
  match stops g with
  | [] => mkColorF zero zero zero one
  | front :: _ => color (last (stops g) front)
  end.

(** A polygon all of whose edges, the closing one included, join two
    vertices with the same truncated [y]. *)
Definition flatInIntegerY (vertices : list Point) : Prop :=
  forall i, (i < length vertices)%nat ->
    to_int (py (nth i vertices origin)) =
    to_int (py (nth ((i + 1) mod length vertices)%nat vertices origin)).

(** Stops sorted by position, ascending (ties allowed). *)
Fixpoint sortedStops (l : list GradientStop) : bool :=
  match l with
  | s0 :: ((s1 :: _) as rest) => leb (position s0) (position s1) && sortedStops rest
  | _ => true
  end.

(** An image transformer that overwrites the pixels selected by [cov],
    the same for every image, with the one value [K], and keeps the
    dimensions. *)
Definition paints (K : RGBA) (cov : Z -> Z -> bool)
           (P : ColorImage -> ColorImage) : Prop :=
  forall image,
    GetWidth (P image) = GetWidth image /\
    GetHeight (P image) = GetHeight image /\
    forall a b, Get (P image) a b = if cov a b then K else Get image a b.

Definition stamps (K : RGBA) (P : ColorImage -> ColorImage) : Prop :=
  exists cov, paints K cov P.


(** The rectangle with integer corners [(x, y)] and [(x + w, y + h)], as
    the vertex list of [createRect]. *)
Definition rectangle (x y w h : Z) : list Point :=
  [ mkPoint (of_int x) (of_int y); mkPoint (of_int (x + w)) (of_int y);
    mkPoint (of_int (x + w)) (of_int (y + h)); mkPoint (of_int x) (of_int (y + h)) ].

(** An integer that survives the conversion to [float] and back:
    [(int)(float)k == k]. *)
Definition representable (k : Z) : Prop := to_int (of_int k) = k.


(** Every channel is a binary32 value (a canonical mantissa and exponent
    in range), as every C++ [float] is. *)
Definition validColor (c : ColorF) : Prop :=
  valid (cr c) = true /\ valid (cg c) = true /\ valid (cb c) = true /\
  valid (ca c) = true.




(** What [blend] returns for an opaque source in Normal mode: the
    destination term of the mix has vanished. *)
Definition opaqueNormal (c : ColorF) : ColorF :=
  mkColorF (add (mul (cr c) one) zero) (add (mul (cg c) one) zero)
           (add (mul (cb c) one) zero) one.

(** Two images with the same dimensions and the same pixels. *)
Definition sameImage (a b : ColorImage) : Prop :=
  GetWidth a = GetWidth b /\ GetHeight a = GetHeight b /\
  forall x y, Get a x y = Get b x y.

(** Stops sorted by position with strictly increasing positions. *)
Fixpoint increasingStops (l : list GradientStop) : bool :=
  match l with
  | s0 :: ((s1 :: _) as rest) => ltb (position s0) (position s1) && increasingStops rest
  | _ => true
  end.

(** The usual closeness test [|a - b| <= tol], evaluated in binary32. *)
Definition closeTo (tol a b : float) : bool := leb (abs (sub a b)) tol.

(** The rational value of a finite binary32 number (0 for the others). *)
Definition SF2Q (f : float) : Q :=
  match f with
  | S754_finite s m e =>
      match e with
      | Z0 => Qmake (cond_Zopp s (Zpos m)) 1
      | Zpos p => Qmake (cond_Zopp s (Zpos m * 2 ^ Zpos p)) 1
      | Zneg p => Qmake (cond_Zopp s (Zpos m)) (2 ^ p)
      end
  | _ => 0%Q
  end.

(** A channel value in [[0, 1]]. *)
Definition unitChannel (x : float) : Prop :=
  valid x = true /\ leb zero x = true /\ leb x one = true.

(** The channel that [fromRGBA] computes from the byte value [B]. *)
Definition backChannel (B : Z) : float := div (of_int B) f255.

(** One channel through [toRGBA] and back through [fromRGBA]. *)
Definition roundTrip (x : float) : float :=
  div (of_byte (to_byte (clamp_float (mul x f255) zero f255))) f255.

(** The check made on each of the 256 quotients [B / 255.0f]: the
    quotient [q] satisfies [B - 2^(log2 B - 24) <= 255 q] and
    [255 q <= B + 1 - 2^-17]. *)
Definition tableOK (B : Z) : bool :=
  match backChannel B with
  | S754_zero _ => B =? 0
  | S754_finite false mq (Zneg nq) =>
      ((B * 2 ^ 24 - 2 ^ Z.log2 B) * 2 ^ Zpos nq <=? 2 ^ 24 * 255 * Zpos mq)
      && (255 * Zpos mq * 2 ^ 17 <=? (B * 2 ^ 17 + 2 ^ 17 - 1) * 2 ^ Zpos nq)
      && (1 <=? B)
  | _ => false
  end.

Definition unitColor (c : ColorF) : Prop :=
  unitChannel (cr c) /\ unitChannel (cg c) /\ unitChannel (cb c) /\
  unitChannel (ca c).

(** The value of a binary32 number counted in units of [2^-149], the
    spacing of the smallest numbers (0 for infinities and NaN). *)
Definition grid (x : float) : Z :=
  match x with
  | S754_finite s m e => cond_Zopp s (Zpos m * 2 ^ (e + 149))
  | _ => 0
  end.

Definition isFinite (x : float) : bool :=
  match x with
  | S754_zero _ | S754_finite _ _ _ => true
  | _ => false
  end.

(** A finite number [a] within [2^-k] of [b]. *)
Definition nearChannel (k : positive) (a b : float) : Prop :=
  isFinite a = true /\ (Qabs (SF2Q a - SF2Q b) <= Qmake 1 (2 ^ k))%Q.

Definition nearColor (k : positive) (a b : ColorF) : Prop :=
  nearChannel k (cr a) (cr b) /\ nearChannel k (cg a) (cg b) /\
  nearChannel k (cb a) (cb b) /\ nearChannel k (ca a) (ca b).

(** ** Predicates for the further properties *)

(** One channel of [toRGBA]. *)
Definition channelByte (x : float) : byte :=
  to_byte (clamp_float (mul x f255) zero f255).

(** The pixel positions of an image. *)
Definition inImage (image : ColorImage) (a b : Z) : bool :=
  (0 <=? a) && (a <? GetWidth image) && (0 <=? b) && (b <? GetHeight image).

(** A finite binary32 number of magnitude below [2^k]. *)
Definition below (k : Z) (x : float) : Prop :=
  valid x = true /\ isFinite x = true /\ Z.abs (grid x) < 2 ^ (k + 149).

(** What holds of an edge recorded in the table [st]. *)
Definition edgeOK (height : Z) (st : EdgeTable) (e : Edge) : Prop :=
  yMin e <> yMax e /\ 0 < yMax e /\ yMin e < height /\
  globalMinY st <= yMin e /\ yMax e <= globalMaxY st.

(** What the edge-construction loop maintains. *)
Definition edgeTableOK (height : Z) (st : EdgeTable) : Prop :=
  globalMinY st <= height /\ 0 <= globalMaxY st /\
  Forall (edgeOK height st) (edges st).

(** The running bounds of the edge loop are the initial ones or the
    truncated [y] of a vertex. *)
Definition boundsFromVertices (height : Z) (vertices : list Point)
           (st : EdgeTable) : Prop :=
  (globalMinY st = height \/
   exists v, In v vertices /\ globalMinY st = to_int (py v)) /\
  (globalMaxY st = 0 \/
   exists v, In v vertices /\ globalMaxY st = to_int (py v)).

(** An image transformer that keeps the dimensions and leaves every
    pixel outside the region [R] as it was. *)
Definition confined (R : Z -> Z -> bool) (P : ColorImage -> ColorImage) : Prop :=
  forall image,
    GetWidth (P image) = GetWidth image /\
    GetHeight (P image) = GetHeight image /\
    forall a b, R a b = false -> Get (P image) a b = Get image a b.

(** Every pixel has alpha 255. *)
Definition opaqueImage (image : ColorImage) : Prop :=
  forall a b, rgba_a (Get image a b) = xff.

(** An image transformer that changes nothing on an opaque image. *)
Definition idle (P : ColorImage -> ColorImage) : Prop :=
  forall image, opaqueImage image -> sameImage (P image) image.

(** ** Concrete data used by the examples *)

Definition f08 : float := S754_finite false 13421773 (-24).   (* 0.8f *)

Definition red : ColorF := mkColorF one zero zero one.
Definition blue : ColorF := mkColorF zero zero one one.
Definition orange08 : ColorF := mkColorF one half zero f08.
Definition grey59 : RGBA := mkRGBA x3b x3b x3b xff.

Definition emptyLinear (a b : Point) : Gradient := mkGradient false a b zero [].

(** Two stops at the same position, entered through [addStop]. *)
Definition tiedGradient : Gradient :=
  addStop (addStop (emptyLinear origin (mkPoint one zero)) half red) half blue.

(** A linear gradient whose two endpoints coincide. *)
Definition pointGradient : Gradient :=
  addStop (addStop (emptyLinear (mkPoint (of_int 100) (of_int 400))
                                (mkPoint (of_int 100) (of_int 400)))
                   zero red) one blue.

(** A radial gradient of radius zero. *)
Definition dotGradient : Gradient :=
  addStop (addStop (mkGradient true (mkPoint (of_int 400) (of_int 300)) origin zero [])
                   zero red) one blue.

(** The triangle of scenario S3. *)
Definition triangle : list Point :=
  [ mkPoint (of_int 100) (of_int 400); mkPoint (of_int 300) (of_int 400);
    mkPoint (of_int 200) (of_int 250) ].

Definition flatTriangle : list Point :=
  [ mkPoint (of_int 10) (of_int 20); mkPoint (of_int 90) (of_int 20);
    mkPoint (of_int 50) (div (of_int 41) two) ].

(** Stops at 0, 0.5 and 1. *)
Definition threeStops : Gradient :=
  addStop (addStop (addStop (emptyLinear origin (mkPoint one zero)) zero red)
                   half blue) one red.

(** Stops whose positions are further apart than the largest binary32
    number. *)
Definition huge (s : bool) : float := S754_finite s 8388608 104.          (* +-2^127 *)
Definition huger : float := S754_finite false 12582912 104.             (* 1.5 * 2^127 *)

Definition wideGradient : Gradient :=
  addStop (addStop (addStop (emptyLinear origin origin) (huge true) red)
                   (huge false) blue) huger red.

Definition quarter : float := S754_finite false 8388608 (-25).   (* 0.25f *)

(** An orange with alpha zero. *)
Definition clearOrange : ColorF := mkColorF one half zero zero.

(** A triangle above the first row of the image. *)
Definition aboveTriangle : list Point :=
  [ mkPoint (of_int 10) (of_int (-40)); mkPoint (of_int 90) (of_int (-3));
    mkPoint (of_int 50) (of_int (-80)) ].

(** * Properties *)

(** ** Facts about binary32 comparison *)

Lemma SFcompare_antisym (x y : float) :
  SFcompare x y = option_map CompOpp (SFcompare y x).
Proof.
  destruct x as [[]|[]| |[] mx ex], y as [[]|[]| |[] my ey];
    simpl; try reflexivity;
    rewrite (Z.compare_antisym ex ey); destruct (ex ?= ey); simpl;
    try reflexivity;
    rewrite (Pos.compare_cont_antisym my mx Eq); reflexivity.
Qed.

Lemma ltb_not_leb (x y : float) : ltb x y = true -> leb y x = false.
Proof.
  unfold ltb, leb, SFltb, SFleb. rewrite (SFcompare_antisym y x).
  destruct (SFcompare x y) as [[]|]; simpl; congruence.
Qed.

Lemma leb_nan_l (x : float) : leb nan x = false.
Proof. reflexivity. Qed.

Lemma leb_nan_r (x : float) : leb x nan = false.
Proof. destruct x; reflexivity. Qed.

Lemma ltb_nan_l (x : float) : ltb nan x = false.
Proof. reflexivity. Qed.

Lemma ltb_nan_r (x : float) : ltb x nan = false.
Proof. destruct x; reflexivity. Qed.

Lemma clamp_float_nan (lo hi : float) : clamp_float nan lo hi = nan.
Proof. unfold clamp_float. now rewrite ltb_nan_l, ltb_nan_r. Qed.

Lemma SFcompare_refl (x : float) : x <> nan -> SFcompare x x = Some Eq.
Proof.
  destruct x as [[]|[]| |[] m e]; intros H; try reflexivity;
    try (now elim H);
    cbn [SFcompare]; now rewrite Z.compare_refl, Pos.compare_cont_refl.
Qed.

Lemma ltb_not_nan_l (x y : float) : ltb x y = true -> x <> nan.
Proof. intros H ->. discriminate. Qed.

Lemma ltb_not_nan_r (x y : float) : ltb x y = true -> y <> nan.
Proof. intros H ->. rewrite ltb_nan_r in H. discriminate. Qed.

Lemma leb_refl (x : float) : x <> nan -> leb x x = true.
Proof. intros H. unfold leb, SFleb. now rewrite SFcompare_refl. Qed.

Lemma ltb_leb (x y : float) : ltb x y = true -> leb x y = true.
Proof. unfold ltb, leb, SFltb, SFleb. now destruct (SFcompare x y) as [[]|]. Qed.

Lemma ltb_trans (x y z : float) : ltb x y = true -> ltb y z = true -> ltb x z = true.
Proof.
  unfold ltb, SFltb.
  destruct x as [[]|[]| |[] mx ex], y as [[]|[]| |[] my ey], z as [[]|[]| |[] mz ez];
    cbn [SFcompare]; try discriminate; try reflexivity;
    destruct (Z.compare_spec ex ey); try discriminate;
    destruct (Z.compare_spec ey ez); try discriminate;
    destruct (Z.compare_spec ex ez); try reflexivity; try lia; subst;
    change (Pos.compare_cont Eq) with Pos.compare;
    (try destruct (Pos.compare_spec mx my)); try discriminate;
    (try destruct (Pos.compare_spec my mz)); try discriminate;
    (try destruct (Pos.compare_spec mx mz)); try reflexivity; try discriminate;
    cbn [CompOpp]; try reflexivity; try discriminate; try lia.
Qed.

(** ** Facts about binary32 rounding *)


Lemma digits2_pos_size (p : positive) : digits2_pos p = Pos.size p.
Proof. induction p; simpl; congruence. Qed.

Lemma digits2_bounds (p : positive) :
  2 ^ (Zpos (digits2_pos p) - 1) <= Zpos p < 2 ^ Zpos (digits2_pos p).
Proof.
  rewrite digits2_pos_size. split.
  - pose proof (Pos.size_le p) as H.
    apply Pos2Z.pos_le_pos in H. rewrite Pos2Z.inj_pow in H.
    replace (Zpos (Pos.size p)) with (Z.succ (Zpos (Pos.size p) - 1)) in H by lia.
    rewrite Z.pow_succ_r in H by lia. rewrite (Pos2Z.inj_xO p) in H. lia.
  - pose proof (Pos.size_gt p) as H.
    apply Pos2Z.pos_lt_pos in H. now rewrite Pos2Z.inj_pow in H.
Qed.

Lemma iter_pos_nat {A : Type} (f : A -> A) (p : positive) (x : A) :
  SpecFloat.iter_pos f p x = Nat.iter (Pos.to_nat p) f x.
Proof.
  revert x. induction p as [p IH | p IH |]; intros x.
  - change (SpecFloat.iter_pos f p~1 x)
      with (SpecFloat.iter_pos f p (SpecFloat.iter_pos f p (f x))).
    rewrite !IH, Pos2Nat.inj_xI, Nat.iter_succ_r.
    replace (2 * Pos.to_nat p)%nat with (Pos.to_nat p + Pos.to_nat p)%nat by lia.
    now rewrite Nat.iter_add.
  - change (SpecFloat.iter_pos f p~0 x) with (SpecFloat.iter_pos f p (SpecFloat.iter_pos f p x)).
    rewrite !IH, Pos2Nat.inj_xO.
    replace (2 * Pos.to_nat p)%nat with (Pos.to_nat p + Pos.to_nat p)%nat by lia.
    now rewrite Nat.iter_add.
  - reflexivity.
Qed.

Lemma shr_1_nonneg (m : Z) (r s : bool) :
  0 <= m ->
  shr_1 (Build_shr_record m r s) = Build_shr_record (m / 2) (Z.odd m) (r || s).
Proof.
  intros Hm. rewrite <- Z.div2_div.
  destruct m as [|[p|p|]|]; simpl; try reflexivity. lia.
Qed.



Lemma fexp_ge_emin (x : Z) : emin <= fexp x.
Proof. unfold fexp, SpecFloat.fexp. fold emin. lia. Qed.




Lemma iter_xO_value (m d : positive) : Zpos (Pos.iter xO m d) = Zpos m * 2 ^ Zpos d.
Proof.
  induction d as [|d IH] using Pos.peano_ind.
  - simpl. lia.
  - rewrite Pos.iter_succ, Pos2Z.inj_xO, IH, Pos2Z.inj_succ, Z.pow_succ_r by lia.
    lia.
Qed.

Lemma iter_xO_digits (m d : positive) :
  Zpos (digits2_pos (Pos.iter xO m d)) = Zpos (digits2_pos m) + Zpos d.
Proof.
  induction d as [|d IH] using Pos.peano_ind.
  - simpl. lia.
  - rewrite Pos.iter_succ. simpl digits2_pos. lia.
Qed.

Lemma shl_align_fst (m : positive) (e e' : Z) :
  e' <= e -> Zpos (fst (shl_align m e e')) = Zpos m * 2 ^ (e - e').
Proof.
  intros H. unfold shl_align. destruct (e' - e) as [|d|d] eqn:E; simpl fst.
  - replace (e - e') with 0 by lia. lia.
  - lia.
  - rewrite iter_xO_value. f_equal. f_equal. lia.
Qed.

Lemma shl_align_snd (m : positive) (e e' : Z) :
  e' <= e -> snd (shl_align m e e') = e'.
Proof.
  intros H. unfold shl_align. destruct (e' - e) as [|d|d] eqn:E; simpl; lia.
Qed.

Lemma shl_align_digits (m : positive) (e e' : Z) :
  e' <= e ->
  Zpos (digits2_pos (fst (shl_align m e e'))) = Zpos (digits2_pos m) + (e - e').
Proof.
  intros H. unfold shl_align. destruct (e' - e) as [|d|d] eqn:E; simpl fst.
  - lia.
  - lia.
  - rewrite iter_xO_digits. lia.
Qed.

(** Rounding a mantissa that is already canonical changes nothing. *)
Lemma binary_round_aux_canonical (s : bool) (m : positive) (e : Z) :
  fexp (Zpos (digits2_pos m) + e) = e -> e <= emax - prec ->
  binary_round_aux prec emax s (Zpos m) e loc_Exact = S754_finite s m e.
Proof.
  intros Hc He. unfold binary_round_aux, shr_fexp. simpl Zdigits2.
  fold (fexp (Zpos (digits2_pos m) + e)). rewrite Hc, Z.sub_diag.
  cbn [shr shr_record_of_loc shr_m loc_of_shr_record round_nearest_even Zdigits2].
  fold (fexp (Zpos (digits2_pos m) + e)). rewrite Hc, Z.sub_diag.
  cbn [shr shr_record_of_loc shr_m].
  now rewrite (proj2 (Z.leb_le _ _) He).
Qed.

(** The conversion of a small positive integer is exact: a 24-digit
    mantissa that is the integer shifted left. *)
Lemma of_int_small (k : Z) :
  0 < k < 2 ^ 24 ->
  exists m e, of_int k = S754_finite false m e /\
              -23 <= e <= 0 /\ Zpos m = k * 2 ^ (- e) /\
              Zpos (digits2_pos m) = 24.
Proof.
  intros [Hk0 Hk]. destruct k as [|p|p]; try lia.
  unfold of_int, binary_normalize, binary_round.
  pose proof (digits2_bounds p) as Hd.
  set (d := Zpos (digits2_pos p)) in *.
  assert (Hd24 : 1 <= d <= 24).
  { split; [unfold d; lia |].
    destruct (Z.le_gt_cases d 24) as [|Hgt]; auto.
    assert (2 ^ 24 <= 2 ^ (d - 1)) by (apply Z.pow_le_mono_r; lia). lia. }
  fold (fexp (d + 0)).
  assert (Hf : fexp (d + 0) = d - 24).
  { unfold fexp, SpecFloat.fexp, SpecFloat.emin, emax, prec. lia. }
  rewrite Hf.
  assert (Hle : d - 24 <= 0) by lia.
  pose proof (shl_align_fst p 0 (d - 24) Hle) as Hv.
  pose proof (shl_align_snd p 0 (d - 24) Hle) as Hs.
  pose proof (shl_align_digits p 0 (d - 24) Hle) as Hg. fold d in Hg.
  destruct (shl_align p 0 (d - 24)) as [mz ez]. cbn [fst snd] in Hv, Hs, Hg. subst ez.
  exists mz, (d - 24). split; [| repeat split; try lia].
  - apply binary_round_aux_canonical.
    + rewrite Hg. unfold fexp, SpecFloat.fexp, SpecFloat.emin, emax, prec. lia.
    + unfold emax, prec. lia.
  - replace (- (d - 24)) with (0 - (d - 24)) by lia. exact Hv.
Qed.

Lemma digits2_unique (p : positive) (d : Z) :
  2 ^ (d - 1) <= Zpos p < 2 ^ d -> Zpos (digits2_pos p) = d.
Proof.
  intros [Hlo Hhi]. pose proof (digits2_bounds p) as [Dlo Dhi].
  set (D := Zpos (digits2_pos p)) in *.
  destruct (Z.lt_trichotomy D d) as [Hlt | [Heq | Hgt]]; auto; exfalso.
  - assert (2 ^ D <= 2 ^ (d - 1)) by (apply Z.pow_le_mono_r; lia). lia.
  - assert (2 ^ d <= 2 ^ (D - 1)) by (apply Z.pow_le_mono_r; lia). lia.
Qed.

Lemma to_int_of_int (k : Z) : 0 <= k < 2 ^ 24 -> to_int (of_int k) = k.
Proof.
  intros [H0 H]. destruct (Z.eq_dec k 0) as [-> | Hk]; [reflexivity |].
  destruct (of_int_small k ltac:(lia)) as (m & e & -> & He & Hm & _).
  unfold to_int. cbn [cond_Zopp].
  assert (Hv : trunc_mag m e = k).
  { unfold trunc_mag. destruct e as [|q|q]; try lia.
    rewrite Hm. change (- Z.neg q) with (Z.pos q). apply Z.div_mul.
    apply Z.pow_nonzero; lia. }
  rewrite Hv. unfold INT_MIN.
  destruct (Z.leb_spec (- 2 ^ 31) k); [| lia].
  destruct (Z.ltb_spec k (2 ^ 31)); [reflexivity | lia].
Qed.



Lemma shr_iter_exact (n : nat) (q : Z) :
  0 <= q ->
  Nat.iter n shr_1 (Build_shr_record (q * 2 ^ Z.of_nat n) false false) =
  Build_shr_record q false false.
Proof.
  intros Hq. induction n as [|n IH].
  - simpl. now rewrite Z.mul_1_r.
  - rewrite Nat.iter_succ_r, Nat2Z.inj_succ, Z.pow_succ_r by apply Nat2Z.is_nonneg.
    assert (0 < 2 ^ Z.of_nat n) by (apply Z.pow_pos_nonneg; lia).
    rewrite shr_1_nonneg by nia.
    replace (q * (2 * 2 ^ Z.of_nat n)) with (q * 2 ^ Z.of_nat n * 2) by lia.
    rewrite Z.div_mul, Z.odd_mul by lia.
    change (Z.odd 2) with false. now rewrite andb_false_r.
Qed.

(** Rounding undoes an exact left shift of a canonical mantissa. *)
Lemma binary_round_aux_shift (s : bool) (m q : positive) (e n : Z) :
  fexp (Zpos (digits2_pos m) + e) = e -> e <= emax - prec ->
  0 < n -> Zpos q = Zpos m * 2 ^ n ->
  binary_round_aux prec emax s (Zpos q) (e - n) loc_Exact = S754_finite s m e.
Proof.
  intros Hc He Hn Hq.
  assert (Hd : Zpos (digits2_pos q) = Zpos (digits2_pos m) + n).
  { apply digits2_unique. pose proof (digits2_bounds m) as [Hlo Hhi].
    assert (0 < 2 ^ n) by (apply Z.pow_pos_nonneg; lia).
    rewrite Hq.
    replace (Zpos (digits2_pos m) + n - 1) with (Zpos (digits2_pos m) - 1 + n) by lia.
    rewrite !Z.pow_add_r by lia. nia. }
  unfold binary_round_aux, shr_fexp. cbn [Zdigits2].
  fold (fexp (Zpos (digits2_pos q) + (e - n))).
  replace (Zpos (digits2_pos q) + (e - n)) with (Zpos (digits2_pos m) + e) by lia.
  rewrite Hc. replace (e - (e - n)) with n by lia.
  destruct n as [|np|np]; try lia.
  cbn [shr shr_record_of_loc].
  rewrite iter_pos_nat, Hq, <- (positive_nat_Z np), shr_iter_exact by lia.
  cbn [shr_m loc_of_shr_record round_nearest_even Zdigits2].
  rewrite positive_nat_Z.
  replace (e - Zpos np + Zpos np) with e by lia.
  fold (fexp (Zpos (digits2_pos m) + e)). rewrite Hc, Z.sub_diag.
  cbn [shr shr_record_of_loc shr_m].
  now rewrite (proj2 (Z.leb_le _ _) He).
Qed.

Lemma valid_finite (s : bool) (m : positive) (e : Z) :
  valid (S754_finite s m e) = true ->
  fexp (Zpos (digits2_pos m) + e) = e /\ e <= emax - prec.
Proof.
  unfold valid, valid_binary, bounded, canonical_mantissa. intros H.
  apply andb_prop in H. destruct H as [H1 H2].
  apply Z.eqb_eq in H1. apply Z.leb_le in H2. auto.
Qed.

Lemma mul_one_r (x : float) : valid x = true -> mul x one = x.
Proof.
  intros Hv. destruct x as [[]|[]| |s m e]; try reflexivity.
  destruct (valid_finite s m e Hv) as [Hc He].
  unfold mul, SFmul, one. rewrite xorb_false_r.
  change (e + -23) with (e - 23).
  apply binary_round_aux_shift; auto; try lia.
Qed.

(** The byte that [toRGBA] produces for a channel is not affected by the
    opaque Normal mix [c * 1 + 0]. *)
Lemma opaque_channel_byte (c : float) :
  valid c = true ->
  to_byte (clamp_float (mul (add (mul c one) zero) f255) zero f255) =
  to_byte (clamp_float (mul c f255) zero f255).
Proof.
  intros Hv. rewrite (mul_one_r c Hv).
  destruct c as [[]|[]| |s m e]; reflexivity.
Qed.

(** The round and sticky bits after [n >= 1] right shifts of an exact
    mantissa locate the discarded remainder against half a unit. *)
Lemma shr_iter_flags (M : Z) (n : nat) :
  0 <= M ->
  let mrs := Nat.iter (S n) shr_1 (Build_shr_record M false false) in
  shr_m mrs = M / 2 ^ Z.of_nat (S n) /\
  exists low, 0 <= low < 2 ^ Z.of_nat n /\
    M mod 2 ^ Z.of_nat (S n) = (if shr_r mrs then 2 ^ Z.of_nat n else 0) + low /\
    (shr_s mrs = true <-> 0 < low).
Proof.
  intros HM. induction n as [|n IH].
  - cbn [Nat.iter]. rewrite shr_1_nonneg by assumption. cbn [shr_m shr_r shr_s].
    change (2 ^ Z.of_nat 1) with 2. change (2 ^ Z.of_nat 0) with 1.
    split; [reflexivity |]. exists 0. split; [lia |]. split.
    + rewrite Zmod_odd. destruct (Z.odd M); reflexivity.
    + split; [discriminate | lia].
  - cbv zeta in IH. destruct IH as (Hm & low & Hlow & Hmod & Hs).
    remember (Nat.iter (S n) shr_1 (Build_shr_record M false false)) as mrs eqn:Emrs.
    cbv zeta. change (Nat.iter (S (S n)) shr_1 (Build_shr_record M false false))
      with (shr_1 (Nat.iter (S n) shr_1 (Build_shr_record M false false))).
    rewrite <- Emrs. destruct mrs as [m r s]. cbn [shr_m shr_r shr_s] in *.
    assert (Hp : 0 < 2 ^ Z.of_nat n) by (apply Z.pow_pos_nonneg; lia).
    assert (Hp1 : 2 ^ Z.of_nat (S n) = 2 * 2 ^ Z.of_nat n).
    { rewrite Nat2Z.inj_succ, Z.pow_succ_r by lia. reflexivity. }
    assert (Hp2 : 2 ^ Z.of_nat (S (S n)) = 2 * 2 ^ Z.of_nat (S n)).
    { rewrite (Nat2Z.inj_succ (S n)), Z.pow_succ_r by lia. reflexivity. }
    assert (Hm0 : 0 <= m) by (rewrite Hm; apply Z.div_pos; lia).
    rewrite shr_1_nonneg by assumption. cbn [shr_m shr_r shr_s].
    split.
    + rewrite Hm, Z.div_div, Hp2 by lia. f_equal. lia.
    + exists ((if r then 2 ^ Z.of_nat n else 0) + low). split; [| split].
      * destruct r; lia.
      * rewrite <- Hmod.
        pose proof (Z.div_mod M (2 ^ Z.of_nat (S n)) ltac:(lia)) as HD.
        rewrite <- Hm in HD.
        pose proof (Z.mod_pos_bound M (2 ^ Z.of_nat (S n)) ltac:(lia)) as HB.
        pose proof (Zmod_odd m) as Ho. pose proof (Z.div_mod m 2 ltac:(lia)) as HD2.
        symmetry. apply Z.mod_unique_pos with (q := m / 2).
        -- destruct (Z.odd m); lia.
        -- rewrite HD at 1. rewrite HD2 at 1. rewrite Ho.
           destruct (Z.odd m); lia.
      * rewrite orb_true_iff, Hs. destruct r; split; intros; auto; try lia.
Qed.

Lemma round_after_shift (M : Z) (n : nat) :
  0 <= M ->
  let mrs := Nat.iter (S n) shr_1 (Build_shr_record M false false) in
  let M2 := round_nearest_even (shr_m mrs) (loc_of_shr_record mrs) in
  M / 2 ^ Z.of_nat (S n) <= M2 <= M / 2 ^ Z.of_nat (S n) + 1 /\
  - 2 ^ Z.of_nat (S n) <= 2 * (M2 * 2 ^ Z.of_nat (S n) - M) <= 2 ^ Z.of_nat (S n).
Proof.
  intros HM. destruct (shr_iter_flags M n HM) as (Hm & low & Hlow & Hmod & Hs).
  cbv zeta.
  destruct (Nat.iter (S n) shr_1 (Build_shr_record M false false)) as [m r s].
  cbn [shr_m shr_r shr_s] in *.
  assert (Hp1 : 2 ^ Z.of_nat (S n) = 2 * 2 ^ Z.of_nat n).
  { rewrite Nat2Z.inj_succ, Z.pow_succ_r by lia. reflexivity. }
  assert (Hp : 0 < 2 ^ Z.of_nat n) by (apply Z.pow_pos_nonneg; lia).
  pose proof (Z.div_mod M (2 ^ Z.of_nat (S n)) ltac:(lia)) as HD.
  rewrite <- Hm, Hmod in HD. rewrite <- Hm. rewrite Hp1 in *.
  assert (Hs' : s = false -> low = 0).
  { intros ->. destruct (Z.eq_dec low 0); auto.
    assert (false = true) by (apply Hs; lia). discriminate. }
  assert (Hs'' : s = true -> 0 < low) by (intros ->; now apply Hs).
  destruct r, s; cbn [loc_of_shr_record round_nearest_even];
    try specialize (Hs' eq_refl); try specialize (Hs'' eq_refl);
    try destruct (Z.even m); nia.
Qed.

Lemma digits2_shift (M : positive) (n : Z) :
  0 <= n -> 2 ^ n <= Zpos M ->
  exists M1, Zpos M / 2 ^ n = Zpos M1 /\
             Zpos (digits2_pos M1) = Zpos (digits2_pos M) - n.
Proof.
  intros Hn HM. pose proof (digits2_bounds M) as [Hlo Hhi].
  set (D := Zpos (digits2_pos M)) in *.
  assert (Hp : 0 < 2 ^ n) by (apply Z.pow_pos_nonneg; lia).
  assert (HnD : n < D).
  { destruct (Z.lt_ge_cases n D) as [|Hge]; auto.
    assert (2 ^ D <= 2 ^ n) by (apply Z.pow_le_mono_r; lia). lia. }
  assert (H1 : 2 ^ (D - n - 1) <= Zpos M / 2 ^ n).
  { apply Z.div_le_lower_bound; [lia |].
    rewrite <- Z.pow_add_r by lia. replace (n + (D - n - 1)) with (D - 1) by lia.
    exact Hlo. }
  assert (H2 : Zpos M / 2 ^ n < 2 ^ (D - n)).
  { apply Z.div_lt_upper_bound; [lia |].
    rewrite <- Z.pow_add_r by lia. replace (n + (D - n)) with D by lia. exact Hhi. }
  assert (H0 : 0 < 2 ^ (D - n - 1)) by (apply Z.pow_pos_nonneg; lia).
  destruct (Zpos M / 2 ^ n) as [|M1|M1] eqn:E1; try lia.
  exists M1. split; [reflexivity |]. apply digits2_unique. fold D.
  lia.
Qed.

(** Rounding an exact mantissa that has to lose [E1 - E >= 1] low bits:
    the result is the nearest multiple of [2 ^ E1]. *)
Lemma binary_round_aux_nearest (s : bool) (M : positive) (E : Z) :
  let E1 := fexp (Zpos (digits2_pos M) + E) in
  E < E1 -> E1 < emax - prec -> 2 ^ (E1 - E) <= Zpos M ->
  exists Mf Ef M2,
    binary_round_aux prec emax s (Zpos M) E loc_Exact = S754_finite s Mf Ef /\
    fexp (Zpos (digits2_pos Mf) + Ef) = Ef /\
    E1 <= Ef <= E1 + 1 /\ Zpos Mf * 2 ^ (Ef - E1) = M2 /\
    (Ef = E1 + 1 -> M2 = 2 ^ prec) /\
    Zpos M / 2 ^ (E1 - E) <= M2 <= Zpos M / 2 ^ (E1 - E) + 1 /\
    - 2 ^ (E1 - E) <= 2 * (M2 * 2 ^ (E1 - E) - Zpos M) <= 2 ^ (E1 - E).
Proof.
  intros E1 HE Hmax HM.
  destruct (digits2_shift M (E1 - E) ltac:(lia) HM) as (M1 & HM1 & Hd1).
  unfold binary_round_aux, shr_fexp. cbn [Zdigits2].
  fold (fexp (Zpos (digits2_pos M) + E)). fold E1.
  destruct (E1 - E) as [|np|np] eqn:En; try lia.
  cbn [shr shr_record_of_loc]. rewrite iter_pos_nat.
  destruct (Pos.to_nat np) as [|k] eqn:Ek; [lia |].
  assert (Hk : Z.of_nat (S k) = Zpos np) by lia.
  pose proof (round_after_shift (Zpos M) k ltac:(lia)) as HR. cbv zeta in HR.
  rewrite Hk in HR. destruct HR as [[HR1 HR2] HR3]. rewrite HM1 in HR1, HR2.
  set (M2 := round_nearest_even _ _) in *.
  destruct M2 as [|m2|m2] eqn:EM2; try lia.
  replace (E + Zpos np) with E1 by lia.
  pose proof (digits2_bounds M1) as B1. pose proof (digits2_bounds m2) as B2.
  set (d1 := Zpos (digits2_pos M1)) in *. set (d2 := Zpos (digits2_pos m2)) in *.
  assert (Hc1 : fexp (d1 + E1) = E1).
  { replace (d1 + E1) with (Zpos (digits2_pos M) + E) by lia. reflexivity. }
  assert (Hd12 : d1 <= d2 <= d1 + 1).
  { split.
    - destruct (Z.le_gt_cases d1 d2) as [|Hgt]; auto.
      assert (2 ^ d2 <= 2 ^ (d1 - 1)) by (apply Z.pow_le_mono_r; lia). lia.
    - destruct (Z.le_gt_cases d2 (d1 + 1)) as [|Hgt]; auto.
      assert (2 ^ (d1 + 1) <= 2 ^ (d2 - 1)) by (apply Z.pow_le_mono_r; lia).
      assert (2 ^ (d1 + 1) = 2 * 2 ^ d1) by (rewrite Z.pow_add_r; lia). lia. }
  cbn [Zdigits2].
  change (SpecFloat.fexp prec emax (Zpos (digits2_pos m2) + E1)) with (fexp (d2 + E1)).
  assert (Hn2 : fexp (d2 + E1) - E1 = 0 \/
                (fexp (d2 + E1) - E1 = 1 /\ d2 = d1 + 1 /\ d1 = prec)).
  { revert Hc1. unfold fexp, SpecFloat.fexp. lia. }
  destruct Hn2 as [Hn2 | (Hn2 & Hd2 & Hd1p)]; rewrite Hn2.
  - cbn [shr shr_record_of_loc shr_m].
    rewrite (proj2 (Z.leb_le E1 (emax - prec))) by lia.
    exists m2, E1, (Zpos m2). rewrite Z.sub_diag.
    repeat split; try lia. fold d2. lia.
  - assert (Hpow : Zpos m2 = 2 ^ d1).
    { assert (2 ^ (d2 - 1) = 2 ^ d1) by (f_equal; lia). lia. }
    assert (Hd1pos : 1 <= d1) by (unfold d1; lia).
    assert (Hhalf : Zpos m2 = 2 * 2 ^ (d1 - 1)).
    { rewrite Hpow. replace d1 with (Z.succ (d1 - 1)) at 1 by lia.
      now rewrite Z.pow_succ_r by lia. }
    assert (0 < 2 ^ (d1 - 1)) by (apply Z.pow_pos_nonneg; lia).
    destruct m2 as [m2'|m2'|]; try lia.
    cbn [shr shr_record_of_loc shr_m SpecFloat.iter_pos shr_1].
    rewrite (proj2 (Z.leb_le (E1 + 1) (emax - prec))) by lia.
    exists m2', (E1 + 1), (Zpos m2'~0).
    replace (E1 + 1 - E1) with 1 by lia.
    repeat split; try lia.
    + replace (Zpos (digits2_pos m2') + (E1 + 1)) with (d2 + E1)
        by (unfold d2; cbn [digits2_pos]; lia).
      lia.
    + intros _. now rewrite Hpow, Hd1p.
Qed.

Lemma pow2_lt_inv (a b : Z) : 0 <= b -> 2 ^ a < 2 ^ b -> a < b.
Proof.
  intros Hb H. destruct (Z.lt_ge_cases a b) as [|Hge]; auto.
  assert (2 ^ b <= 2 ^ a) by (apply Z.pow_le_mono_r; lia). lia.
Qed.

Lemma pow2_split (a b : Z) : 0 <= a -> 0 <= b -> 2 ^ (a + b) = 2 ^ a * 2 ^ b.
Proof. intros. now apply Z.pow_add_r. Qed.

(** The digits of [m * 255 * 2^16]. *)
Lemma digits_times_255 (m : positive) :
  Zpos (digits2_pos m) + 23 <= Zpos (digits2_pos (m * 16711680)) <=
  Zpos (digits2_pos m) + 24.
Proof.
  pose proof (digits2_bounds m) as [Hlo Hhi].
  pose proof (digits2_bounds (m * 16711680)) as [Mlo Mhi].
  rewrite Pos2Z.inj_mul in Mlo, Mhi.
  set (dm := Zpos (digits2_pos m)) in *.
  set (D := Zpos (digits2_pos (m * 16711680))) in *.
  assert (1 <= dm) by (unfold dm; lia).
  assert (0 < 2 ^ (dm - 1)) by (apply Z.pow_pos_nonneg; lia).
  split.
  - assert (2 ^ (dm - 1 + 23) < 2 ^ D).
    { rewrite pow2_split by lia. change (2 ^ 23) with 8388608. lia. }
    assert (dm - 1 + 23 < D) by (apply pow2_lt_inv; [unfold D; lia | assumption]). lia.
  - assert (2 ^ (D - 1) < 2 ^ (dm + 24)).
    { rewrite (pow2_split dm 24) by lia. change (2 ^ 24) with 16777216. lia. }
    assert (D - 1 < dm + 24) by (apply pow2_lt_inv; [lia | assumption]). lia.
Qed.

(** What [toRGBA] computes for one channel [m * 2^e < 1]: the product
    with [255.0f] is clamped to itself, and its integer part [B] brackets
    the exact product [255 * m * 2^e] from both sides. *)
Lemma scale255_bounds (m : positive) (e : Z) :
  valid (S754_finite false m e) = true -> e <= -24 ->
  exists B,
    to_int (clamp_float (mul (S754_finite false m e) f255) zero f255) = B /\
    0 <= B <= 255 /\
    B * 2 ^ 17 * 2 ^ (- e) - 2 ^ 24 <= 255 * Zpos m * 2 ^ 17 /\
    (1 <= B -> 255 * Zpos m * 2 ^ 24 <=
               (B + 1) * 2 ^ 24 * 2 ^ (- e) - 2 ^ Z.log2 B * 2 ^ (- e)) /\
    (B = 0 -> 255 * Zpos m < 2 ^ (- e)).
Proof.
  intros Hv He24. destruct (valid_finite false m e Hv) as [Hc _].
  pose proof (digits_times_255 m) as HD.
  pose proof (digits2_bounds m) as [_ Hmhi].
  pose proof (digits2_bounds (m * 16711680)) as [HMlo HMhi].
  unfold mul, SFmul, f255. cbn [xorb].
  set (M := (m * 16711680)%positive) in *.
  set (dm := Zpos (digits2_pos m)) in *.
  set (D := Zpos (digits2_pos M)) in *.
  set (E := e + -16).
  assert (Hdm : 1 <= dm) by (unfold dm; lia).
  assert (HM : Zpos M = Zpos m * 16711680) by (unfold M; lia).
  pose proof (binary_round_aux_nearest false M E) as HN. cbv zeta in HN.
  fold D in HN. set (E1 := fexp (D + E)) in *.
  assert (HE1 : E1 = Z.max (D + E - 24) (-149)) by reflexivity.
  assert (Hce : Z.max (dm + e - 24) (-149) = e) by exact Hc.
  assert (Hn : 16 <= E1 - E <= 24) by (unfold E in *; lia).
  assert (HE1' : E1 <= -16) by (unfold E in *; lia).
  assert (HnD : E1 - E <= D - 1) by (unfold E in *; lia).
  assert (HDn : D <= E1 - E + 24) by (unfold E in *; lia).
  assert (Hpow : 2 ^ (E1 - E) <= Zpos M).
  { apply Z.le_trans with (2 ^ (D - 1)); [apply Z.pow_le_mono_r; lia | exact HMlo]. }
  destruct (HN ltac:(lia) ltac:(unfold emax, prec; lia) Hpow)
    as (Mf & Ef & M2 & -> & _ & HEf & HMf & Hcarry & HM1 & HR).
  clear HN.
  (* the powers of two in play *)
  set (Pn := 2 ^ (E1 - E)) in *. set (P := 2 ^ (- E1)). set (Q := 2 ^ (- e)).
  assert (HPn : 0 < Pn) by (apply Z.pow_pos_nonneg; lia).
  assert (HP : 0 < P) by (apply Z.pow_pos_nonneg; lia).
  assert (HQ : 2 ^ 24 <= Q) by (apply Z.pow_le_mono_r; lia).
  assert (HPQ : Pn * P = 65536 * Q).
  { unfold Pn, P, Q. rewrite <- Z.pow_add_r by lia.
    replace (E1 - E + - E1) with (16 + - e) by (unfold E; lia).
    now rewrite Z.pow_add_r by lia. }
  assert (HPf : Zpos Mf * 2 ^ (Ef - E1) * 2 ^ (- Ef) = Zpos Mf * P).
  { rewrite <- Z.mul_assoc, <- Z.pow_add_r by lia. unfold P. do 2 f_equal. lia. }
  (* the mantissa stays below 255 units *)
  assert (HMQ : Zpos M < 255 * (Pn * P)).
  { rewrite HPQ, HM. assert (Zpos m < Q); [| lia].
    apply Z.lt_le_trans with (2 ^ dm); [exact Hmhi |].
    apply Z.pow_le_mono_r; lia. }
  assert (HM2P : M2 <= 255 * P).
  { assert (Zpos M / Pn < 255 * P); [| lia].
    apply Z.div_lt_upper_bound; [lia |]. lia. }
  assert (HM24 : M2 <= 2 ^ 24).
  { assert (Zpos M / Pn < 2 ^ 24); [| lia].
    apply Z.div_lt_upper_bound; [lia |].
    apply Z.lt_le_trans with (2 ^ D); [exact HMhi |].
    unfold Pn. rewrite <- Z.pow_add_r by lia. apply Z.pow_le_mono_r; lia. }
  assert (HEf16 : Ef <= -16).
  { destruct (Z.le_gt_cases Ef (-16)) as [|Hgt]; auto.
    assert (Ef = E1 + 1) by lia. assert (E1 = -16) by lia.
    specialize (Hcarry H). subst M2. rewrite Hcarry in HM2P.
    unfold P in HM2P. replace (- E1) with 16 in HM2P by lia.
    change (2 ^ prec) with 16777216 in HM2P. change (2 ^ 16) with 65536 in HM2P. lia. }
  set (Pf := 2 ^ (- Ef)).
  assert (HPf0 : 0 < Pf) by (apply Z.pow_pos_nonneg; lia).
  assert (HPfP : P = 2 ^ (Ef - E1) * Pf).
  { unfold P, Pf. rewrite <- Z.pow_add_r by lia. f_equal. lia. }
  assert (Hsh : 0 < 2 ^ (Ef - E1)) by (apply Z.pow_pos_nonneg; lia).
  assert (HMf255 : Zpos Mf <= 255 * Pf).
  { rewrite HPfP in HM2P. subst M2. clear - HM2P Hsh HPf0. nia. }
  (* the clamp leaves the product alone *)
  assert (Hclamp : clamp_float (S754_finite false Mf Ef) zero (S754_finite false 16711680 (-16))
                   = S754_finite false Mf Ef).
  { unfold clamp_float. change (ltb (S754_finite false Mf Ef) zero) with false.
    cbv iota. unfold ltb, SFltb. cbn [SFcompare].
    destruct (Z.compare_spec (-16) Ef) as [Heq | Hlt | Hgt]; try reflexivity; try lia.
    change (Pos.compare_cont Eq 16711680 Mf) with (Pos.compare 16711680 Mf).
    destruct (Pos.compare_spec 16711680 Mf) as [| Hlt |]; try reflexivity.
    exfalso. unfold Pf in HMf255. rewrite <- Heq in HMf255.
    change (2 ^ (- -16)) with 65536 in HMf255. lia. }
  rewrite Hclamp. unfold to_int. cbn [cond_Zopp].
  destruct Ef as [|q|q] eqn:EEf; try lia. cbn [trunc_mag].
  change (2 ^ Zpos q) with Pf.
  set (B := Zpos Mf / Pf).
  pose proof (Z.div_mod (Zpos Mf) Pf ltac:(lia)) as Hdm'. fold B in Hdm'.
  pose proof (Z.mod_pos_bound (Zpos Mf) Pf HPf0) as Hmb.
  assert (HB0 : 0 <= B) by (apply Z.div_pos; lia).
  assert (HB255 : B <= 255) by (clear - Hdm' Hmb HMf255 HPf0; nia).
  assert (HBP : B * P <= M2 < (B + 1) * P).
  { rewrite HPfP. subst M2. clear - Hdm' Hmb Hsh HPf0. nia. }
  exists B. unfold INT_MIN.
  rewrite (proj2 (Z.leb_le (- 2 ^ 31) B)), (proj2 (Z.ltb_lt B (2 ^ 31))) by lia.
  split; [reflexivity |]. split; [lia |].
  assert (H2M : 2 * Zpos M = 255 * Zpos m * 2 ^ 17) by (rewrite HM; lia).
  assert (HPn24 : Pn <= 2 ^ 24) by (apply Z.pow_le_mono_r; lia).
  assert (HBPn : B * (Pn * P) <= M2 * Pn) by (clear - HBP HPn; nia).
  assert (HBPn' : M2 * Pn + Pn <= (B + 1) * (Pn * P)) by (clear - HBP HPn; nia).
  rewrite HPQ in HBPn, HBPn'. fold Q.
  change (2 ^ 24) with 16777216 in *. change (2 ^ 17) with 131072 in *.
  split; [| split].
  - lia.
  - intros HB1.
    pose proof (Z.log2_spec B ltac:(lia)) as [HJ _].
    pose proof (Z.log2_nonneg B) as HJ0.
    set (J := Z.log2 B) in *.
    assert (HJpos : 0 < 2 ^ J) by (apply Z.pow_pos_nonneg; lia).
    assert (HJQ255 : 2 ^ J * Q <= 255 * Q) by (clear - HJ HB255 HQ; nia).
    destruct (Z.eq_dec M2 16777216) as [Hcar | Hnc].
    + (* the rounding carried into the next binade: the product is below B *)
      assert (HMlt : Zpos M < 16777216 * Pn).
      { apply Z.lt_le_trans with (2 ^ D); [exact HMhi |].
        change 16777216 with (2 ^ 24).
        unfold Pn. rewrite <- Z.pow_add_r by lia. apply Z.pow_le_mono_r; lia. }
      assert (HPle : P <= 16777216) by (clear - HBP Hcar HB1 HP; nia).
      assert (HE24 : - E1 <= 24).
      { assert (H25 : 2 ^ (- E1) < 2 ^ 25)
          by (fold P; change (2 ^ 25) with 33554432; lia).
        apply pow2_lt_inv in H25; lia. }
      assert (H24 : 16777216 = 2 ^ (24 + E1) * P).
      { change 16777216 with (2 ^ 24).
        unfold P. rewrite <- Z.pow_add_r by lia. f_equal. lia. }
      assert (Hc0 : 0 < 2 ^ (24 + E1)) by (apply Z.pow_pos_nonneg; lia).
      assert (HBeq : B = 2 ^ (24 + E1)).
      { rewrite Hcar in HBP. clear - HBP H24 HP Hc0 HB0. nia. }
      assert (HMB : Zpos M < B * (65536 * Q)).
      { rewrite <- HPQ. rewrite H24, <- HBeq in HMlt. clear - HMlt. nia. }
      lia.
    + assert (HJE : J - E1 <= 23).
      { assert (H24 : 2 ^ (J - E1) < 2 ^ 24).
        { replace (J - E1) with (J + - E1) by lia. rewrite Z.pow_add_r by lia.
          fold P. change (2 ^ 24) with 16777216.
          clear - HJ HBP Hnc HM24 HP HJpos. nia. }
        apply pow2_lt_inv in H24; lia. }
      assert (HJQ : 2 ^ J * Q <= Pn * 128).
      { unfold Q, Pn. change 128 with (2 ^ 7). rewrite <- !Z.pow_add_r by lia.
        apply Z.pow_le_mono_r; unfold E; lia. }
      lia.
  - intros HB0'. rewrite HB0' in *. lia.
Qed.

(** ** Integers held by binary32 numbers *)


Lemma representable_small (k : Z) : 0 <= k < 2 ^ 24 -> representable k.
Proof. apply to_int_of_int. Qed.











(** ** Zero divisors in the gradient parameter *)

Lemma sub_diag_class (x : float) : sub x x = zero \/ sub x x = nan.
Proof.
  destruct x as [[]|[]| |s m e]; simpl; auto.
  left. unfold sub, SFsub. now rewrite Z.sub_diag.
Qed.

Lemma mul_zero_r_class (x : float) : isZero (mul x zero) = true \/ mul x zero = nan.
Proof. destruct x as [[]|[]| |[] m e]; simpl; auto. Qed.

(** Rounding keeps the sign it is given and never invents a NaN sign. *)
Lemma binary_round_aux_class (s : bool) (m e : Z) (l : location) :
  match binary_round_aux prec emax s m e l with
  | S754_zero s' | S754_infinity s' | S754_finite s' _ _ => s' = s
  | S754_nan => True
  end.
Proof.
  unfold binary_round_aux.
  destruct (shr_fexp prec emax m e l) as [mrs' e'].
  destruct (shr_fexp prec emax _ e' loc_Exact) as [mrs'' e''].
  destruct (shr_m mrs''); [| destruct (e'' <=? emax - prec) |]; auto.
Qed.

Lemma sqrt_class (x : float) :
  match sqrt x with
  | S754_infinity true | S754_finite true _ _ => False
  | _ => True
  end.
Proof.
  destruct x as [[]|[]| |[] m e]; simpl; auto.
  unfold sqrt, SFsqrt.
  destruct (SFsqrt_core_binary prec emax (Zpos m) e) as [[mz ez] lz].
  pose proof (binary_round_aux_class false mz ez lz) as H.
  destruct (binary_round_aux prec emax false mz ez lz) as [ | [] | | [] ? ?];
    auto; discriminate.
Qed.

(** ** The gradient sampler *)

Lemma findSegment_nan (l : list GradientStop) : findSegment nan l = None.
Proof.
  induction l as [|s0 [|s1 rest] IH]; simpl; auto.
  now rewrite leb_nan_r.
Qed.

Lemma getColorAt_nan (g : Gradient) : getColorAt g nan = fallbackColor g.
Proof.
  unfold getColorAt, fallbackColor. destruct (stops g) as [|front rest] eqn:E; auto.
  rewrite <- E. now rewrite leb_nan_l, leb_nan_r, findSegment_nan.
Qed.

Lemma zero_length_linear_raw (g : Gradient) (x y : Z) :
  isRadial g = false -> p1 g = p2 g -> gradientRawT g x y = nan.
Proof.
  intros Hlin Heq. unfold gradientRawT, gradientDivision. rewrite Hlin, <- Heq.
  destruct (sub_diag_class (px (p1 g))) as [-> | ->];
    destruct (sub_diag_class (py (p1 g))) as [-> | ->];
    destruct (sub (of_int x) (px (p1 g))) as [[]|[]| |[] ? ?];
    destruct (sub (of_int y) (py (p1 g))) as [[]|[]| |[] ? ?];
    reflexivity.
Qed.

Lemma zero_radius_raw (g : Gradient) (x y : Z) (s : bool) :
  isRadial g = true -> radius g = S754_zero s ->
  gradientRawT g x y = nan \/ gradientRawT g x y = S754_infinity s.
Proof.
  intros Hrad Hr. unfold gradientRawT, gradientDivision. rewrite Hrad, Hr.
  set (d2 := add _ _). pose proof (sqrt_class d2) as H.
  destruct (sqrt d2) as [[]|[]| |[] ? ?], s; simpl; auto; contradiction.
Qed.

(** C4 (as amended): the divisions of the pixel loop are executed
    whatever the divisor is.  With a linear gradient whose endpoints
    coincide the parameter [t] is NaN at every pixel, the clamp leaves it
    NaN and [getColorAt] answers with its fall-back colour (the last stop,
    or opaque black without stops).  With a radial gradient of radius
    [+0] or [-0] the quotient is NaN or an infinity of the sign of the
    radius, and the clamped parameter is NaN, [1] or [0]. *)
Theorem gradient_division_unguarded (g : Gradient) (x y : Z) :
  (isRadial g = false -> p1 g = p2 g ->
     gradientRawT g x y = nan /\ gradientT g x y = nan /\
     getColorAt g (gradientT g x y) = fallbackColor g) /\
  (forall s, isRadial g = true -> radius g = S754_zero s ->
     (gradientRawT g x y = nan /\ gradientT g x y = nan) \/
     (gradientRawT g x y = S754_infinity s /\
      gradientT g x y = if s then zero else one)).
Proof.
  split.
  - intros Hlin Heq. pose proof (zero_length_linear_raw g x y Hlin Heq) as H.
    unfold gradientT. rewrite H, clamp_float_nan. repeat split.
    apply getColorAt_nan.
  - intros s Hrad Hr. unfold gradientT.
    destruct (zero_radius_raw g x y s Hrad Hr) as [-> | ->]; [left | right];
      split; auto. now destruct s.
Qed.

Lemma gradient_division_unguarded_witness :
  (gradientRawT pointGradient 105 395 = nan /\
   gradientT pointGradient 105 395 = nan /\
   getColorAt pointGradient (gradientT pointGradient 105 395) = blue) /\
  ((gradientRawT dotGradient 400 300 = nan /\ gradientT dotGradient 400 300 = nan) \/
   (gradientRawT dotGradient 400 300 = S754_infinity false /\
    gradientT dotGradient 400 300 = one)).
Proof.
  split.
  - apply (proj1 (gradient_division_unguarded pointGradient 105 395));
      reflexivity.
  - apply (proj2 (gradient_division_unguarded dotGradient 400 300) false);
      reflexivity.
Defined.

(** C4 (as stated) fails: the linear parameterization of a gradient with
    [p1 == p2] divides by a squared length that is zero. *)
Lemma gradient_division_by_zero :
  ~ (forall g x y, isZero (snd (gradientDivision g x y)) = false).
Proof.
  intros H. specialize (H pointGradient 105 395). vm_compute in H. discriminate.
Qed.

Lemma last_cons_In {A : Type} (a : A) (l : list A) (d : A) :
  In (last (a :: l) d) (a :: l).
Proof.
  revert a. induction l as [|b l IH]; intros a.
  - now left.
  - right. apply IH.
Qed.

(** C3 (as amended): without stops every sample is opaque black; a [t]
    at or below every stop position yields the first stop's colour; a [t]
    at or above every stop position yields the last stop's colour
    provided [t] is above the first stop's position.  (The test against
    the first stop runs first, so when every position equals [t] the
    first colour is returned.)  Sortedness is not needed for either
    half. *)
Theorem getColorAt_saturation (g : Gradient) (t : float) :
  (stops g = [] -> getColorAt g t = mkColorF zero zero zero one) /\
  (forall front rest, stops g = front :: rest ->
     Forall (fun s => leb t (position s) = true) (stops g) ->
     getColorAt g t = color front) /\
  (forall front rest, stops g = front :: rest ->
     Forall (fun s => leb (position s) t = true) (stops g) ->
     ltb (position front) t = true ->
     getColorAt g t = color (last (stops g) front)).
Proof.
  unfold getColorAt. repeat split.
  - now intros ->.
  - intros front rest E Hall. rewrite E in *.
    apply Forall_inv in Hall. now rewrite Hall.
  - intros front rest E Hall Hlt. rewrite E in *.
    rewrite (ltb_not_leb _ _ Hlt).
    rewrite Forall_forall in Hall.
    now rewrite (Hall _ (last_cons_In front rest front)).
Qed.

Lemma getColorAt_saturation_witness :
  getColorAt (emptyLinear origin origin) half = mkColorF zero zero zero one /\
  getColorAt pointGradient zero = red /\
  getColorAt pointGradient two = blue.
Proof.
  split; [| split].
  - apply (proj1 (getColorAt_saturation (emptyLinear origin origin) half)).
    reflexivity.
  - apply (proj1 (proj2 (getColorAt_saturation pointGradient zero))
             (mkStop zero red) [mkStop one blue]); [reflexivity |].
    repeat constructor.
  - apply (proj2 (proj2 (getColorAt_saturation pointGradient two))
             (mkStop zero red) [mkStop one blue]); [reflexivity | | reflexivity].
    repeat constructor.
Defined.

(** C3 (as stated) fails: two stops entered at the same position form a
    sorted list, [t] equal to that position is at or above the largest
    position, and the sample is the first stop's colour, not the last
    one's. *)
Lemma getColorAt_tie_returns_first :
  sortedStops (stops tiedGradient) = true /\
  Forall (fun s => leb (position s) half = true) (stops tiedGradient) /\
  getColorAt tiedGradient half = red /\
  color (last (stops tiedGradient) (mkStop zero ColorF_default)) = blue /\
  getColorAt tiedGradient half <>
    color (last (stops tiedGradient) (mkStop zero ColorF_default)).
Proof.
  split; [reflexivity |]. split; [repeat constructor |].
  split; [reflexivity |]. split; [reflexivity |].
  vm_compute. discriminate.
Qed.

(** ** Distances between binary32 numbers *)

Lemma leb_finite_pos (m m' : positive) (e e' : Z) :
  leb (S754_finite false m e) (S754_finite false m' e') = true ->
  e < e' \/ (e = e' /\ Zpos m <= Zpos m').
Proof.
  unfold leb, SFleb. cbn [SFcompare]. intros H.
  destruct (Z.compare_spec e e') as [-> | Hlt | Hgt];
    [right; split; [reflexivity |] | left; exact Hlt | discriminate H].
  rewrite Pos.compare_cont_spec in H. unfold Pos.switch_Eq in H.
  destruct (m ?= m')%positive eqn:Ecmp.
  - apply Pos.compare_eq in Ecmp. subst. lia.
  - apply (Pos2Z.pos_lt_pos m m') in Ecmp. lia.
  - discriminate H.
Qed.

(** A channel at most [1] is exactly [1] or has an exponent of at most
    [-24]. *)
Lemma unit_finite (m : positive) (e : Z) :
  valid (S754_finite false m e) = true -> leb (S754_finite false m e) one = true ->
  S754_finite false m e = one \/ e <= -24.
Proof.
  intros Hv Hle. destruct (valid_finite false m e Hv) as [Hc _].
  destruct (leb_finite_pos m 8388608 e (-23) Hle) as [Hlt | [-> Hm]];
    [right; lia | left].
  pose proof (digits2_bounds m) as [Hlo _].
  assert (Hd : Zpos (digits2_pos m) = 24).
  { revert Hc. unfold fexp, SpecFloat.fexp, SpecFloat.emin, emax, prec. lia. }
  rewrite Hd in Hlo. change (2 ^ (24 - 1)) with 8388608 in Hlo.
  assert (Hm' : m = 8388608%positive) by lia.
  now rewrite Hm'.
Qed.

Lemma valid_exponent (s : bool) (m : positive) (e : Z) :
  valid (S754_finite s m e) = true -> emin <= e <= emax - prec.
Proof.
  intros Hv. destruct (valid_finite s m e Hv) as [Hc Hb].
  pose proof (fexp_ge_emin (Zpos (digits2_pos m) + e)). lia.
Qed.

Lemma SF2Q_grid (x : float) :
  valid x = true -> (SF2Q x == Qmake (grid x) (2 ^ 149))%Q.
Proof.
  intros Hv. destruct x as [s0 | s0 | | s m e]; try reflexivity.
  pose proof (valid_exponent s m e Hv) as [He _]. unfold emin, SpecFloat.emin, emax, prec in He.
  assert (HG : Zpos (2 ^ 149) = 2 ^ 149) by apply Pos2Z.inj_pow.
  unfold Qeq, SF2Q, grid.
  destruct e as [|p|p]; cbn [Qnum Qden]; rewrite HG.
  - destruct s; cbn [cond_Zopp]; change (0 + 149) with 149; lia.
  - rewrite (Z.pow_add_r 2 (Zpos p) 149) by lia.
    destruct s; cbn [cond_Zopp]; lia.
  - assert (HP : Zpos (2 ^ p) = 2 ^ Zpos p) by apply Pos2Z.inj_pow.
    rewrite HP.
    assert (HS : 2 ^ 149 = 2 ^ (Zneg p + 149) * 2 ^ Zpos p).
    { rewrite <- Z.pow_add_r by lia. f_equal. lia. }
    rewrite HS at 1.
    destruct s; cbn [cond_Zopp]; lia.
Qed.

(** The mantissa aligned to a smaller exponent keeps the value. *)
Lemma aligned_grid (s : bool) (m : positive) (e ez : Z) :
  - 149 <= ez <= e ->
  cond_Zopp s (Zpos (fst (shl_align m e ez))) * 2 ^ (ez + 149) =
  grid (S754_finite s m e).
Proof.
  intros H. rewrite shl_align_fst by lia. unfold grid.
  replace (e + 149) with ((e - ez) + (ez + 149)) by lia.
  rewrite (Z.pow_add_r 2 (e - ez) (ez + 149)) by lia.
  destruct s; cbn [cond_Zopp]; ring.
Qed.

(** Rounding a mantissa of magnitude below [2^k]: the result is a
    binary32 number at most [2^(k-25)] away. *)
Lemma binary_round_below (k : Z) (s : bool) (p : positive) (E : Z) :
  0 <= k <= 127 -> emin <= E -> Zpos p * 2 ^ (E + 149) < 2 ^ (k + 149) ->
  let r := binary_round prec emax s p E in
  valid r = true /\ isFinite r = true /\
  2 * Z.abs (grid r - cond_Zopp s (Zpos p * 2 ^ (E + 149))) <= 2 ^ (k + 125).
Proof.
  intros Hk HE Hlt r. subst r. unfold emin, SpecFloat.emin, emax, prec in HE.
  pose proof (digits2_bounds p) as [Hlo Hhi].
  set (d := Zpos (digits2_pos p)) in *.
  assert (Hd : d + E <= k).
  { assert (H : 2 ^ (d - 1 + (E + 149)) < 2 ^ (k + 149)).
    { rewrite (Z.pow_add_r 2 (d - 1) (E + 149)) by (unfold d; lia).
      apply Z.le_lt_trans with (Zpos p * 2 ^ (E + 149)); [| exact Hlt].
      apply Z.mul_le_mono_nonneg_r; [apply Z.pow_nonneg; lia | exact Hlo]. }
    apply pow2_lt_inv in H; lia. }
  assert (Hpos : 0 < 2 ^ (k + 125)) by (apply Z.pow_pos_nonneg; lia).
  unfold binary_round. fold d.
  set (fe := SpecFloat.fexp prec emax (d + E)).
  assert (Hfe : fe = Z.max (d + E - 24) (- 149)).
  { unfold fe, SpecFloat.fexp, SpecFloat.emin, emax, prec. lia. }
  destruct (Z.le_gt_cases fe E) as [Hle | Hgt].
  - (* the mantissa fits: the result is exact *)
    pose proof (shl_align_fst p E fe Hle) as Hm.
    pose proof (shl_align_snd p E fe Hle) as Hs.
    pose proof (shl_align_digits p E fe Hle) as Hdi.
    destruct (shl_align p E fe) as [mz ez]. cbn [fst snd] in Hm, Hs, Hdi. subst ez.
    assert (Hc : fexp (Zpos (digits2_pos mz) + fe) = fe).
    { rewrite Hdi. fold d. replace (d + (E - fe) + fe) with (d + E) by lia.
      reflexivity. }
    rewrite (binary_round_aux_canonical s mz fe Hc)
      by (unfold emax, prec; lia).
    split; [| split; [reflexivity |]].
    + unfold valid, valid_binary, bounded, canonical_mantissa.
      fold fexp. rewrite Hc, Z.eqb_refl. apply Z.leb_le. unfold emax, prec. lia.
    + unfold grid. rewrite Hm.
      replace (E + 149) with ((E - fe) + (fe + 149)) by lia.
      rewrite (Z.pow_add_r 2 (E - fe) (fe + 149)) by lia.
      replace (cond_Zopp s (Zpos p * 2 ^ (E - fe) * 2 ^ (fe + 149)) -
               cond_Zopp s (Zpos p * (2 ^ (E - fe) * 2 ^ (fe + 149)))) with 0
        by (destruct s; cbn [cond_Zopp]; ring).
      cbn [Z.abs]. lia.
  - (* low bits are lost: the result is the nearest number *)
    assert (Hal : shl_align p E fe = (p, E)).
    { unfold shl_align. destruct (fe - E) eqn:Ed; try reflexivity. lia. }
    rewrite Hal.
    assert (HP : 2 ^ (fe - E) <= Zpos p).
    { apply Z.le_trans with (2 ^ (d - 1)); [| exact Hlo].
      apply Z.pow_le_mono_r; lia. }
    destruct (binary_round_aux_nearest s p E) as
      (Mf & Ef & M2 & Hr & Hc & HEf & HM2 & _ & _ & Herr).
    + change (E < fe). lia.
    + change (fe < emax - prec). unfold emax, prec. lia.
    + exact HP.
    + change (fexp (Zpos (digits2_pos p) + E)) with fe in HEf, HM2, Herr.
      rewrite Hr. split; [| split; [reflexivity |]].
      * unfold valid, valid_binary, bounded, canonical_mantissa.
        fold fexp. rewrite Hc, Z.eqb_refl. apply Z.leb_le. unfold emax, prec. lia.
      * unfold grid.
        assert (Hg : Zpos Mf * 2 ^ (Ef + 149) = M2 * 2 ^ (fe - E) * 2 ^ (E + 149)).
        { rewrite <- HM2, <- !Z.mul_assoc, <- !Z.pow_add_r by lia.
          f_equal. f_equal. lia. }
        rewrite Hg.
        set (T := 2 ^ (fe - E)) in *. set (U := 2 ^ (E + 149)).
        assert (HU : 0 < U) by (apply Z.pow_pos_nonneg; lia).
        assert (HTU : T * U <= 2 ^ (k + 125)).
        { unfold T, U. rewrite <- Z.pow_add_r by lia.
          apply Z.pow_le_mono_r; lia. }
        replace (cond_Zopp s (M2 * T * U) - cond_Zopp s (Zpos p * U))
          with (cond_Zopp s ((M2 * T - Zpos p) * U))
          by (destruct s; cbn [cond_Zopp]; ring).
        assert (Habs : Z.abs (cond_Zopp s ((M2 * T - Zpos p) * U)) =
                       Z.abs (M2 * T - Zpos p) * U).
        { destruct s; cbn [cond_Zopp]; rewrite ?Z.abs_opp, Z.abs_mul;
            rewrite (Z.abs_eq U) by lia; reflexivity. }
        rewrite Habs.
        assert (H2 : 2 * Z.abs (M2 * T - Zpos p) <= T) by lia.
        apply Z.le_trans with (T * U); [| exact HTU].
        rewrite Z.mul_assoc. apply Z.mul_le_mono_nonneg_r; lia.
Qed.

(** Rounding a mantissa of magnitude below [2]: the result is a
    binary32 number at most [2^-24] away. *)
Lemma binary_round_near (s : bool) (p : positive) (E : Z) :
  emin <= E -> Zpos p * 2 ^ (E + 149) < 2 ^ 150 ->
  let r := binary_round prec emax s p E in
  valid r = true /\ isFinite r = true /\
  2 * Z.abs (grid r - cond_Zopp s (Zpos p * 2 ^ (E + 149))) <= 2 ^ 126.
Proof. intros HE Hlt. exact (binary_round_below 1 s p E ltac:(lia) HE Hlt). Qed.

Lemma binary_normalize_below (k M E : Z) :
  0 <= k <= 127 -> emin <= E -> Z.abs M * 2 ^ (E + 149) < 2 ^ (k + 149) ->
  let r := binary_normalize prec emax M E false in
  valid r = true /\ isFinite r = true /\
  2 * Z.abs (grid r - M * 2 ^ (E + 149)) <= 2 ^ (k + 125).
Proof.
  intros Hk HE Hlt. destruct M as [|p|p]; cbn [binary_normalize Z.abs] in *.
  - split; [reflexivity | split; [reflexivity |]]. cbn [grid Z.abs Z.mul Z.sub].
    apply Z.lt_le_incl. apply Z.pow_pos_nonneg; lia.
  - exact (binary_round_below k false p E Hk HE Hlt).
  - destruct (binary_round_below k true p E Hk HE Hlt) as (Hv & Hf & Herr).
    split; [exact Hv | split; [exact Hf |]].
    cbn [cond_Zopp] in Herr.
    replace (Z.neg p * 2 ^ (E + 149)) with (- (Zpos p * 2 ^ (E + 149))) by lia.
    exact Herr.
Qed.

Lemma binary_normalize_near (M E : Z) :
  emin <= E -> Z.abs M * 2 ^ (E + 149) < 2 ^ 150 ->
  let r := binary_normalize prec emax M E false in
  valid r = true /\ isFinite r = true /\
  2 * Z.abs (grid r - M * 2 ^ (E + 149)) <= 2 ^ 126.
Proof. intros HE Hlt. exact (binary_normalize_below 1 M E ltac:(lia) HE Hlt). Qed.

(** Finite binary32 numbers whose exact sum or difference is below
    [2^k] in magnitude: the computed one is finite and at most
    [2^(k-25)] away. *)
Lemma add_below (k : Z) (x y : float) :
  0 <= k <= 127 ->
  valid x = true -> valid y = true -> isFinite x = true -> isFinite y = true ->
  Z.abs (grid x + grid y) < 2 ^ (k + 149) ->
  valid (add x y) = true /\ isFinite (add x y) = true /\
  2 * Z.abs (grid (add x y) - (grid x + grid y)) <= 2 ^ (k + 125).
Proof.
  intros Hk Hvx Hvy Hfx Hfy Hlt.
  assert (Hpos : 0 < 2 ^ (k + 125)) by (apply Z.pow_pos_nonneg; lia).
  destruct x as [sx | sx | | sx mx ex]; try discriminate Hfx;
    destruct y as [sy | sy | | sy my ey]; try discriminate Hfy.
  - destruct sx, sy; cbn [add SFadd grid]; repeat split; cbn [Z.add Z.sub Z.abs]; lia.
  - cbn [add SFadd]. repeat split; try assumption.
    cbn [grid]. rewrite Z.add_0_l, Z.sub_diag. cbn [Z.abs]. lia.
  - cbn [add SFadd]. repeat split; try assumption.
    cbn [grid]. rewrite Z.add_0_r, Z.sub_diag. cbn [Z.abs]. lia.
  - pose proof (valid_exponent sx mx ex Hvx) as [Hex _].
    pose proof (valid_exponent sy my ey Hvy) as [Hey _].
    unfold emin, SpecFloat.emin, emax, prec in Hex, Hey.
    unfold add, SFadd. set (ez := Z.min ex ey).
    rewrite <- (aligned_grid sx mx ex ez), <- (aligned_grid sy my ey ez) in Hlt |- *
      by (unfold ez; lia).
    rewrite <- Z.mul_add_distr_r in Hlt |- *.
    apply binary_normalize_below;
      [exact Hk | unfold emin, SpecFloat.emin, emax, prec, ez; lia |].
    rewrite <- (Z.abs_eq (2 ^ (ez + 149))), <- Z.abs_mul; [exact Hlt |].
    apply Z.pow_nonneg. lia.
Qed.

(** Finite binary32 numbers whose exact sum or difference is below [2]
    in magnitude: the computed one is at most [2^-24] away. *)
Lemma add_near (x y : float) :
  valid x = true -> valid y = true -> isFinite x = true -> isFinite y = true ->
  Z.abs (grid x + grid y) < 2 ^ 150 ->
  valid (add x y) = true /\ isFinite (add x y) = true /\
  2 * Z.abs (grid (add x y) - (grid x + grid y)) <= 2 ^ 126.
Proof. exact (add_below 1 x y ltac:(lia)). Qed.

Lemma sub_below (k : Z) (x y : float) :
  0 <= k <= 127 ->
  valid x = true -> valid y = true -> isFinite x = true -> isFinite y = true ->
  Z.abs (grid x - grid y) < 2 ^ (k + 149) ->
  valid (sub x y) = true /\ isFinite (sub x y) = true /\
  2 * Z.abs (grid (sub x y) - (grid x - grid y)) <= 2 ^ (k + 125).
Proof.
  intros Hk Hvx Hvy Hfx Hfy Hlt.
  assert (Hpos : 0 < 2 ^ (k + 125)) by (apply Z.pow_pos_nonneg; lia).
  destruct x as [sx | sx | | sx mx ex]; try discriminate Hfx;
    destruct y as [sy | sy | | sy my ey]; try discriminate Hfy.
  - destruct sx, sy; cbn [sub SFsub grid]; repeat split; cbn [Z.add Z.sub Z.abs]; lia.
  - cbn [sub SFsub]. split; [exact Hvy | split; [reflexivity |]].
    cbn [grid].
    replace (cond_Zopp (negb sy) (Zpos my * 2 ^ (ey + 149)) -
             (0 - cond_Zopp sy (Zpos my * 2 ^ (ey + 149)))) with 0
      by (destruct sy; cbn [negb cond_Zopp]; lia).
    cbn [Z.abs]. lia.
  - cbn [sub SFsub]. repeat split; try assumption.
    cbn [grid]. rewrite Z.sub_0_r, Z.sub_diag. cbn [Z.abs]. lia.
  - pose proof (valid_exponent sx mx ex Hvx) as [Hex _].
    pose proof (valid_exponent sy my ey Hvy) as [Hey _].
    unfold emin, SpecFloat.emin, emax, prec in Hex, Hey.
    unfold sub, SFsub. set (ez := Z.min ex ey).
    rewrite <- (aligned_grid sx mx ex ez), <- (aligned_grid sy my ey ez) in Hlt |- *
      by (unfold ez; lia).
    rewrite <- Z.mul_sub_distr_r in Hlt |- *.
    apply binary_normalize_below;
      [exact Hk | unfold emin, SpecFloat.emin, emax, prec, ez; lia |].
    rewrite <- (Z.abs_eq (2 ^ (ez + 149))), <- Z.abs_mul; [exact Hlt |].
    apply Z.pow_nonneg. lia.
Qed.

Lemma sub_near (x y : float) :
  valid x = true -> valid y = true -> isFinite x = true -> isFinite y = true ->
  Z.abs (grid x - grid y) < 2 ^ 150 ->
  valid (sub x y) = true /\ isFinite (sub x y) = true /\
  2 * Z.abs (grid (sub x y) - (grid x - grid y)) <= 2 ^ 126.
Proof. exact (sub_below 1 x y ltac:(lia)). Qed.

(** A channel in [[0, 1]] is a finite number between [0] and [2^149]
    units. *)
Lemma unit_grid (x : float) :
  unitChannel x -> isFinite x = true /\ 0 <= grid x <= 2 ^ 149.
Proof.
  intros (Hv & H0 & H1).
  assert (HG : 0 < 2 ^ 149) by (apply Z.pow_pos_nonneg; lia).
  destruct x as [s0 | s0 | | s m e].
  - split; [reflexivity |]. cbn [grid]. lia.
  - destruct s0; [discriminate H0 | discriminate H1].
  - discriminate H0.
  - destruct s; [discriminate H0 |]. split; [reflexivity |].
    cbn [grid cond_Zopp].
    pose proof (valid_exponent false m e Hv) as [He _].
    unfold emin, SpecFloat.emin, emax, prec in He.
    split; [apply Z.mul_nonneg_nonneg; [lia | apply Z.pow_nonneg; lia] |].
    destruct (unit_finite m e Hv H1) as [E1 | He'].
    + injection E1 as -> ->. change (-23 + 149) with 126.
      change (Z.pos 8388608) with (2 ^ 23). rewrite <- Z.pow_add_r by lia.
      apply Z.le_refl.
    + destruct (valid_finite false m e Hv) as [Hc _].
      pose proof (digits2_bounds m) as [_ Hhi].
      assert (Hd : Zpos (digits2_pos m) <= 24).
      { revert Hc. unfold fexp, SpecFloat.fexp, SpecFloat.emin, emax, prec. lia. }
      assert (Hm : Zpos m < 2 ^ 24).
      { apply Z.lt_le_trans with (2 ^ Zpos (digits2_pos m)); [exact Hhi |].
        apply Z.pow_le_mono_r; lia. }
      apply Z.le_trans with (2 ^ 24 * 2 ^ (e + 149)).
      * apply Z.mul_le_mono_nonneg_r; [apply Z.pow_nonneg; lia | lia].
      * rewrite <- Z.pow_add_r by lia. apply Z.pow_le_mono_r; lia.
Qed.

(** The interpolation of two channels of [[0, 1]] at [f = 1] is within
    [2^-23] of the second one. *)
Lemma lerp_at_one (c0 c1 : float) :
  unitChannel c0 -> unitChannel c1 ->
  nearChannel 23 (add c0 (mul (sub c1 c0) one)) c1.
Proof.
  intros U0 U1.
  destruct (unit_grid c0 U0) as (F0 & G0), (unit_grid c1 U1) as (F1 & G1).
  destruct U0 as (V0 & _), U1 as (V1 & _).
  set (K := 2 ^ 125).
  assert (HK : 0 < K) by (apply Z.pow_pos_nonneg; lia).
  assert (E149 : 2 ^ 149 = 16777216 * K) by (unfold K; reflexivity).
  assert (E150 : 2 ^ 150 = 33554432 * K) by (unfold K; reflexivity).
  assert (E126 : 2 ^ 126 = 2 * K) by (unfold K; reflexivity).
  destruct (sub_near c1 c0 V1 V0 F1 F0) as (Vu & Fu & Eu); [lia |].
  rewrite (mul_one_r _ Vu).
  set (u := sub c1 c0) in *.
  destruct (add_near c0 u V0 Vu F0 Fu) as (Vr & Fr & Er); [lia |].
  set (r := add c0 u) in *.
  split; [exact Fr |].
  rewrite (SF2Q_grid r Vr), (SF2Q_grid c1 V1).
  assert (HG : Zpos (2 ^ 149) = 2 ^ 149) by apply Pos2Z.inj_pow.
  apply Qabs_Qle_condition.
  unfold Qle, Qminus, Qplus, Qopp. cbn [Qnum Qden].
  rewrite !Pos2Z.inj_mul, HG, E149.
  change (Zpos (2 ^ 23)) with 8388608.
  split; nia.
Qed.

(** Rounding a mantissa that lies wholly below the last place: the
    result is zero or the smallest number. *)
Lemma binary_round_aux_underflow (s : bool) (M : positive) (E : Z) :
  let E1 := fexp (Zpos (digits2_pos M) + E) in
  E < E1 -> Zpos M < 2 ^ (E1 - E) ->
  exists M2,
    binary_round_aux prec emax s (Zpos M) E loc_Exact =
      (if M2 =? 0 then S754_zero s else S754_finite s 1 emin) /\
    0 <= M2 <= 1 /\ E1 = emin /\
    - 2 ^ (E1 - E) <= 2 * (M2 * 2 ^ (E1 - E) - Zpos M) <= 2 ^ (E1 - E).
Proof.
  intros E1 HE HM.
  pose proof (digits2_bounds M) as [Hlo _].
  set (d := Zpos (digits2_pos M)) in *.
  assert (H1 : E1 = emin).
  { destruct (Z.eq_dec E1 emin) as [|Hne]; [assumption | exfalso].
    assert (HE1 : E1 = d + E - prec).
    { revert Hne. unfold E1, fexp, SpecFloat.fexp, emin. lia. }
    assert (2 ^ (E1 - E) <= 2 ^ (d - 1))
      by (apply Z.pow_le_mono_r; unfold prec in HE1; lia).
    lia. }
  unfold binary_round_aux, shr_fexp. cbn [Zdigits2].
  fold (fexp (Zpos (digits2_pos M) + E)). fold d. fold E1.
  destruct (E1 - E) as [|np|np] eqn:En; try lia.
  cbn [shr shr_record_of_loc]. rewrite iter_pos_nat.
  destruct (Pos.to_nat np) as [|k] eqn:Ek; [lia |].
  assert (Hk : Z.of_nat (S k) = Zpos np) by lia.
  pose proof (round_after_shift (Zpos M) k ltac:(lia)) as HR. cbv zeta in HR.
  rewrite Hk in HR. destruct HR as [[HR1 HR2] HR3].
  rewrite (Z.div_small (Zpos M) (2 ^ Zpos np)) in HR1, HR2 by lia.
  set (M2 := round_nearest_even _ _) in *.
  replace (E + Zpos np) with emin by lia.
  exists M2. split; [| split; [lia | split; [exact H1 | exact HR3]]].
  destruct M2 as [|m2|m2]; try lia.
  - reflexivity.
  - assert (m2 = 1%positive) by lia. subst m2. reflexivity.
Qed.

(** Rounding a mantissa that has to lose low bits, in units of
    [2^-149]: the result is a binary32 number [M2 * 2 ^ E1] at most
    half a unit of the last place [2 ^ E1] away. *)
Lemma binary_round_aux_err (s : bool) (M : positive) (E : Z) :
  let E1 := fexp (Zpos (digits2_pos M) + E) in
  let r := binary_round_aux prec emax s (Zpos M) E loc_Exact in
  E < E1 -> E1 < emax - prec ->
  exists M2,
    valid r = true /\ isFinite r = true /\
    grid r = cond_Zopp s (M2 * 2 ^ (E1 + 149)) /\
    - 2 ^ (E1 - E) <= 2 * (M2 * 2 ^ (E1 - E) - Zpos M) <= 2 ^ (E1 - E).
Proof.
  intros E1 r HE Hmax. subst r.
  pose proof (fexp_ge_emin (Zpos (digits2_pos M) + E)) as Hmin. fold E1 in Hmin.
  unfold emin, SpecFloat.emin, emax, prec in Hmin.
  destruct (Z.le_gt_cases (2 ^ (E1 - E)) (Zpos M)) as [HM | HM].
  - destruct (binary_round_aux_nearest s M E HE Hmax HM) as
      (Mf & Ef & M2 & Hr & Hc & HEf & HM2 & _ & _ & Herr).
    fold E1 in HEf, HM2, Herr. rewrite Hr. exists M2.
    split; [| split; [reflexivity | split; [| exact Herr]]].
    + unfold valid, valid_binary, bounded, canonical_mantissa.
      fold fexp. rewrite Hc, Z.eqb_refl. apply Z.leb_le. lia.
    + unfold grid. f_equal. rewrite <- HM2, <- Z.mul_assoc, <- Z.pow_add_r by lia.
      f_equal. f_equal. lia.
  - destruct (binary_round_aux_underflow s M E HE HM) as (M2 & Hr & HM2 & H1 & Herr).
    fold E1 in H1, Herr. rewrite Hr. exists M2.
    assert (H01 : M2 = 0 \/ M2 = 1) by lia.
    clearbody E1. subst E1.
    destruct H01 as [-> | ->]; cbn [Z.eqb].
    + repeat split; try apply Herr; try (cbn [grid]; now destruct s).
    + repeat split; try apply Herr; try (cbn [grid]; now destruct s).
Qed.

Lemma cond_Zopp_mul (sx sy : bool) (a b : Z) :
  cond_Zopp sx a * cond_Zopp sy b = cond_Zopp (xorb sx sy) (a * b).
Proof. destruct sx, sy; cbn [cond_Zopp xorb]; ring. Qed.

Lemma abs_cond_Zopp (s : bool) (a : Z) : Z.abs (cond_Zopp s a) = Z.abs a.
Proof. destruct s; cbn [cond_Zopp]; [apply Z.abs_opp | reflexivity]. Qed.

(** A canonical mantissa has 24 digits unless its exponent is the
    smallest. *)
Lemma valid_digits (s : bool) (m : positive) (e : Z) :
  valid (S754_finite s m e) = true ->
  Zpos (digits2_pos m) = prec \/ e = emin.
Proof.
  intros Hv. destruct (valid_finite s m e Hv) as [Hc _]. revert Hc.
  unfold fexp, SpecFloat.fexp, emin. lia.
Qed.

(** Finite binary32 numbers whose exact product is below [2^k] in
    magnitude: the computed one is finite and at most [2^(k-25)] away. *)
Lemma mul_below (k : Z) (x y : float) :
  0 <= k <= 127 ->
  valid x = true -> valid y = true -> isFinite x = true -> isFinite y = true ->
  Z.abs (grid x * grid y) < 2 ^ (k + 298) ->
  valid (mul x y) = true /\ isFinite (mul x y) = true /\
  2 * Z.abs (grid (mul x y) * 2 ^ 149 - grid x * grid y) <= 2 ^ (k + 274).
Proof.
  intros Hk Hvx Hvy Hfx Hfy Hlt.
  assert (Hpos : 0 < 2 ^ (k + 274)) by (apply Z.pow_pos_nonneg; lia).
  destruct x as [sx | sx | | sx mx ex]; try discriminate Hfx;
    destruct y as [sy | sy | | sy my ey]; try discriminate Hfy;
    try (cbn [mul SFmul grid]; repeat split;
         rewrite ?Z.mul_0_l, ?Z.mul_0_r; cbn [Z.sub Z.abs Z.mul Z.opp]; lia).
  pose proof (valid_exponent sx mx ex Hvx) as [Hex _].
  pose proof (valid_exponent sy my ey Hvy) as [Hey _].
  unfold emin, SpecFloat.emin, emax, prec in Hex, Hey.
  assert (Hg : grid (S754_finite sx mx ex) * grid (S754_finite sy my ey) =
               cond_Zopp (xorb sx sy) (Zpos (mx * my) * 2 ^ (ex + ey + 298))).
  { cbn [grid]. rewrite cond_Zopp_mul. f_equal.
    replace (ex + ey + 298) with ((ex + 149) + (ey + 149)) by lia.
    rewrite (Z.pow_add_r 2 (ex + 149) (ey + 149)), Pos2Z.inj_mul by lia. ring. }
  rewrite Hg in Hlt |- *. rewrite abs_cond_Zopp in Hlt.
  unfold mul, SFmul.
  set (s := xorb sx sy) in *. set (M := (mx * my)%positive) in *.
  set (E := ex + ey) in *.
  pose proof (digits2_bounds M) as [Hlo Hhi].
  set (d := Zpos (digits2_pos M)) in *.
  assert (HU : 0 < 2 ^ (E + 298)) by (apply Z.pow_pos_nonneg; unfold E; lia).
  rewrite Z.abs_eq in Hlt by lia.
  assert (Hd : d + E <= k).
  { assert (H : 2 ^ (d - 1 + (E + 298)) < 2 ^ (k + 298)).
    { rewrite (Z.pow_add_r 2 (d - 1) (E + 298)) by (unfold d, E; lia).
      apply Z.le_lt_trans with (Zpos M * 2 ^ (E + 298)); [| exact Hlt].
      apply Z.mul_le_mono_nonneg_r; lia. }
    apply pow2_lt_inv in H; lia. }
  set (E1 := fexp (d + E)).
  assert (HE1 : E1 = Z.max (d + E - 24) (- 149)).
  { unfold E1, fexp, SpecFloat.fexp, SpecFloat.emin, emax, prec. lia. }
  assert (Hge : E <= E1).
  { destruct (Z.le_gt_cases E E1) as [|Hgt]; [assumption | exfalso].
    assert (H23 : 2 ^ 23 <= Zpos M).
    { pose proof (digits2_bounds mx) as [Hlx _].
      pose proof (digits2_bounds my) as [Hly _].
      unfold M. rewrite Pos2Z.inj_mul.
      destruct (valid_digits sx mx ex Hvx) as [Dx | Dx];
        [| destruct (valid_digits sy my ey Hvy) as [Dy | Dy]].
      - rewrite Dx in Hlx. change (2 ^ (prec - 1)) with (2 ^ 23) in Hlx.
        assert (0 < 2 ^ 23) by (apply Z.pow_pos_nonneg; lia). nia.
      - rewrite Dy in Hly. change (2 ^ (prec - 1)) with (2 ^ 23) in Hly.
        assert (0 < 2 ^ 23) by (apply Z.pow_pos_nonneg; lia). nia.
      - unfold emin, SpecFloat.emin, emax, prec in Dx, Dy. unfold E in Hgt. lia. }
    assert (H : 2 ^ 23 < 2 ^ d) by lia.
    apply pow2_lt_inv in H; unfold d; lia. }
  destruct (Z.eq_dec E E1) as [Heq | Hne].
  - (* the product is a binary32 number *)
    rewrite (binary_round_aux_canonical s M E)
      by (fold d; fold E1; unfold emax, prec; lia).
    split; [| split; [reflexivity |]].
    + unfold valid, valid_binary, bounded, canonical_mantissa. fold fexp.
      fold d. fold E1. rewrite <- Heq, Z.eqb_refl. apply Z.leb_le.
      unfold emax, prec. lia.
    + cbn [grid].
      replace (cond_Zopp s (Zpos M * 2 ^ (E + 149)) * 2 ^ 149 -
               cond_Zopp s (Zpos M * 2 ^ (E + 298))) with 0.
      * cbn [Z.abs]. lia.
      * replace (E + 298) with ((E + 149) + 149) by lia.
        rewrite (Z.pow_add_r 2 (E + 149) 149) by lia.
        destruct s; cbn [cond_Zopp]; ring.
  - destruct (binary_round_aux_err s M E) as (M2 & Hv & Hf & Hgr & Herr).
    + fold d. fold E1. lia.
    + fold d. fold E1. unfold emax, prec. lia.
    + fold d in Hgr, Herr. fold E1 in Hgr, Herr.
      split; [exact Hv | split; [exact Hf |]].
      rewrite Hgr.
      set (T := 2 ^ (E1 - E)) in *. set (U := 2 ^ (E + 298)) in *.
      assert (HTU : T * U <= 2 ^ (k + 274)).
      { unfold T, U. rewrite <- Z.pow_add_r by lia.
        apply Z.pow_le_mono_r; lia. }
      assert (Hs : 2 ^ (E1 + 149) * 2 ^ 149 = T * U).
      { unfold T, U. rewrite <- !Z.pow_add_r by lia. f_equal. lia. }
      replace (cond_Zopp s (M2 * 2 ^ (E1 + 149)) * 2 ^ 149 -
               cond_Zopp s (Zpos M * U))
        with (cond_Zopp s ((M2 * T - Zpos M) * U)).
      * rewrite abs_cond_Zopp, Z.abs_mul, (Z.abs_eq U) by lia.
        assert (H2 : 2 * Z.abs (M2 * T - Zpos M) <= T) by lia.
        apply Z.le_trans with (T * U); [| exact HTU].
        rewrite Z.mul_assoc. apply Z.mul_le_mono_nonneg_r; lia.
      * rewrite Z.mul_sub_distr_r, <- (Z.mul_assoc M2 T U), <- Hs.
        destruct s; cbn [cond_Zopp]; ring.
Qed.

(** Finite binary32 numbers whose exact product is below [2] in
    magnitude: the computed one is at most [2^-24] away. *)
Lemma mul_near (x y : float) :
  valid x = true -> valid y = true -> isFinite x = true -> isFinite y = true ->
  Z.abs (grid x * grid y) < 2 ^ 299 ->
  valid (mul x y) = true /\ isFinite (mul x y) = true /\
  2 * Z.abs (grid (mul x y) * 2 ^ 149 - grid x * grid y) <= 2 ^ 275.
Proof. exact (mul_below 1 x y ltac:(lia)). Qed.

Lemma grid_one : grid one = 2 ^ 149.
Proof. reflexivity. Qed.

(** The source-over mix of a channel of [[0, 1]] with itself, for an
    alpha of [[0, 1]], is within [2^-22] of the channel. *)
Lemma mix_self_near (d a : float) :
  unitChannel d -> unitChannel a -> nearChannel 22 (spec_mix d d a) d.
Proof.
  intros Ud Ua.
  destruct (unit_grid d Ud) as (Fd & Gd), (unit_grid a Ua) as (Fa & Ga).
  destruct Ud as (Vd & _), Ua as (Va & _).
  set (K := 2 ^ 125).
  assert (HK : 0 < K) by (apply Z.pow_pos_nonneg; lia).
  assert (E149 : 2 ^ 149 = 16777216 * K) by (unfold K; reflexivity).
  assert (E150 : 2 ^ 150 = 33554432 * K) by (unfold K; reflexivity).
  assert (E126 : 2 ^ 126 = 2 * K) by (unfold K; reflexivity).
  assert (E275 : 2 ^ 275 = 33554432 * (K * K)) by (unfold K; reflexivity).
  assert (E299 : 2 ^ 299 = 562949953421312 * (K * K)) by (unfold K; reflexivity).
  unfold spec_mix.
  (* invAlpha *)
  destruct (sub_near one a eq_refl Va eq_refl Fa) as (Vi & Fi & Ei);
    [rewrite grid_one; lia |].
  rewrite grid_one in Ei.
  set (ia := sub one a) in *.
  set (gd := grid d) in *. set (ga := grid a) in *. set (gi := grid ia) in *.
  assert (Bi : Z.abs gi <= 16777217 * K) by lia.
  (* the two products *)
  assert (Bda : 0 <= gd * ga <= 16777216 * K * (16777216 * K)).
  { split; [apply Z.mul_nonneg_nonneg; lia |].
    apply Z.mul_le_mono_nonneg; lia. }
  assert (Bdi : Z.abs (gd * gi) <= 16777216 * K * (16777217 * K)).
  { rewrite Z.abs_mul, (Z.abs_eq gd) by lia.
    apply Z.mul_le_mono_nonneg; lia. }
  destruct (mul_near d a Vd Va Fd Fa) as (V1 & F1 & E1); [fold gd ga; lia |].
  destruct (mul_near d ia Vd Vi Fd Fi) as (V2 & F2 & E2); [fold gd gi; lia |].
  fold gd ga in E1. fold gd gi in E2.
  set (p1 := mul d a) in *. set (p2 := mul d ia) in *.
  set (g1 := grid p1) in *. set (g2 := grid p2) in *.
  (* their exact sum is within 3 * 2^-24 of the channel *)
  assert (Hsum : Z.abs (g1 + g2 - gd) <= 3 * K).
  { assert (He : Z.abs (gd * (ga + gi - 16777216 * K)) <= 16777216 * K * K).
    { rewrite Z.abs_mul, (Z.abs_eq gd) by lia.
      apply Z.mul_le_mono_nonneg; lia. }
    assert (H : Z.abs ((g1 + g2 - gd) * (16777216 * K)) <= 3 * K * (16777216 * K))
      by lia.
    rewrite Z.abs_mul, (Z.abs_eq (16777216 * K)) in H by lia.
    apply Z.mul_le_mono_pos_r in H; lia. }
  destruct (add_near p1 p2 V1 V2 F1 F2) as (Vr & Fr & Er); [fold g1 g2; lia |].
  fold g1 g2 in Er.
  set (r := add p1 p2) in *.
  split; [exact Fr |].
  rewrite (SF2Q_grid r Vr), (SF2Q_grid d Vd). fold gd.
  assert (HG : Zpos (2 ^ 149) = 2 ^ 149) by apply Pos2Z.inj_pow.
  apply Qabs_Qle_condition.
  unfold Qle, Qminus, Qplus, Qopp. cbn [Qnum Qden].
  rewrite !Pos2Z.inj_mul, HG, E149.
  change (Zpos (2 ^ 22)) with 4194304.
  split; nia.
Qed.

Lemma fromRGBA_channel_unit (b : byte) : unitChannel (div (of_byte b) f255).
Proof. destruct b; vm_compute; repeat split. Qed.


(** ** Sampling at a stop *)

(** Every stop before the end of an increasing list lies below the
    stops that follow a later one. *)
Lemma increasing_tail (s : GradientStop) (l : list GradientStop) :
  increasingStops (s :: l) = true -> increasingStops l = true.
Proof.
  destruct l as [|s1 l]; [reflexivity |]. cbn [increasingStops].
  now intros [_ H]%andb_prop.
Qed.

Lemma increasing_head_lt (s : GradientStop) (l : list GradientStop) :
  increasingStops (s :: l) = true ->
  Forall (fun s' => ltb (position s) (position s') = true) l.
Proof.
  revert s. induction l as [|s1 l IH]; intros s H; constructor.
  - cbn [increasingStops] in H. now apply andb_prop in H.
  - cbn [increasingStops] in H. apply andb_prop in H. destruct H as [H01 H].
    specialize (IH s1 H). eapply Forall_impl; [| exact IH].
    intros s' Hs'. cbv beta in Hs'. now apply (ltb_trans _ (position s1)).
Qed.

Lemma increasing_app_lt (pre : list GradientStop) (s : GradientStop)
      (post : list GradientStop) :
  increasingStops (pre ++ s :: post) = true ->
  Forall (fun s' => ltb (position s') (position s) = true) pre.
Proof.
  induction pre as [|a pre IH]; intros H; constructor.
  - pose proof (increasing_head_lt a (pre ++ s :: post) H) as Hall.
    rewrite Forall_forall in Hall. apply Hall. apply in_or_app. right. now left.
  - apply IH. now apply increasing_tail in H.
Qed.

Lemma increasing_app_r (pre l : list GradientStop) :
  increasingStops (pre ++ l) = true -> increasingStops l = true.
Proof.
  induction pre as [|a pre IH]; intros H; auto.
  apply IH. now apply increasing_tail in H.
Qed.

(** The search loop stops at the pair that ends in the sampled stop. *)
Lemma findSegment_at_stop (pre : list GradientStop) (s0 s1 : GradientStop)
      (post : list GradientStop) :
  increasingStops (pre ++ s0 :: s1 :: post) = true ->
  findSegment (position s1) (pre ++ s0 :: s1 :: post) =
  Some (lerpColor (color s0) (color s1)
          (div (sub (position s1) (position s0)) (sub (position s1) (position s0)))).
Proof.
  intros H. induction pre as [|a pre IH].
  - cbn [app findSegment]. cbn [app increasingStops] in H.
    apply andb_prop in H. destruct H as [H01 _].
    now rewrite (ltb_leb _ _ H01), (leb_refl _ (ltb_not_nan_r _ _ H01)).
  - pose proof (increasing_tail _ _ H) as Ht. specialize (IH Ht).
    assert (Hnext : exists b rest, pre ++ s0 :: s1 :: post = b :: rest /\
                                   ltb (position b) (position s1) = true).
    { destruct pre as [|b pre'].
      - exists s0, (s1 :: post). split; [reflexivity |].
        cbn [app increasingStops] in Ht. now apply andb_prop in Ht.
      - exists b, (pre' ++ s0 :: s1 :: post). split; [reflexivity |].
        pose proof (increasing_app_lt (b :: pre' ++ [s0]) s1 post) as Hall.
        rewrite <- !app_comm_cons, <- app_assoc in Hall. cbn [app] in Hall.
        specialize (Hall Ht). now apply Forall_inv in Hall. }
    destruct Hnext as (b & rest & E & Hb).
    change ((a :: pre) ++ s0 :: s1 :: post) with (a :: (pre ++ s0 :: s1 :: post)).
    rewrite E in *. cbn [findSegment].
    now rewrite (ltb_not_leb _ _ Hb), andb_false_r.
Qed.

Lemma last_app_cons {A : Type} (l : list A) (a d : A) : last (l ++ [a]) d = a.
Proof. induction l as [|b [|c l] IH]; auto. Qed.

Lemma div_diag_finite (s : bool) (m : positive) (e : Z) :
  div (S754_finite s m e) (S754_finite s m e) = one.
Proof.
  unfold div, SFdiv, SFdiv_core_binary. cbn [Zdigits2].
  rewrite !Z.sub_diag, xorb_nilpotent.
  change (Z.min (SpecFloat.fexp prec emax 0) 0) with (-24).
  change (0 - -24) with 24.
  cbv beta iota zeta.
  rewrite Z.shiftl_mul_pow2 by lia.
  assert (Hq : Zpos m * 2 ^ 24 / Zpos m = 2 ^ 24)
    by (rewrite Z.mul_comm; apply Z.div_mul; lia).
  assert (Hr : (Zpos m * 2 ^ 24) mod Zpos m = 0)
    by (rewrite Z.mul_comm; apply Z.mod_mul; lia).
  unfold Z.div, Z.modulo in Hq, Hr.
  destruct (Z.div_eucl (Zpos m * 2 ^ 24) (Zpos m)) as [q r].
  subst q r. unfold new_location. now destruct (Z.even (Zpos m)).
Qed.

Lemma lerpColor_at_one (c0 c1 : ColorF) :
  unitColor c0 -> unitColor c1 -> nearColor 23 (lerpColor c0 c1 one) c1.
Proof.
  intros (Hr0 & Hg0 & Hb0 & Ha0) (Hr1 & Hg1 & Hb1 & Ha1).
  unfold nearColor, lerpColor. cbn [cr cg cb ca].
  repeat split; now apply lerp_at_one.
Qed.

(** C7 (as amended): with strictly increasing positions, sampling at
    the first or at the last stop's position returns that stop's colour
    exactly.  Sampling at the position of a stop [s1] strictly between
    returns the interpolation of its predecessor [s0] and [s1] at
    [f = d / d], [d = s1.position - s0.position], all in binary32.
    When [d] is finite, [f] is exactly [1] and each channel is
    [c0 + (c1 - c0) * 1]; for colours with channels in [[0, 1]] that is
    a finite number within [2^-23] of [s1]'s channel. *)
Theorem getColorAt_at_stop (g : Gradient) :
  increasingStops (stops g) = true ->
  (forall s rest, stops g = s :: rest -> getColorAt g (position s) = color s) /\
  (forall pre s, stops g = pre ++ [s] -> getColorAt g (position s) = color s) /\
  (forall pre s0 s1 s2 post, stops g = pre ++ s0 :: s1 :: s2 :: post ->
     let d := sub (position s1) (position s0) in
     getColorAt g (position s1) = lerpColor (color s0) (color s1) (div d d) /\
     (forall sg m e, d = S754_finite sg m e ->
        div d d = one /\
        (unitColor (color s0) -> unitColor (color s1) ->
         nearColor 23 (getColorAt g (position s1)) (color s1)))).
Proof.
  intros Hinc. split; [| split].
  - intros s rest E. unfold getColorAt. rewrite E.
    destruct (leb (position s) (position s)) eqn:Hrefl; [reflexivity |].
    destruct rest as [|s1 rest]; [cbn [last]; now rewrite Hrefl |].
    rewrite E in Hinc. cbn [increasingStops] in Hinc. apply andb_prop in Hinc.
    destruct Hinc as [H01 _].
    now rewrite (leb_refl _ (ltb_not_nan_l _ _ H01)) in Hrefl.
  - intros pre s E. unfold getColorAt. rewrite E.
    destruct pre as [|front pre]; cbn [app].
    + cbn [last findSegment]. destruct (leb (position s) (position s)); reflexivity.
    + change (front :: pre ++ [s]) with ((front :: pre) ++ [s]).
      rewrite last_app_cons.
      rewrite E in Hinc.
      pose proof (increasing_app_lt (front :: pre) s [] Hinc) as Hall.
      apply Forall_inv in Hall.
      now rewrite (ltb_not_leb _ _ Hall), (leb_refl _ (ltb_not_nan_r _ _ Hall)).
  - intros pre s0 s1 s2 post E d.
    assert (Hmid : getColorAt g (position s1) =
                   lerpColor (color s0) (color s1) (div d d)).
    2: { split; [exact Hmid |]. intros sg m e Hd.
         assert (Hone : div d d = one) by (rewrite Hd; apply div_diag_finite).
         split; [exact Hone |]. intros U0 U1. rewrite Hmid, Hone.
         now apply lerpColor_at_one. }
    unfold getColorAt. rewrite E in *.
    rewrite (findSegment_at_stop pre s0 s1 (s2 :: post) Hinc).
    assert (Hfront : forall front tl, pre ++ s0 :: s1 :: s2 :: post = front :: tl ->
              ltb (position front) (position s1) = true).
    { intros front tl El.
      pose proof (increasing_app_lt (pre ++ [s0]) s1 (s2 :: post)) as Hall.
      rewrite <- app_assoc in Hall. specialize (Hall Hinc).
      destruct pre as [|a pre]; cbn [app] in El, Hall; inversion El; subst;
        now apply Forall_inv in Hall. }
    assert (Hback : forall dflt, ltb (position s1)
              (position (last (pre ++ s0 :: s1 :: s2 :: post) dflt)) = true).
    { intros dflt.
      assert (Hinc' : increasingStops (s1 :: s2 :: post) = true).
      { apply (increasing_app_r (pre ++ [s0])). now rewrite <- app_assoc. }
      pose proof (increasing_head_lt s1 (s2 :: post) Hinc') as Hall.
      rewrite Forall_forall in Hall. apply Hall.
      destruct (exists_last (l := s2 :: post) ltac:(discriminate)) as (l' & z & Ez).
      rewrite Ez.
      replace (pre ++ s0 :: s1 :: l' ++ [z])
        with ((pre ++ s0 :: s1 :: l') ++ [z]) by now rewrite <- app_assoc.
      rewrite last_app_cons. apply in_or_app. right. now left. }
    destruct (pre ++ s0 :: s1 :: s2 :: post) as [|front tl] eqn:El;
      [now destruct pre |].
    now rewrite (ltb_not_leb _ _ (Hfront front tl eq_refl)),
      (ltb_not_leb _ _ (Hback front)).
Qed.

Lemma getColorAt_at_stop_witness :
  getColorAt threeStops zero = red /\
  getColorAt threeStops one = red /\
  getColorAt threeStops half = lerpColor red blue (div half half) /\
  div half half = one /\
  nearColor 23 (getColorAt threeStops half) blue.
Proof.
  pose proof (getColorAt_at_stop threeStops eq_refl) as (Hfirst & Hlast & Hmid).
  specialize (Hmid [] (mkStop zero red) (mkStop half blue) (mkStop one red) []
                   eq_refl).
  destruct Hmid as [Hlerp Hfin].
  specialize (Hfin false 8388608%positive (-24) eq_refl).
  split; [| split; [| split; [| split]]].
  - exact (Hfirst (mkStop zero red) [mkStop half blue; mkStop one red] eq_refl).
  - exact (Hlast [mkStop zero red; mkStop half blue] (mkStop one red) eq_refl).
  - exact Hlerp.
  - exact (proj1 Hfin).
  - apply (proj2 Hfin); repeat split.
Defined.

(** C7 (as stated) fails: the stops of [wideGradient] have strictly
    increasing positions, the difference between the second and the
    first overflows, and the sample at the second stop is NaN in every
    channel; no tolerance makes NaN close to the stop's colour. *)
Lemma getColorAt_at_stop_overflow :
  increasingStops (stops wideGradient) = true /\
  In (mkStop (huge false) blue) (stops wideGradient) /\
  getColorAt wideGradient (huge false) = mkColorF nan nan nan nan /\
  ~ (exists tol, closeTo tol (cb (getColorAt wideGradient (huge false))) (cb blue) = true).
Proof.
  split; [reflexivity |]. split; [right; left; reflexivity |].
  split; [reflexivity |]. intros [tol H]. discriminate H.
Qed.

(** ** The blender *)

(** The program's [clamp_float] is the clamp of the specification
    whenever the bounds are not reversed, NaN included (both return
    NaN). *)
Lemma clamp_float_spec_clamp (v lo hi : float) :
  ltb hi lo = false -> clamp_float v lo hi = spec_clamp v lo hi.
Proof.
  intros Hb. unfold clamp_float, spec_clamp, spec_max, spec_min.
  destruct (ltb v lo); [now rewrite Hb | reflexivity].
Qed.

(** C2: for each of the five modes, [blend] is the source-over mix of the
    per-mode intermediate with the destination, with alpha [1.0]; the
    intermediate of Add is the sum clamped into [[0, 1]]. *)
Theorem blend_refines_spec (m : BlendMode) (src dest : ColorF) :
  blend src dest (mode_code m) = spec_blend m src dest.
Proof.
  destruct m; try reflexivity.
  unfold spec_blend, spec_intermediate.
  rewrite <- !(clamp_float_spec_clamp _ zero one) by reflexivity.
  reflexivity.
Qed.

(** In Add mode a sum above [1] is cut to [1], one below [0] to [0]. *)
Example add_mode_saturates :
  spec_intermediate Add one one = one /\
  cr (blend (mkColorF one one one one) (mkColorF one one one one) BLEND_ADD) = one /\
  spec_clamp (S754_finite true 8388608 (-23)) zero one = zero.
Proof. repeat split. Qed.

Lemma blend_rgb_unknown (mode : Z) (src dest : ColorF) :
  known_mode mode = false -> blend_rgb src dest mode = (cr dest, cg dest, cb dest).
Proof.
  unfold known_mode, blend_rgb. simpl. intros H.
  repeat (apply orb_false_elim in H; destruct H as [-> H]). reflexivity.
Qed.

(** A channel read from a pixel passes the source-over mix unchanged when
    the source alpha is exactly [0] or exactly [1]. *)
Lemma mix_self_exact (b : byte) :
  let d := div (of_byte b) f255 in
  spec_mix d d zero = d /\ spec_mix d d one = d.
Proof. destruct b; vm_compute; split; reflexivity. Qed.

(** C9 (as amended): a mode outside the five enumerators does not fall
    through to Normal; the intermediate stays the destination and every
    output channel is [dest_c * src.a + dest_c * (1 - src.a)] in
    binary32, whatever the source channels are, with alpha [1.0].  For a
    destination read from a pixel this is the destination channel itself
    when [src.a] is exactly [0] or [1]; for a destination and a source
    alpha in [[0, 1]] it is a finite number within [2^-22] of the
    destination channel. *)
Theorem blend_unknown_mode (mode : Z) (src dest : ColorF) :
  known_mode mode = false ->
  blend src dest mode =
    mkColorF (spec_mix (cr dest) (cr dest) (ca src))
             (spec_mix (cg dest) (cg dest) (ca src))
             (spec_mix (cb dest) (cb dest) (ca src)) one /\
  (forall bg, dest = fromRGBA bg -> ca src = zero \/ ca src = one ->
     blend src dest mode = mkColorF (cr dest) (cg dest) (cb dest) one) /\
  (unitColor dest -> unitChannel (ca src) ->
     nearChannel 22 (cr (blend src dest mode)) (cr dest) /\
     nearChannel 22 (cg (blend src dest mode)) (cg dest) /\
     nearChannel 22 (cb (blend src dest mode)) (cb dest)).
Proof.
  intros H.
  assert (E : blend src dest mode =
              mkColorF (spec_mix (cr dest) (cr dest) (ca src))
                       (spec_mix (cg dest) (cg dest) (ca src))
                       (spec_mix (cb dest) (cb dest) (ca src)) one).
  { unfold blend. now rewrite (blend_rgb_unknown mode src dest H). }
  split; [exact E | split].
  - intros [r0 g0 b0 a0] -> Ha. rewrite E. simpl.
    destruct (mix_self_exact r0) as [Hr0 Hr1], (mix_self_exact g0) as [Hg0 Hg1],
             (mix_self_exact b0) as [Hb0 Hb1].
    destruct Ha as [-> | ->]; f_equal; assumption.
  - intros (Ur & Ug & Ub & _) Ua. rewrite E. cbn [cr cg cb].
    repeat split; now apply mix_self_near.
Qed.

Lemma blend_unknown_mode_witness :
  blend orange08 (fromRGBA grey59) 7 =
    (let d := div (of_byte x3b) f255 in
     mkColorF (spec_mix d d f08) (spec_mix d d f08) (spec_mix d d f08) one) /\
  blend red (fromRGBA grey59) 7 =
    (let d := div (of_byte x3b) f255 in mkColorF d d d one) /\
  nearChannel 22 (cr (blend orange08 (fromRGBA grey59) 7)) (cr (fromRGBA grey59)).
Proof.
  split; [| split].
  - apply (proj1 (blend_unknown_mode 7 orange08 (fromRGBA grey59) eq_refl)).
  - apply (proj1 (proj2 (blend_unknown_mode 7 red (fromRGBA grey59) eq_refl))
             grey59); [reflexivity | now right].
  - apply (proj2 (proj2 (blend_unknown_mode 7 orange08 (fromRGBA grey59) eq_refl)));
      repeat split.
Defined.

(** C9 (as stated) fails: with the source alpha [0.8f] and the
    destination read from a pixel of value 59, the red channel that comes
    out is not the destination's, and the pixel written back is 58. *)
Lemma blend_unknown_mode_rounds :
  cr (blend orange08 (fromRGBA grey59) 7) <> cr (fromRGBA grey59) /\
  toRGBA (blend orange08 (fromRGBA grey59) 7) = mkRGBA x3a x3a x3a xff.
Proof. split; [vm_compute; discriminate | reflexivity]. Qed.

(** ** The rasterizer: degenerate polygons *)

(** C5: with fewer than three vertices [drawPolygon] returns the image
    it was given. *)
Theorem drawPolygon_few_vertices (image : ColorImage) (vertices : list Point)
        (color : ColorF) (grad : option Gradient) (blendMode : Z) :
  (length vertices < 3)%nat ->
  drawPolygon image vertices color grad blendMode = image.
Proof.
  intros H. unfold drawPolygon.
  now rewrite (proj2 (Nat.ltb_lt _ _) H).
Qed.

Lemma drawPolygon_few_vertices_witness :
  drawPolygon canvas [mkPoint (of_int 50) (of_int 50); mkPoint (of_int 250) (of_int 200)]
              red (Some pointGradient) BLEND_OVERLAY = canvas.
Proof. apply drawPolygon_few_vertices. simpl. lia. Defined.

Lemma fold_addEdge_flat (height : Z) (vertices : list Point) (st : EdgeTable)
      (l : list nat) :
  flatInIntegerY vertices ->
  (forall i, In i l -> (i < length vertices)%nat) ->
  fold_left
    (fun st i => addEdge height (nth i vertices origin)
                         (nth ((i + 1) mod length vertices)%nat vertices origin) st)
    l st = st.
Proof.
  intros Hflat. revert st. induction l as [|i l IH]; intros st Hl; simpl; auto.
  unfold addEdge at 2. rewrite (Hflat i) by (apply Hl; now left).
  rewrite Z.eqb_refl. apply IH. intros j Hj. apply Hl. now right.
Qed.

Lemma buildEdges_flat (height : Z) (vertices : list Point) :
  flatInIntegerY vertices -> buildEdges height vertices = mkTable [] height 0.
Proof.
  intros Hflat. unfold buildEdges. apply fold_addEdge_flat; auto.
  intros i Hi. now apply in_seq in Hi.
Qed.

(** C10: when every edge of the polygon joins two vertices of equal
    truncated [y], no edge is recorded, the clamped scanline range is
    empty and [drawPolygon] returns the image it was given. *)
Theorem drawPolygon_flat (image : ColorImage) (vertices : list Point)
        (color : ColorF) (grad : option Gradient) (blendMode : Z) :
  (3 <= length vertices)%nat -> flatInIntegerY vertices ->
  edges (buildEdges (GetHeight image) vertices) = [] /\
  snd (clampRange (GetHeight image) (buildEdges (GetHeight image) vertices))
    <= fst (clampRange (GetHeight image) (buildEdges (GetHeight image) vertices)) /\
  drawPolygon image vertices color grad blendMode = image.
Proof.
  intros _ Hflat. unfold drawPolygon.
  rewrite (buildEdges_flat _ _ Hflat). unfold clampRange, forRange. simpl.
  destruct (length vertices <? 3)%nat;
    destruct (Z.ltb_spec (GetHeight image) 0); repeat split; try lia;
    try reflexivity;
    match goal with
    | |- forLoop (Z.to_nat ?d) _ _ _ = _ =>
        replace (Z.to_nat d) with O by lia; reflexivity
    end.
Qed.

Lemma drawPolygon_flat_witness :
  edges (buildEdges 600 flatTriangle) = [] /\
  snd (clampRange 600 (buildEdges 600 flatTriangle))
    <= fst (clampRange 600 (buildEdges 600 flatTriangle)) /\
  drawPolygon canvas flatTriangle red None BLEND_NORMAL = canvas.
Proof.
  apply (drawPolygon_flat canvas flatTriangle red None BLEND_NORMAL).
  - simpl. lia.
  - intros i Hi.
    destruct i as [|[|[|i]]]; [reflexivity | reflexivity | reflexivity |].
    simpl in Hi. lia.
Defined.

(** ** The rasterizer: opaque fills in Normal mode *)

Lemma eqb_one (x : float) : eqb x one = true -> x = one.
Proof.
  destruct x as [[]|[]| |[] m e]; try discriminate.
  cbv beta iota delta [eqb SFeqb SFcompare one].
  destruct (e ?= -23) eqn:Ee; try discriminate.
  destruct (Pos.compare_cont Eq m 8388608) eqn:Em; try discriminate.
  intros _. apply Z.compare_eq in Ee. apply Pos.compare_eq in Em.
  now subst.
Qed.

(** The destination term [dest_c * (1 - 1)] of the mix is [+0] for every
    channel read from a pixel. *)
Lemma pixel_channel_times_zero (b : byte) :
  mul (div (of_byte b) f255) (sub one one) = zero.
Proof. destruct b; reflexivity. Qed.

Lemma blend_opaque_normal (src : ColorF) (bg : RGBA) :
  ca src = one -> blend src (fromRGBA bg) BLEND_NORMAL = opaqueNormal src.
Proof.
  intros Ha. unfold blend, opaqueNormal. simpl. rewrite Ha.
  now rewrite !pixel_channel_times_zero.
Qed.

Lemma paints_id (K : RGBA) : paints K (fun _ _ => false) (fun image => image).
Proof. intros image. auto. Qed.

Lemma paints_compose (K : RGBA) (cp cq : Z -> Z -> bool)
      (P Q : ColorImage -> ColorImage) :
  paints K cp P -> paints K cq Q ->
  paints K (fun a b => cp a b || cq a b) (fun image => Q (P image)).
Proof.
  intros HP HQ image.
  destruct (HP image) as (Hw & Hh & Hg), (HQ (P image)) as (Hw' & Hh' & Hg').
  repeat split; try congruence.
  intros a b. rewrite Hg', Hg. now destruct (cq a b), (cp a b).
Qed.





Lemma paints_shadePixel (color : ColorF) (y x : Z) :
  ca color = one ->
  paints (toRGBA (opaqueNormal color)) (fun a b => (b =? y) && (a =? x))
         (shadePixel color None BLEND_NORMAL y x).
Proof.
  intros Ha image. unfold shadePixel.
  rewrite (blend_opaque_normal color _ Ha). cbn [setPixel GetWidth GetHeight Get].
  repeat split. intros a b. now rewrite andb_comm.
Qed.



Lemma stamps_id (K : RGBA) : stamps K (fun image => image).
Proof. eexists. apply paints_id. Qed.

Lemma stamps_compose (K : RGBA) (P Q : ColorImage -> ColorImage) :
  stamps K P -> stamps K Q -> stamps K (fun image => Q (P image)).
Proof. intros [cp HP] [cq HQ]. eexists. apply (paints_compose K cp cq P Q HP HQ). Qed.

Lemma stamps_forLoop (K : RGBA) (body : Z -> ColorImage -> ColorImage)
      (n : nat) (i : Z) :
  (forall j, stamps K (body j)) -> stamps K (forLoop n i body).
Proof.
  intros Hbody. revert i. induction n as [|n IH]; intros i; simpl.
  - apply stamps_id.
  - apply (stamps_compose K (body i) (forLoop n (i + 1) body)); auto.
Qed.

Lemma stamps_fillSpans (K : RGBA) (width : Z)
      (paint : Z -> ColorImage -> ColorImage) (nodes : list float) :
  (forall x, stamps K (paint x)) ->
  stamps K (fillSpans width paint nodes) /\
  forall n0, stamps K (fillSpans width paint (n0 :: nodes)).
Proof.
  intros Hpaint. induction nodes as [|n1 rest [IH1 IH2]].
  - split; [| intros n0]; apply stamps_id.
  - split; [apply IH2 |]. intros n0. cbn [fillSpans].
    destruct (width <=? to_int n0); [exact IH1 |].
    destruct (to_int n1 <=? 0); [exact IH1 |].
    apply (stamps_compose K (forRange _ _ paint) (fillSpans width paint rest));
      [apply stamps_forLoop |]; auto.
Qed.

Lemma stamps_idempotent (K : RGBA) (P : ColorImage -> ColorImage) (image : ColorImage) :
  stamps K P -> sameImage (P (P image)) (P image).
Proof.
  intros [cover H].
  destruct (H image) as (Hw & Hh & Hg), (H (P image)) as (Hw' & Hh' & Hg').
  repeat split; auto. intros x y. rewrite Hg', Hg. now destruct (cover x y).
Qed.

(** The scanline loop of an opaque Normal fill, for fixed dimensions. *)
Lemma stamps_scanlines (width : Z) (es : list Edge) (color : ColorF) (lo hi : Z) :
  ca color = one ->
  stamps (toRGBA (opaqueNormal color))
         (forRange lo hi (scanline width es color None BLEND_NORMAL)).
Proof.
  intros Ha. apply stamps_forLoop. intros y. unfold scanline.
  apply stamps_fillSpans. intros x. eexists. now apply paints_shadePixel.
Qed.

Lemma stamps_dims (K : RGBA) (P : ColorImage -> ColorImage) (image : ColorImage) :
  stamps K P -> GetWidth (P image) = GetWidth image /\
                GetHeight (P image) = GetHeight image.
Proof. intros [cover H]. destruct (H image) as (Hw & Hh & _). auto. Qed.

(** C6: with an opaque colour ([alpha == 1]), no gradient and Normal
    mode, drawing a polygon a second time leaves the image as the first
    drawing made it: same dimensions, same value at every pixel. *)
Theorem drawPolygon_opaque_idempotent (image : ColorImage) (vertices : list Point)
        (color : ColorF) :
  eqb (ca color) one = true ->
  sameImage
    (drawPolygon (drawPolygon image vertices color None BLEND_NORMAL)
                 vertices color None BLEND_NORMAL)
    (drawPolygon image vertices color None BLEND_NORMAL).
Proof.
  intros Ha. apply eqb_one in Ha. unfold drawPolygon.
  destruct (length vertices <? 3)%nat; [repeat split |].
  set (es := buildEdges (GetHeight image) vertices).
  destruct (clampRange (GetHeight image) es) as [lo hi] eqn:Er.
  pose proof (stamps_scanlines (GetWidth image) (edges es) color lo hi Ha) as Hst.
  destruct (stamps_dims _ _ image Hst) as [-> ->].
  fold es. rewrite Er. now apply stamps_idempotent with (K := toRGBA (opaqueNormal color)).
Qed.

Lemma drawPolygon_opaque_idempotent_witness :
  sameImage
    (drawPolygon (drawPolygon canvas triangle red None BLEND_NORMAL)
                 triangle red None BLEND_NORMAL)
    (drawPolygon canvas triangle red None BLEND_NORMAL).
Proof. apply drawPolygon_opaque_idempotent. reflexivity. Defined.

(** ** The rasterizer: axis-aligned rectangles *)

Section Rectangle.

Variables (x y w h height : Z).
Hypothesis Hx : 0 <= x.
Hypothesis Hy : 0 <= y.
Hypothesis Hw : 0 < w.
Hypothesis Hh : 0 < h.
Hypothesis Rx : representable x.
Hypothesis Rxw : representable (x + w).
Hypothesis Ry : representable y.
Hypothesis Ryh : representable (y + h).
Hypothesis Hheight : y + h <= height.



End Rectangle.

Lemma toRGBA_opaqueNormal (color : ColorF) :
  validColor color -> ca color = one -> toRGBA (opaqueNormal color) = toRGBA color.
Proof.
  intros (Hr & Hg & Hb & _) Ha. unfold toRGBA, opaqueNormal. cbn [cr cg cb ca].
  rewrite Ha, !opaque_channel_byte by assumption. reflexivity.
Qed.



(** ** The colour round trip *)

Lemma table_checked : forallb tableOK (map Z.of_nat (seq 0 256)) = true.
Proof. vm_compute. reflexivity. Qed.

Lemma tableOK_byte (B : Z) : 0 <= B <= 255 -> tableOK B = true.
Proof.
  intros HB. pose proof table_checked as H. rewrite forallb_forall in H.
  apply H. apply in_map_iff. exists (Z.to_nat B). split; [lia |].
  apply in_seq. lia.
Qed.

Lemma to_byte_value (f : float) (B : Z) :
  to_int f = B -> 0 <= B <= 255 -> Z.of_N (Byte.to_N (to_byte f)) = B.
Proof.
  intros Hf HB. unfold to_byte. rewrite Hf, Z.mod_small by lia.
  destruct (Byte.of_N (Z.to_N B)) as [b|] eqn:Eb.
  - apply Byte.to_of_N in Eb. rewrite Eb. lia.
  - apply Byte.of_N_None_iff in Eb. lia.
Qed.

Lemma Qabs_diff_bound (a c : Z) (b d : positive) :
  255 * (a * Zpos d - c * Zpos b) <= Zpos b * Zpos d ->
  255 * (c * Zpos b - a * Zpos d) <= Zpos b * Zpos d ->
  (Qabs (Qmake a b - Qmake c d) <= Qmake 1 255)%Q.
Proof.
  intros H1 H2. apply Qabs_Qle_condition.
  unfold Qle, Qminus, Qplus, Qopp. cbn [Qnum Qden].
  rewrite !Pos2Z.inj_mul. split; lia.
Qed.

(** C8 for one channel. *)
Lemma channel_roundtrip (x : float) :
  unitChannel x -> (Qabs (SF2Q (roundTrip x) - SF2Q x) <= Qmake 1 255)%Q.
Proof.
  intros (Hv & H0 & H1).
  destruct x as [s0 | s0 | | s m e].
  - now destruct s0.
  - destruct s0; [discriminate H0 | discriminate H1].
  - discriminate H0.
  - destruct s; [discriminate H0 |].
    destruct (unit_finite m e Hv H1) as [-> | He]; [vm_compute; discriminate |].
    destruct (scale255_bounds m e Hv He) as (B & HB & HB255 & HL & HU & HZ).
    pose proof (tableOK_byte B HB255) as HT.
    unfold roundTrip, of_byte. rewrite (to_byte_value _ B HB HB255).
    fold (backChannel B). unfold tableOK in HT.
    destruct e as [|N|N]; try lia. cbn [SF2Q cond_Zopp].
    change (2 ^ (- Z.neg N)) with (2 ^ Zpos N) in *.
    assert (HQ : 2 ^ 24 <= 2 ^ Zpos N) by (apply Z.pow_le_mono_r; lia).
    assert (HQN : Zpos (2 ^ N) = 2 ^ Zpos N) by apply Pos2Z.inj_pow.
    destruct (backChannel B) as [sq | | | [] mq [|nq|nq]]; try discriminate.
    + apply Z.eqb_eq in HT. specialize (HZ HT). cbn [SF2Q].
      apply Qabs_Qle_condition. unfold Qle, Qminus, Qplus, Qopp. cbn [Qnum Qden].
      rewrite HQN. lia.
    + apply andb_prop in HT. destruct HT as [HT HB1].
      apply andb_prop in HT. destruct HT as [HCU HCL].
      apply Z.leb_le in HCU, HCL, HB1. specialize (HU HB1).
      cbn [SF2Q cond_Zopp].
      assert (HTN : Zpos (2 ^ nq) = 2 ^ Zpos nq) by apply Pos2Z.inj_pow.
      apply Qabs_diff_bound; rewrite HQN, HTN.
      * (* the sample is not more than 1/255 above the original *)
        set (T := 2 ^ Zpos nq) in *. set (Qd := 2 ^ Zpos N) in *.
        assert (0 < T) by (apply Z.pow_pos_nonneg; lia).
        change (2 ^ 24) with 16777216 in *. change (2 ^ 17) with 131072 in *.
        assert (H255 : 255 * Zpos mq * 131072 * Qd <=
                       (B * 131072 + 131072 - 1) * T * Qd)
          by (clear - HCL HQ; nia).
        assert (HL' : (B * 131072 * Qd - Qd) * T <= 255 * Zpos m * 131072 * T)
          by (clear - HL HQ H; nia).
        lia.
      * set (T := 2 ^ Zpos nq) in *. set (Qd := 2 ^ Zpos N) in *.
        assert (0 < T) by (apply Z.pow_pos_nonneg; lia).
        change (2 ^ 24) with 16777216 in *. change (2 ^ 17) with 131072 in *.
        set (J := 2 ^ Z.log2 B) in *.
        assert (HU' : 255 * Zpos m * 16777216 * T <=
                      ((B + 1) * 16777216 * Qd - J * Qd) * T)
          by (clear - HU H; nia).
        assert (HCU' : (B * 16777216 - J) * T * Qd <= 16777216 * 255 * Zpos mq * Qd)
          by (clear - HCU HQ; nia).
        lia.
Qed.

(** C8: for a colour whose four channels lie in [[0, 1]], every channel
    of [fromRGBA (toRGBA c)] is within [1/255] of the channel of [c], as
    exact rationals. *)
Theorem color_roundtrip (c : ColorF) :
  unitColor c ->
  let c' := fromRGBA (toRGBA c) in
  (Qabs (SF2Q (cr c') - SF2Q (cr c)) <= Qmake 1 255)%Q /\
  (Qabs (SF2Q (cg c') - SF2Q (cg c)) <= Qmake 1 255)%Q /\
  (Qabs (SF2Q (cb c') - SF2Q (cb c)) <= Qmake 1 255)%Q /\
  (Qabs (SF2Q (ca c') - SF2Q (ca c)) <= Qmake 1 255)%Q.
Proof.
  intros (Hr & Hg & Hb & Ha). cbv zeta. unfold fromRGBA, toRGBA.
  cbn [cr cg cb ca rgba_r rgba_g rgba_b rgba_a].
  fold (roundTrip (cr c)). fold (roundTrip (cg c)).
  fold (roundTrip (cb c)). fold (roundTrip (ca c)).
  repeat split; now apply channel_roundtrip.
Qed.

Lemma color_roundtrip_witness :
  let c' := fromRGBA (toRGBA orange08) in
  (Qabs (SF2Q (cr c') - SF2Q (cr orange08)) <= Qmake 1 255)%Q /\
  (Qabs (SF2Q (cg c') - SF2Q (cg orange08)) <= Qmake 1 255)%Q /\
  (Qabs (SF2Q (cb c') - SF2Q (cb orange08)) <= Qmake 1 255)%Q /\
  (Qabs (SF2Q (ca c') - SF2Q (ca orange08)) <= Qmake 1 255)%Q.
Proof. apply (color_roundtrip orange08). repeat split. Defined.

(** * Further properties of the code *)

(** ** [clamp_float] *)

Lemma SFcompare_some (x y : float) :
  x <> nan -> y <> nan -> exists c, SFcompare x y = Some c.
Proof.
  intros Hx Hy.
  destruct x as [sx | sx | | sx mx ex]; try (now elim Hx);
    destruct y as [sy | sy | | sy my ey]; try (now elim Hy);
    cbn [SFcompare]; eauto.
Qed.

Lemma not_ltb_leb (x y : float) :
  x <> nan -> y <> nan -> ltb x y = false -> leb y x = true.
Proof.
  intros Hx Hy. unfold ltb, leb, SFltb, SFleb.
  rewrite (SFcompare_antisym y x).
  destruct (SFcompare_some x y Hx Hy) as [c ->]. now destruct c.
Qed.

Lemma leb_not_nan_l (x y : float) : leb x y = true -> x <> nan.
Proof. intros H ->. now rewrite leb_nan_l in H. Qed.

Lemma leb_not_nan_r (x y : float) : leb x y = true -> y <> nan.
Proof. intros H ->. now rewrite leb_nan_r in H. Qed.

Lemma leb_not_ltb (x y : float) : leb x y = true -> ltb y x = false.
Proof.
  intros H. destruct (ltb y x) eqn:E; [| reflexivity].
  apply ltb_not_leb in E. congruence.
Qed.

Lemma clamp_float_inside (val minVal maxVal : float) :
  val <> nan -> leb minVal maxVal = true ->
  leb minVal (clamp_float val minVal maxVal) = true /\
  leb (clamp_float val minVal maxVal) maxVal = true.
Proof.
  intros Hv Hb. unfold clamp_float.
  pose proof (leb_not_nan_l _ _ Hb) as Hlo.
  pose proof (leb_not_nan_r _ _ Hb) as Hhi.
  destruct (ltb val minVal) eqn:E1.
  - split; [now apply leb_refl | exact Hb].
  - destruct (ltb maxVal val) eqn:E2.
    + split; [exact Hb | now apply leb_refl].
    + split; now apply not_ltb_leb.
Qed.

(** X1: [clamp_float] with ordered bounds: a value that is not NaN comes out
    inside [[minVal, maxVal]], and unchanged when it already was; NaN
    comes out as NaN. *)
Theorem clamp_float_range (val minVal maxVal : float) :
  clamp_float nan minVal maxVal = nan /\
  (val <> nan -> leb minVal maxVal = true ->
   leb minVal (clamp_float val minVal maxVal) = true /\
   leb (clamp_float val minVal maxVal) maxVal = true) /\
  (leb minVal val = true -> leb val maxVal = true ->
   clamp_float val minVal maxVal = val).
Proof.
  split; [apply clamp_float_nan | split].
  - apply clamp_float_inside.
  - intros H1 H2. unfold clamp_float.
    now rewrite (leb_not_ltb _ _ H1), (leb_not_ltb _ _ H2).
Qed.

Lemma clamp_float_range_witness :
  clamp_float nan zero one = nan /\
  (leb zero (clamp_float two zero one) = true /\
   leb (clamp_float two zero one) one = true) /\
  clamp_float half zero one = half.
Proof.
  destruct (clamp_float_range half zero one) as (Hn & _ & Hid).
  destruct (clamp_float_range two zero one) as (_ & Hr & _).
  split; [exact Hn | split].
  - apply Hr; [discriminate | reflexivity].
  - apply Hid; reflexivity.
Defined.

(** X2: the gradient parameter handed to [getColorAt] by the pixel loop is
    NaN or lies in [[0, 1]]. *)
Theorem gradientT_range (g : Gradient) (x y : Z) :
  gradientT g x y = nan \/
  (leb zero (gradientT g x y) = true /\ leb (gradientT g x y) one = true).
Proof.
  unfold gradientT.
  destruct (gradientRawT g x y) as [s | s | | s m e] eqn:E.
  - right. now destruct s.
  - right. now destruct s.
  - left. reflexivity.
  - right. apply clamp_float_inside; [discriminate | reflexivity].
Qed.

(** ** Pixels and colours *)

Lemma channelByte_pixel (b : byte) : channelByte (div (of_byte b) f255) = b.
Proof. destruct b; reflexivity. Qed.

Lemma toRGBA_channels (c : ColorF) :
  toRGBA c = mkRGBA (channelByte (cr c)) (channelByte (cg c))
                    (channelByte (cb c)) (channelByte (ca c)).
Proof. reflexivity. Qed.

(** X3: a pixel converted to a colour and back is the same pixel. *)
Theorem toRGBA_fromRGBA (p : RGBA) : toRGBA (fromRGBA p) = p.
Proof.
  destruct p as [r g b a]. rewrite toRGBA_channels. unfold fromRGBA.
  cbn [cr cg cb ca rgba_r rgba_g rgba_b rgba_a].
  now rewrite !channelByte_pixel.
Qed.

(** X4: every colour that [fromRGBA] returns has its four channels in
    [[0, 1]]: binary32 numbers between [0] and [1], no NaN, no
    infinity. *)
Theorem fromRGBA_unit (bg : RGBA) : unitColor (fromRGBA bg).
Proof.
  destruct bg as [r g b a]. unfold unitColor, fromRGBA.
  cbn [cr cg cb ca rgba_r rgba_g rgba_b rgba_a].
  repeat split; apply fromRGBA_channel_unit.
Qed.

(** Rounding never goes below the truncated mantissa; the result is
    finite or, past the largest exponent, an infinity. *)
Lemma binary_round_aux_lower (s : bool) (M : positive) (E : Z) :
  let E1 := fexp (Zpos (digits2_pos M) + E) in
  E < E1 -> 2 ^ (E1 - E) <= Zpos M ->
  exists Mf Ef,
    binary_round_aux prec emax s (Zpos M) E loc_Exact =
      (if Ef <=? emax - prec then S754_finite s Mf Ef else S754_infinity s) /\
    E1 <= Ef /\ Zpos M / 2 ^ (E1 - E) <= Zpos Mf * 2 ^ (Ef - E1).
Proof.
  intros E1 HE HM.
  destruct (digits2_shift M (E1 - E) ltac:(lia) HM) as (M1 & HM1 & Hd1).
  unfold binary_round_aux, shr_fexp. cbn [Zdigits2].
  fold (fexp (Zpos (digits2_pos M) + E)). fold E1.
  destruct (E1 - E) as [|np|np] eqn:En; try lia.
  cbn [shr shr_record_of_loc]. rewrite iter_pos_nat.
  destruct (Pos.to_nat np) as [|k] eqn:Ek; [lia |].
  assert (Hk : Z.of_nat (S k) = Zpos np) by lia.
  pose proof (round_after_shift (Zpos M) k ltac:(lia)) as HR. cbv zeta in HR.
  rewrite Hk in HR. destruct HR as [[HR1 HR2] HR3]. rewrite HM1 in HR1, HR2.
  set (M2 := round_nearest_even _ _) in *.
  destruct M2 as [|m2|m2] eqn:EM2; try lia.
  replace (E + Zpos np) with E1 by lia.
  pose proof (digits2_bounds M1) as B1. pose proof (digits2_bounds m2) as B2.
  set (d1 := Zpos (digits2_pos M1)) in *. set (d2 := Zpos (digits2_pos m2)) in *.
  assert (Hc1 : fexp (d1 + E1) = E1).
  { replace (d1 + E1) with (Zpos (digits2_pos M) + E) by lia. reflexivity. }
  assert (Hd12 : d1 <= d2 <= d1 + 1).
  { split.
    - destruct (Z.le_gt_cases d1 d2) as [|Hgt]; auto.
      assert (2 ^ d2 <= 2 ^ (d1 - 1)) by (apply Z.pow_le_mono_r; lia). lia.
    - destruct (Z.le_gt_cases d2 (d1 + 1)) as [|Hgt]; auto.
      assert (2 ^ (d1 + 1) <= 2 ^ (d2 - 1)) by (apply Z.pow_le_mono_r; lia).
      assert (2 ^ (d1 + 1) = 2 * 2 ^ d1) by (rewrite Z.pow_add_r; lia). lia. }
  cbn [Zdigits2].
  change (SpecFloat.fexp prec emax (Zpos (digits2_pos m2) + E1)) with (fexp (d2 + E1)).
  assert (Hn2 : fexp (d2 + E1) - E1 = 0 \/
                (fexp (d2 + E1) - E1 = 1 /\ d2 = d1 + 1 /\ d1 = prec)).
  { revert Hc1. unfold fexp, SpecFloat.fexp. lia. }
  destruct Hn2 as [Hn2 | (Hn2 & Hd2 & Hd1p)]; rewrite Hn2.
  - cbn [shr shr_record_of_loc shr_m].
    exists m2, E1. rewrite Z.sub_diag. repeat split; lia.
  - assert (Hpow : Zpos m2 = 2 ^ d1).
    { assert (2 ^ (d2 - 1) = 2 ^ d1) by (f_equal; lia). lia. }
    assert (Hd1pos : 1 <= d1) by (unfold d1; lia).
    assert (Hhalf : Zpos m2 = 2 * 2 ^ (d1 - 1)).
    { rewrite Hpow. replace d1 with (Z.succ (d1 - 1)) at 1 by lia.
      now rewrite Z.pow_succ_r by lia. }
    assert (0 < 2 ^ (d1 - 1)) by (apply Z.pow_pos_nonneg; lia).
    destruct m2 as [m2'|m2'|]; try lia.
    cbn [shr shr_record_of_loc shr_m SpecFloat.iter_pos shr_1].
    exists m2', (E1 + 1).
    replace (E1 + 1 - E1) with 1 by lia.
    repeat split; lia.
Qed.

Lemma clamp_at_least_255 (Mf : positive) (Ef : Z) :
  -16 < Ef \/ (Ef = -16 /\ 16711680 <= Zpos Mf) ->
  clamp_float (S754_finite false Mf Ef) zero f255 = f255.
Proof.
  intros H. unfold clamp_float.
  change (ltb (S754_finite false Mf Ef) zero) with false. cbv iota.
  unfold ltb, SFltb, f255. cbn [SFcompare].
  destruct (Z.compare_spec (-16) Ef) as [Heq | Hlt | Hgt]; [| reflexivity | lia].
  subst Ef. destruct H as [H | [_ H]]; [lia |].
  rewrite Pos.compare_cont_spec. unfold Pos.switch_Eq.
  destruct (Pos.compare_spec 16711680 Mf) as [Heq | Hlt | Hgt].
  - clear H. subst Mf. reflexivity.
  - reflexivity.
  - exfalso. apply Pos2Z.pos_lt_pos in Hgt. lia.
Qed.

Lemma channelByte_high (x : float) :
  valid x = true -> leb one x = true -> channelByte x = xff.
Proof.
  intros Hv H1. unfold channelByte.
  destruct x as [s0 | s0 | | s m e]; try discriminate H1.
  - destruct s0; [discriminate H1 | reflexivity].
  - destruct s; [discriminate H1 |].
    destruct (leb_finite_pos 8388608 m (-23) e H1) as [He | [He Hm]].
    + (* x >= 2 *)
      enough (Hc : clamp_float (mul (S754_finite false m e) f255) zero f255 = f255)
        by now rewrite Hc.
      destruct (valid_digits false m e Hv) as [Hd | Hd];
        [| unfold emin, SpecFloat.emin, emax, prec in Hd; lia].
      unfold prec in Hd.
      pose proof (digits2_bounds m) as [Hlo Hhi]. rewrite Hd in Hlo, Hhi.
      unfold mul, SFmul, f255. cbn [xorb].
      set (M := (m * 16711680)%positive).
      assert (HM : 2 ^ 46 <= Zpos M < 2 ^ 48).
      { unfold M. rewrite Pos2Z.inj_mul.
        change (2 ^ (24 - 1)) with 8388608 in Hlo.
        change (2 ^ 24) with 16777216 in Hhi.
        change (2 ^ 46) with (8388608 * 8388608).
        change (2 ^ 48) with (16777216 * 16777216). nia. }
      pose proof (digits2_bounds M) as [Hlo' Hhi'].
      set (d := Zpos (digits2_pos M)) in *.
      assert (Hd' : 47 <= d <= 48).
      { split.
        - assert (H : 2 ^ 46 < 2 ^ d) by lia. apply pow2_lt_inv in H; unfold d; lia.
        - assert (H : 2 ^ (d - 1) < 2 ^ 48) by lia. apply pow2_lt_inv in H; lia. }
      destruct (binary_round_aux_lower false M (e + -16)) as (Mf & Ef & Hr & HEf & _).
      * fold d. unfold fexp, SpecFloat.fexp, SpecFloat.emin, emax, prec. lia.
      * fold d. apply Z.le_trans with (2 ^ (d - 1)); [| exact Hlo'].
        apply Z.pow_le_mono_r; [lia |].
        unfold fexp, SpecFloat.fexp, SpecFloat.emin, emax, prec. lia.
      * rewrite Hr. fold d in HEf.
        assert (Hgt : -16 < Ef).
        { revert HEf. unfold fexp, SpecFloat.fexp, SpecFloat.emin, emax, prec. lia. }
        destruct (Ef <=? emax - prec); [| reflexivity].
        apply clamp_at_least_255. now left.
    + (* 1 <= x < 2 *)
      subst e.
      enough (Hc : clamp_float (mul (S754_finite false m (-23)) f255) zero f255 = f255)
        by now rewrite Hc.
      destruct (valid_digits false m (-23) Hv) as [Hd | Hd];
        [| discriminate Hd].
      unfold prec in Hd.
      pose proof (digits2_bounds m) as [Hlo Hhi]. rewrite Hd in Hlo, Hhi.
      unfold mul, SFmul, f255. cbn [xorb].
      set (M := (m * 16711680)%positive).
      assert (HMv : Zpos M = Zpos m * 16711680) by (unfold M; apply Pos2Z.inj_mul).
      assert (HM : 2 ^ 46 <= Zpos M < 2 ^ 48).
      { rewrite HMv.
        change (2 ^ (24 - 1)) with 8388608 in Hlo.
        change (2 ^ 24) with 16777216 in Hhi.
        change (2 ^ 46) with (8388608 * 8388608).
        change (2 ^ 48) with (16777216 * 16777216). nia. }
      pose proof (digits2_bounds M) as [Hlo' Hhi'].
      set (d := Zpos (digits2_pos M)) in *.
      assert (Hd' : 47 <= d <= 48).
      { split.
        - assert (H : 2 ^ 46 < 2 ^ d) by lia. apply pow2_lt_inv in H; unfold d; lia.
        - assert (H : 2 ^ (d - 1) < 2 ^ 48) by lia. apply pow2_lt_inv in H; lia. }
      assert (HE1 : fexp (d + (-23 + -16)) = d - 63).
      { unfold fexp, SpecFloat.fexp, SpecFloat.emin, emax, prec. lia. }
      destruct (binary_round_aux_lower false M (-23 + -16)) as (Mf & Ef & Hr & HEf & Hfl).
      * fold d. rewrite HE1. lia.
      * fold d. rewrite HE1. apply Z.le_trans with (2 ^ (d - 1)); [| exact Hlo'].
        apply Z.pow_le_mono_r; lia.
      * rewrite Hr. fold d in HEf, Hfl. rewrite HE1 in HEf, Hfl.
        destruct (Ef <=? emax - prec); [| reflexivity].
        apply clamp_at_least_255.
        destruct (Z.eq_dec Ef (-16)) as [-> | Hne]; [right | left; lia].
        split; [reflexivity |].
        assert (Hd47 : d = 47) by lia. rewrite Hd47 in Hfl.
        change (47 - 63 - (-23 + -16)) with 23 in Hfl.
        change (-16 - (47 - 63)) with 0 in Hfl.
        rewrite Z.pow_0_r, Z.mul_1_r in Hfl.
        apply Z.le_trans with (Zpos M / 2 ^ 23); [| exact Hfl].
        apply Z.div_le_lower_bound; [lia |].
        rewrite HMv. change (2 ^ 23) with 8388608.
        change (2 ^ (24 - 1)) with 8388608 in Hlo. nia.
Qed.

Lemma channelByte_low (x : float) : leb x zero = true -> channelByte x = x00.
Proof.
  intros H0. unfold channelByte.
  destruct x as [s0 | s0 | | s m e]; try discriminate H0.
  - now destruct s0.
  - destruct s0; [reflexivity | discriminate H0].
  - destruct s; [| discriminate H0].
    unfold mul, SFmul, f255. cbn [xorb].
    pose proof (binary_round_aux_class true (Zpos (m * 16711680)) (e + -16) loc_Exact)
      as Hc.
    destruct (binary_round_aux prec emax true (Zpos (m * 16711680)) (e + -16) loc_Exact)
      as [s' | s' | | s' m' e']; try subst s'; reflexivity.
Qed.

(** X5: [toRGBA] saturates: a channel of at least [1] (infinity included)
    becomes 255 and a channel of at most [0] becomes 0. *)
Theorem toRGBA_saturates (x : float) :
  valid x = true ->
  (leb one x = true -> channelByte x = xff) /\
  (leb x zero = true -> channelByte x = x00).
Proof.
  intros Hv. split; [now apply channelByte_high | apply channelByte_low].
Qed.

Lemma toRGBA_saturates_witness :
  channelByte two = xff /\ channelByte (S754_finite true 8388608 (-24)) = x00.
Proof.
  split.
  - apply (proj1 (toRGBA_saturates two eq_refl)). reflexivity.
  - apply (proj2 (toRGBA_saturates (S754_finite true 8388608 (-24)) eq_refl)).
    reflexivity.
Defined.

(** ** Opaque and transparent sources *)

(** X6: an opaque source in Normal mode replaces the pixel: the bytes
    written are those of the source, whatever the destination was. *)
Theorem blend_opaque_overwrites (src : ColorF) (bg : RGBA) :
  validColor src -> eqb (ca src) one = true ->
  toRGBA (blend src (fromRGBA bg) BLEND_NORMAL) = toRGBA src.
Proof.
  intros Hv Ha. apply eqb_one in Ha.
  rewrite (blend_opaque_normal src bg Ha). now apply toRGBA_opaqueNormal.
Qed.

Lemma blend_opaque_overwrites_witness :
  toRGBA (blend red (fromRGBA grey59) BLEND_NORMAL) = toRGBA red.
Proof. apply blend_opaque_overwrites; [repeat split | reflexivity]. Defined.

(** X7: multiply onto a pixel whose colour channels are 255 is Normal: white
    is the identity of the Multiply mode. *)
Theorem blend_multiply_white (src : ColorF) (a : byte) :
  validColor src ->
  blend src (fromRGBA (mkRGBA xff xff xff a)) BLEND_MULTIPLY =
  blend src (fromRGBA (mkRGBA xff xff xff a)) BLEND_NORMAL.
Proof.
  intros (Hr & Hg & Hb & _). unfold blend, blend_rgb, fromRGBA.
  cbn [Z.eqb BLEND_NORMAL BLEND_MULTIPLY cr cg cb ca rgba_r rgba_g rgba_b rgba_a].
  change (div (of_byte xff) f255) with one.
  now rewrite !mul_one_r.
Qed.

Lemma blend_multiply_white_witness :
  blend orange08 (fromRGBA white) BLEND_MULTIPLY =
  blend orange08 (fromRGBA white) BLEND_NORMAL.
Proof. apply (blend_multiply_white orange08 xff). repeat split. Defined.

Lemma difference_self_channel (b : byte) :
  let d := div (of_byte b) f255 in
  spec_mix (abs (sub d d)) d one = zero.
Proof. destruct b; vm_compute; reflexivity. Qed.

(** X8: in Difference mode an opaque source whose colour channels are
    those of the destination pixel gives black: the colour
    [(0, 0, 0, 1)] and the pixel [(0, 0, 0, 255)]. *)
Theorem blend_difference_self (bg : RGBA) (src : ColorF) :
  cr src = cr (fromRGBA bg) -> cg src = cg (fromRGBA bg) ->
  cb src = cb (fromRGBA bg) -> ca src = one ->
  blend src (fromRGBA bg) BLEND_DIFFERENCE = mkColorF zero zero zero one /\
  toRGBA (blend src (fromRGBA bg) BLEND_DIFFERENCE) = mkRGBA x00 x00 x00 xff.
Proof.
  intros Hr Hg Hb Ha.
  assert (E : blend src (fromRGBA bg) BLEND_DIFFERENCE = mkColorF zero zero zero one).
  { unfold blend, blend_rgb, BLEND_NORMAL, BLEND_MULTIPLY, BLEND_ADD, BLEND_DIFFERENCE.
    cbn [Z.eqb Pos.eqb].
    rewrite Hr, Hg, Hb, Ha. unfold fromRGBA. cbn [cr cg cb].
    pose proof (difference_self_channel (rgba_r bg)) as H1.
    pose proof (difference_self_channel (rgba_g bg)) as H2.
    pose proof (difference_self_channel (rgba_b bg)) as H3.
    unfold spec_mix in H1, H2, H3. cbv zeta in H1, H2, H3.
    now rewrite H1, H2, H3. }
  split; [exact E | now rewrite E].
Qed.

Lemma blend_difference_self_witness :
  blend (mkColorF (cr (fromRGBA grey59)) (cg (fromRGBA grey59))
                  (cb (fromRGBA grey59)) one)
        (fromRGBA grey59) BLEND_DIFFERENCE = mkColorF zero zero zero one /\
  toRGBA (blend (mkColorF (cr (fromRGBA grey59)) (cg (fromRGBA grey59))
                          (cb (fromRGBA grey59)) one)
                (fromRGBA grey59) BLEND_DIFFERENCE) = mkRGBA x00 x00 x00 xff.
Proof. apply blend_difference_self; reflexivity. Defined.

Lemma below_mono (j k : Z) (x : float) : j <= k -> below j x -> below k x.
Proof.
  intros Hjk (Hv & Hf & Hb). repeat split; try assumption.
  apply Z.lt_le_trans with (2 ^ (j + 149)); [exact Hb |].
  destruct (Z.le_gt_cases 0 (j + 149)).
  - apply Z.pow_le_mono_r; lia.
  - rewrite Z.pow_neg_r in Hb by lia. lia.
Qed.

Lemma unit_below (x : float) : unitChannel x -> below 1 x.
Proof.
  intros U. destruct (unit_grid x U) as (Hf & Hg). destruct U as (Hv & _).
  repeat split; try assumption.
  assert (2 ^ 149 < 2 ^ (1 + 149)) by (apply Z.pow_lt_mono_r; lia). lia.
Qed.

Lemma pow2_double (n : Z) : 0 <= n -> 2 ^ (n + 1) = 2 * 2 ^ n.
Proof. intros Hn. rewrite Z.pow_add_r by lia. lia. Qed.

Lemma add_closed (k : Z) (x y : float) :
  0 <= k <= 120 -> below k x -> below k y -> below (k + 2) (add x y).
Proof.
  intros Hk (Vx & Fx & Bx) (Vy & Fy & By).
  pose proof (pow2_double (k + 149) ltac:(lia)) as E1.
  pose proof (pow2_double (k + 150) ltac:(lia)) as E2.
  replace (k + 149 + 1) with (k + 1 + 149) in E1 by lia.
  replace (k + 150 + 1) with (k + 2 + 149) in E2 by lia.
  replace (k + 150) with (k + 1 + 149) in E2 by lia.
  destruct (add_below (k + 1) x y ltac:(lia) Vx Vy Fx Fy) as (V & F & Err); [lia |].
  repeat split; try assumption.
  assert (2 ^ (k + 1 + 125) <= 2 ^ (k + 1 + 149)) by (apply Z.pow_le_mono_r; lia).
  lia.
Qed.

Lemma sub_closed (k : Z) (x y : float) :
  0 <= k <= 120 -> below k x -> below k y -> below (k + 2) (sub x y).
Proof.
  intros Hk (Vx & Fx & Bx) (Vy & Fy & By).
  pose proof (pow2_double (k + 149) ltac:(lia)) as E1.
  pose proof (pow2_double (k + 150) ltac:(lia)) as E2.
  replace (k + 149 + 1) with (k + 1 + 149) in E1 by lia.
  replace (k + 150 + 1) with (k + 2 + 149) in E2 by lia.
  replace (k + 150) with (k + 1 + 149) in E2 by lia.
  destruct (sub_below (k + 1) x y ltac:(lia) Vx Vy Fx Fy) as (V & F & Err); [lia |].
  repeat split; try assumption.
  assert (2 ^ (k + 1 + 125) <= 2 ^ (k + 1 + 149)) by (apply Z.pow_le_mono_r; lia).
  lia.
Qed.

Lemma mul_closed (j k : Z) (x y : float) :
  0 <= j -> 0 <= k -> j + k <= 120 ->
  below j x -> below k y -> below (j + k + 1) (mul x y).
Proof.
  intros Hj Hk Hjk (Vx & Fx & Bx) (Vy & Fy & By).
  assert (Hprod : Z.abs (grid x * grid y) < 2 ^ (j + k + 298)).
  { rewrite Z.abs_mul. replace (j + k + 298) with ((j + 149) + (k + 149)) by lia.
    rewrite Z.pow_add_r by lia.
    apply Z.mul_lt_mono_nonneg; try apply Z.abs_nonneg; assumption. }
  destruct (mul_below (j + k) x y ltac:(lia) Vx Vy Fx Fy Hprod) as (V & F & Err).
  repeat split; try assumption.
  set (G := 2 ^ 149) in *.
  assert (HG : 0 < G) by (apply Z.pow_pos_nonneg; lia).
  assert (H1 : 2 ^ (j + k + 298) = 2 ^ (j + k + 149) * G)
    by (unfold G; rewrite <- Z.pow_add_r by lia; f_equal; lia).
  assert (H2 : 2 ^ (j + k + 274) <= 2 ^ (j + k + 149) * G).
  { rewrite <- H1. apply Z.pow_le_mono_r; lia. }
  assert (H3 : 2 ^ (j + k + 1 + 149) = 2 * 2 ^ (j + k + 149)).
  { replace (j + k + 1 + 149) with (j + k + 149 + 1) by lia.
    apply pow2_double. lia. }
  assert (H4 : Z.abs (grid (mul x y)) * G < 2 ^ (j + k + 1 + 149) * G).
  { rewrite <- (Z.abs_eq G) at 1 by lia. rewrite <- Z.abs_mul. lia. }
  apply Z.mul_lt_mono_pos_r in H4; assumption.
Qed.

Lemma abs_closed (k : Z) (x : float) : below k x -> below k (abs x).
Proof.
  intros (V & F & B). destruct x as [s | s | | s m e]; try discriminate F.
  - now repeat split.
  - repeat split; [exact V |]. cbn [abs SFabs grid cond_Zopp].
    cbn [grid] in B. now rewrite abs_cond_Zopp in B.
Qed.

Lemma clamp_closed (k : Z) (v lo hi : float) :
  below k v -> below k lo -> below k hi -> below k (clamp_float v lo hi).
Proof.
  intros Hv Hlo Hhi. unfold clamp_float.
  destruct (ltb v lo); [exact Hlo |]. now destruct (ltb hi v).
Qed.

Lemma below_one : below 1 one.
Proof. repeat split. Qed.

Lemma below_two : below 2 two.
Proof. repeat split. Qed.

Lemma below_zero (k : Z) : 0 <= k -> below k zero.
Proof.
  intros Hk. repeat split. cbn [grid Z.abs]. apply Z.pow_pos_nonneg; lia.
Qed.

(** The intermediate channel of every blend mode is a finite number
    when the two channels lie in [[0, 1]]. *)
Lemma overlay_channel_finite (s d : float) :
  unitChannel s -> unitChannel d -> isFinite (overlay_channel s d) = true.
Proof.
  intros Us Ud. apply unit_below in Us, Ud. unfold overlay_channel.
  destruct (ltb d half).
  - assert (H1 : below 4 (mul two s))
      by (apply (mul_closed 2 1); [lia | lia | lia | apply below_two | exact Us]).
    apply (mul_closed 4 1 _ _ ltac:(lia) ltac:(lia) ltac:(lia) H1 Ud).
  - assert (H1 : below 3 (sub one s))
      by (apply (sub_closed 1); [lia | apply below_one | exact Us]).
    assert (H2 : below 3 (sub one d))
      by (apply (sub_closed 1); [lia | apply below_one | exact Ud]).
    assert (H3 : below 6 (mul two (sub one s)))
      by (apply (mul_closed 2 3); [lia | lia | lia | apply below_two | exact H1]).
    assert (H4 : below 10 (mul (mul two (sub one s)) (sub one d)))
      by (apply (mul_closed 6 3); [lia | lia | lia | exact H3 | exact H2]).
    apply (sub_closed 10); [lia | | exact H4].
    apply (below_mono 1); [lia | apply below_one].
Qed.

Lemma intermediate_finite (s d : float) :
  unitChannel s -> unitChannel d ->
  isFinite (mul s d) = true /\
  isFinite (clamp_float (add s d) zero one) = true /\
  isFinite (abs (sub d s)) = true.
Proof.
  intros Us Ud. pose proof (unit_below s Us) as Bs.
  pose proof (unit_below d Ud) as Bd.
  split; [| split].
  - apply (mul_closed 1 1 _ _ ltac:(lia) ltac:(lia) ltac:(lia) Bs Bd).
  - apply (clamp_closed 3).
    + apply (add_closed 1); [lia | exact Bs | exact Bd].
    + apply below_zero. lia.
    + apply (below_mono 1); [lia | apply below_one].
  - apply (abs_closed 3). apply (sub_closed 1); [lia | exact Bd | exact Bs].
Qed.

(** A channel read from a pixel is [+0] or a positive finite number. *)
Lemma pixel_channel_class (b : byte) :
  div (of_byte b) f255 = zero \/
  exists m e, div (of_byte b) f255 = S754_finite false m e.
Proof. destruct b; vm_compute; eauto. Qed.

(** With an alpha of zero the source-over mix returns the destination
    channel, for every finite intermediate. *)
Lemma mix_transparent (r : float) (b : byte) (a : float) :
  isFinite r = true -> isZero a = true ->
  spec_mix r (div (of_byte b) f255) a = div (of_byte b) f255.
Proof.
  intros Hr Ha. unfold spec_mix.
  destruct a as [sa | | |]; try discriminate Ha.
  assert (Hinv : sub one (S754_zero sa) = one) by now destruct sa.
  rewrite Hinv, mul_one_r by apply fromRGBA_channel_unit.
  assert (Hz : exists s', mul r (S754_zero sa) = S754_zero s').
  { destruct r as [sr | sr | | sr mr er]; try discriminate Hr;
      cbn [mul SFmul]; eauto. }
  destruct Hz as [s' ->].
  destruct (pixel_channel_class b) as [-> | (m & e & ->)];
    [now destruct s' | reflexivity].
Qed.

Lemma blend_rgb_finite (src dest : ColorF) (mode : Z) :
  unitChannel (cr src) -> unitChannel (cg src) -> unitChannel (cb src) ->
  unitChannel (cr dest) -> unitChannel (cg dest) -> unitChannel (cb dest) ->
  let '(r, g, b) := blend_rgb src dest mode in
  isFinite r = true /\ isFinite g = true /\ isFinite b = true.
Proof.
  intros Sr Sg Sb Dr Dg Db. unfold blend_rgb.
  destruct (mode =? BLEND_NORMAL);
    [repeat split; now apply unit_grid |].
  destruct (mode =? BLEND_MULTIPLY);
    [repeat split; now apply intermediate_finite |].
  destruct (mode =? BLEND_ADD);
    [repeat split; now apply intermediate_finite |].
  destruct (mode =? BLEND_DIFFERENCE);
    [repeat split; now apply intermediate_finite |].
  destruct (mode =? BLEND_OVERLAY);
    [repeat split; now apply overlay_channel_finite |].
  repeat split; now apply unit_grid.
Qed.

Lemma blend_alpha_zero (src : ColorF) (bg : RGBA) (mode : Z) :
  unitChannel (cr src) -> unitChannel (cg src) -> unitChannel (cb src) ->
  isZero (ca src) = true ->
  blend src (fromRGBA bg) mode =
  mkColorF (cr (fromRGBA bg)) (cg (fromRGBA bg)) (cb (fromRGBA bg)) one.
Proof.
  intros Sr Sg Sb Ha.
  pose proof (blend_rgb_finite src (fromRGBA bg) mode Sr Sg Sb
                (fromRGBA_channel_unit (rgba_r bg))
                (fromRGBA_channel_unit (rgba_g bg))
                (fromRGBA_channel_unit (rgba_b bg))) as Hfin.
  unfold blend.
  destruct (blend_rgb src (fromRGBA bg) mode) as [[r g] b].
  destruct Hfin as (Hr & Hg & Hb).
  unfold fromRGBA. cbn [cr cg cb].
  fold (spec_mix r (div (of_byte (rgba_r bg)) f255) (ca src)).
  fold (spec_mix g (div (of_byte (rgba_g bg)) f255) (ca src)).
  fold (spec_mix b (div (of_byte (rgba_b bg)) f255) (ca src)).
  now rewrite !mix_transparent by assumption.
Qed.

Lemma toRGBA_pixel_rgb (bg : RGBA) :
  toRGBA (mkColorF (cr (fromRGBA bg)) (cg (fromRGBA bg)) (cb (fromRGBA bg)) one) =
  mkRGBA (rgba_r bg) (rgba_g bg) (rgba_b bg) xff.
Proof.
  rewrite toRGBA_channels. unfold fromRGBA. cbn [cr cg cb ca].
  now rewrite !channelByte_pixel.
Qed.

(** X9: a fully transparent source ([alpha] zero, colour channels in
    [[0, 1]]) blended onto a pixel returns the colour channels of the
    pixel with alpha [1.0], in each of the five blend modes and for
    every other mode value; the pixel written back has the [r], [g],
    [b] bytes it had and the alpha byte 255. *)
Theorem blend_transparent (src : ColorF) (bg : RGBA) (mode : Z) :
  unitChannel (cr src) -> unitChannel (cg src) -> unitChannel (cb src) ->
  isZero (ca src) = true ->
  blend src (fromRGBA bg) mode =
    mkColorF (cr (fromRGBA bg)) (cg (fromRGBA bg)) (cb (fromRGBA bg)) one /\
  toRGBA (blend src (fromRGBA bg) mode) =
    mkRGBA (rgba_r bg) (rgba_g bg) (rgba_b bg) xff.
Proof.
  intros Sr Sg Sb Ha.
  pose proof (blend_alpha_zero src bg mode Sr Sg Sb Ha) as E.
  split; [exact E |]. rewrite E. apply toRGBA_pixel_rgb.
Qed.

Lemma blend_transparent_witness :
  blend clearOrange (fromRGBA grey59) BLEND_OVERLAY =
    mkColorF (cr (fromRGBA grey59)) (cg (fromRGBA grey59))
             (cb (fromRGBA grey59)) one /\
  toRGBA (blend clearOrange (fromRGBA grey59) BLEND_OVERLAY) =
    mkRGBA x3b x3b x3b xff.
Proof.
  apply (blend_transparent clearOrange grey59 BLEND_OVERLAY); repeat split.
Defined.

(** ** Sampling a gradient *)

(** X10: a gradient with one stop has that stop's colour everywhere, NaN
    included. *)
Theorem getColorAt_single (g : Gradient) (s : GradientStop) (t : float) :
  stops g = [s] -> getColorAt g t = color s.
Proof.
  intros E. unfold getColorAt. rewrite E. cbn [last findSegment].
  now destruct (leb t (position s)), (leb (position s) t).
Qed.

Lemma getColorAt_single_witness :
  getColorAt (addStop (emptyLinear origin origin) half blue) nan = blue.
Proof.
  apply (getColorAt_single _ (mkStop half blue)). reflexivity.
Defined.

Lemma findSegment_between (pre : list GradientStop) (s0 s1 : GradientStop)
      (post : list GradientStop) (t : float) :
  increasingStops (pre ++ s0 :: s1 :: post) = true ->
  ltb (position s0) t = true -> ltb t (position s1) = true ->
  findSegment t (pre ++ s0 :: s1 :: post) =
  Some (lerpColor (color s0) (color s1)
          (div (sub t (position s0)) (sub (position s1) (position s0)))).
Proof.
  intros Hinc H0 H1. induction pre as [|a pre IH].
  - cbn [app findSegment]. now rewrite (ltb_leb _ _ H0), (ltb_leb _ _ H1).
  - pose proof (increasing_tail a _ Hinc) as Htl. specialize (IH Htl).
    cbn [app] in *.
    destruct (pre ++ s0 :: s1 :: post) as [|b rest] eqn:El;
      [now destruct pre |].
    cbn [findSegment]. fold findSegment.
    assert (Hb : ltb (position b) t = true).
    { destruct pre as [|c pre]; cbn [app] in El; injection El as <- _;
        [exact H0 |].
      apply ltb_trans with (position s0); [| exact H0].
      pose proof (increasing_app_lt (c :: pre) s0 (s1 :: post) Htl) as Hall.
      now apply Forall_inv in Hall. }
    rewrite (ltb_not_leb _ _ Hb), andb_false_r. exact IH.
Qed.

(** X11: between two adjacent stops of a gradient with strictly increasing
    positions the colour is the linear interpolation of the two stops at
    [f = (t - t0) / (t1 - t0)]. *)
Theorem getColorAt_between (g : Gradient) (pre : list GradientStop)
        (s0 s1 : GradientStop) (post : list GradientStop) (t : float) :
  stops g = pre ++ s0 :: s1 :: post ->
  increasingStops (stops g) = true ->
  ltb (position s0) t = true -> ltb t (position s1) = true ->
  getColorAt g t =
  lerpColor (color s0) (color s1)
            (div (sub t (position s0)) (sub (position s1) (position s0))).
Proof.
  intros E Hinc H0 H1. rewrite E in Hinc. unfold getColorAt. rewrite E.
  rewrite (findSegment_between pre s0 s1 post t Hinc H0 H1).
  assert (Hfront : forall front tl, pre ++ s0 :: s1 :: post = front :: tl ->
            ltb (position front) t = true).
  { intros front tl El.
    destruct pre as [|c pre]; cbn [app] in El; injection El as <- _;
      [exact H0 |].
    apply ltb_trans with (position s0); [| exact H0].
    pose proof (increasing_app_lt (c :: pre) s0 (s1 :: post) Hinc) as Hall.
    now apply Forall_inv in Hall. }
  assert (Hback : forall dflt,
            ltb t (position (last (pre ++ s0 :: s1 :: post) dflt)) = true).
  { intros dflt.
    assert (Hinc' : increasingStops (s1 :: post) = true).
    { apply (increasing_app_r (pre ++ [s0])). now rewrite <- app_assoc. }
    destruct post as [|s2 post].
    - replace (pre ++ [s0; s1]) with ((pre ++ [s0]) ++ [s1])
        by now rewrite <- app_assoc.
      now rewrite last_app_cons.
    - apply ltb_trans with (position s1); [exact H1 |].
      pose proof (increasing_head_lt s1 (s2 :: post) Hinc') as Hall.
      rewrite Forall_forall in Hall. apply Hall.
      destruct (exists_last (l := s2 :: post) ltac:(discriminate)) as (l' & z & Ez).
      rewrite Ez.
      replace (pre ++ s0 :: s1 :: l' ++ [z])
        with ((pre ++ s0 :: s1 :: l') ++ [z]) by now rewrite <- app_assoc.
      rewrite last_app_cons. apply in_or_app. right. now left. }
  destruct (pre ++ s0 :: s1 :: post) as [|front tl] eqn:El; [now destruct pre |].
  now rewrite (ltb_not_leb _ _ (Hfront front tl eq_refl)),
    (ltb_not_leb _ _ (Hback front)).
Qed.

Lemma getColorAt_between_witness :
  getColorAt threeStops quarter =
  lerpColor red blue (div (sub quarter zero) (sub half zero)).
Proof.
  apply (getColorAt_between threeStops [] (mkStop zero red) (mkStop half blue)
           [mkStop one red]); reflexivity.
Defined.

(** X12: at NaN every comparison of [getColorAt] fails and the colour of the
    last stop comes out. *)
Theorem getColorAt_nan_last (g : Gradient) (front : GradientStop)
        (rest : list GradientStop) :
  stops g = front :: rest -> getColorAt g nan = color (last (stops g) front).
Proof.
  intros E. rewrite getColorAt_nan. unfold fallbackColor. now rewrite E.
Qed.

Lemma getColorAt_nan_last_witness : getColorAt threeStops nan = red.
Proof.
  apply (getColorAt_nan_last threeStops (mkStop zero red)
           [mkStop half blue; mkStop one red]).
  reflexivity.
Defined.

(** ** Adding a stop *)

Lemma insertStop_perm (s : GradientStop) (l : list GradientStop) :
  Permutation (insertStop s l) (s :: l).
Proof.
  induction l as [|h l IH]; cbn [insertStop]; [apply Permutation_refl |].
  destruct (ltb (position s) (position h)); [apply Permutation_refl |].
  apply perm_trans with (h :: s :: l); [now apply perm_skip | apply perm_swap].
Qed.

Lemma insertStop_sorted (s : GradientStop) (l : list GradientStop) :
  position s <> nan -> Forall (fun x => position x <> nan) l ->
  sortedStops l = true -> sortedStops (insertStop s l) = true.
Proof.
  intros Hs Hl Hsorted. induction l as [|h l IH]; [reflexivity |].
  cbn [insertStop]. destruct (ltb (position s) (position h)) eqn:E.
  - change (leb (position s) (position h) && sortedStops (h :: l) = true).
    now rewrite (ltb_leb _ _ E), Hsorted.
  - pose proof (Forall_inv Hl) as Hh. pose proof (Forall_inv_tail Hl) as Hl'.
    assert (Hhs : leb (position h) (position s) = true)
      by now apply not_ltb_leb.
    assert (Htl : sortedStops l = true).
    { destruct l as [|h' l]; [reflexivity |]. cbn [sortedStops] in Hsorted.
      now apply andb_prop in Hsorted. }
    specialize (IH Hl' Htl).
    destruct l as [|h' l].
    + cbn [insertStop sortedStops]. now rewrite Hhs.
    + cbn [insertStop] in *. cbn [sortedStops] in Hsorted.
      apply andb_prop in Hsorted. destruct Hsorted as [Hhh' _].
      destruct (ltb (position s) (position h')).
      * change (leb (position h) (position s) &&
                sortedStops (s :: h' :: l) = true).
        now rewrite Hhs, IH.
      * change (leb (position h) (position h') &&
                sortedStops (h' :: insertStop s l) = true).
        now rewrite Hhh', IH.
Qed.

Lemma sortStops_spec (l acc : list GradientStop) :
  Forall (fun x => position x <> nan) l ->
  Forall (fun x => position x <> nan) acc -> sortedStops acc = true ->
  let r := fold_left (fun sorted s => insertStop s sorted) l acc in
  sortedStops r = true /\ Permutation r (acc ++ l).
Proof.
  revert acc. induction l as [|s l IH]; intros acc Hl Hacc Hsorted; cbn [fold_left].
  - split; [exact Hsorted | rewrite app_nil_r; apply Permutation_refl].
  - pose proof (Forall_inv Hl) as Hs. pose proof (Forall_inv_tail Hl) as Hl'.
    destruct (IH (insertStop s acc) Hl') as [H1 H2].
    + apply (Permutation_Forall (Permutation_sym (insertStop_perm s acc))).
      now constructor.
    + now apply insertStop_sorted.
    + split; [exact H1 |].
      apply perm_trans with (insertStop s acc ++ l); [exact H2 |].
      apply perm_trans with ((s :: acc) ++ l);
        [apply Permutation_app_tail, insertStop_perm |].
      cbn [app]. apply Permutation_middle.
Qed.

(** X13: [addStop] leaves the stops sorted by position, with the new stop
    among the old ones and nothing lost, provided no position is NaN
    (on which no order exists).  The geometry is untouched. *)
Theorem addStop_sorted (g : Gradient) (pos : float) (col : ColorF) :
  pos <> nan -> Forall (fun s => position s <> nan) (stops g) ->
  sortedStops (stops (addStop g pos col)) = true /\
  Permutation (stops (addStop g pos col)) (mkStop pos col :: stops g) /\
  isRadial (addStop g pos col) = isRadial g /\
  p1 (addStop g pos col) = p1 g /\ p2 (addStop g pos col) = p2 g /\
  radius (addStop g pos col) = radius g.
Proof.
  intros Hpos Hall. unfold addStop. cbn [stops isRadial p1 p2 radius].
  destruct (sortStops_spec (stops g ++ [mkStop pos col]) []) as [H1 H2];
    [| constructor | reflexivity |].
  - apply Forall_app. split; [exact Hall | now repeat constructor].
  - split; [exact H1 |]. split; [| now repeat split].
    apply perm_trans with (stops g ++ [mkStop pos col]); [exact H2 |].
    apply Permutation_sym, Permutation_cons_append.
Qed.

Lemma addStop_sorted_witness :
  sortedStops (stops (addStop threeStops quarter blue)) = true /\
  Permutation (stops (addStop threeStops quarter blue))
              (mkStop quarter blue :: stops threeStops).
Proof.
  destruct (addStop_sorted threeStops quarter blue) as (H1 & H2 & _).
  - discriminate.
  - repeat constructor; discriminate.
  - split; assumption.
Defined.

(** ** [createRect] on integers *)

Lemma digits2_scaled (p q : positive) (n : Z) :
  0 <= n -> Zpos q = Zpos p * 2 ^ n ->
  Zpos (digits2_pos q) = Zpos (digits2_pos p) + n.
Proof.
  intros Hn Hq. apply digits2_unique. rewrite Hq.
  pose proof (digits2_bounds p) as [Hlo Hhi].
  assert (H2 : 0 < 2 ^ n) by (apply Z.pow_pos_nonneg; lia).
  replace (Zpos (digits2_pos p) + n - 1) with ((Zpos (digits2_pos p) - 1) + n) by lia.
  rewrite !Z.pow_add_r by lia. split.
  - apply Z.mul_le_mono_nonneg_r; lia.
  - apply Z.mul_lt_mono_pos_r; lia.
Qed.

(** Rounding a mantissa and exponent that denote a binary32 number
    gives that number. *)
Lemma binary_round_exact (s : bool) (q m : positive) (E e : Z) :
  fexp (Zpos (digits2_pos m) + e) = e -> e <= emax - prec -> - 149 <= E ->
  Zpos q * 2 ^ (E + 149) = Zpos m * 2 ^ (e + 149) ->
  binary_round prec emax s q E = S754_finite s m e.
Proof.
  intros Hc Hb HE Hval.
  pose proof (fexp_ge_emin (Zpos (digits2_pos m) + e)) as Hmin.
  rewrite Hc in Hmin. unfold emin, SpecFloat.emin, emax, prec in Hmin.
  unfold binary_round.
  destruct (Z.le_gt_cases e E) as [Hle | Hgt].
  - assert (Hm : Zpos m = Zpos q * 2 ^ (E - e)).
    { assert (H2 : 0 < 2 ^ (e + 149)) by (apply Z.pow_pos_nonneg; lia).
      replace (E + 149) with ((E - e) + (e + 149)) in Hval by lia.
      rewrite (Z.pow_add_r 2 (E - e) (e + 149)), Z.mul_assoc in Hval by lia.
      apply Z.mul_cancel_r in Hval; lia. }
    pose proof (digits2_scaled q m (E - e) ltac:(lia) Hm) as Hd.
    replace (Zpos (digits2_pos q) + E) with (Zpos (digits2_pos m) + e) by lia.
    change (SpecFloat.fexp prec emax (Zpos (digits2_pos m) + e))
      with (fexp (Zpos (digits2_pos m) + e)). rewrite Hc.
    pose proof (shl_align_fst q E e Hle) as Hf.
    pose proof (shl_align_snd q E e Hle) as Hs.
    destruct (shl_align q E e) as [mz ez]. cbn [fst snd] in Hf, Hs. subst ez.
    assert (mz = m) by lia. subst mz.
    now apply binary_round_aux_canonical.
  - assert (Hq : Zpos q = Zpos m * 2 ^ (e - E)).
    { assert (H2 : 0 < 2 ^ (E + 149)) by (apply Z.pow_pos_nonneg; lia).
      replace (e + 149) with ((e - E) + (E + 149)) in Hval by lia.
      rewrite (Z.pow_add_r 2 (e - E) (E + 149)), Z.mul_assoc in Hval by lia.
      apply Z.mul_cancel_r in Hval; lia. }
    pose proof (digits2_scaled m q (e - E) ltac:(lia) Hq) as Hd.
    replace (Zpos (digits2_pos q) + E) with (Zpos (digits2_pos m) + e) by lia.
    change (SpecFloat.fexp prec emax (Zpos (digits2_pos m) + e))
      with (fexp (Zpos (digits2_pos m) + e)). rewrite Hc.
    assert (Hal : shl_align q E e = (q, E)).
    { unfold shl_align. destruct (e - E) eqn:Ed; try reflexivity. lia. }
    rewrite Hal.
    replace E with (e - (e - E)) by lia.
    apply (binary_round_aux_shift s m q e (e - E)); auto. lia.
Qed.

Lemma of_int_zero : of_int 0 = zero.
Proof. reflexivity. Qed.

(** The binary32 sum of two small non-negative integers is their sum. *)
Lemma add_of_int (a b : Z) :
  0 <= a -> 0 <= b -> a + b < 2 ^ 24 ->
  add (of_int a) (of_int b) = of_int (a + b).
Proof.
  intros Ha Hb Hab.
  destruct (Z.eq_dec a 0) as [-> | Ha0].
  { rewrite of_int_zero, Z.add_0_l.
    destruct (Z.eq_dec b 0) as [-> | Hb0]; [reflexivity |].
    destruct (of_int_small b ltac:(lia)) as (m & e & -> & _). reflexivity. }
  destruct (Z.eq_dec b 0) as [-> | Hb0].
  { rewrite of_int_zero, Z.add_0_r.
    destruct (of_int_small a ltac:(lia)) as (m & e & -> & _). reflexivity. }
  destruct (of_int_small a ltac:(lia)) as (ma & ea & Ea & Hea & Hma & Hda).
  destruct (of_int_small b ltac:(lia)) as (mb & eb & Eb & Heb & Hmb & Hdb).
  destruct (of_int_small (a + b) ltac:(lia)) as (mc & ec & Ec & Hec & Hmc & Hdc).
  rewrite Ea, Eb, Ec. unfold add, SFadd. cbn [cond_Zopp].
  set (ez := Z.min ea eb).
  pose proof (aligned_grid false ma ea ez ltac:(unfold ez; lia)) as Ga.
  pose proof (aligned_grid false mb eb ez ltac:(unfold ez; lia)) as Gb.
  cbn [cond_Zopp grid] in Ga, Gb.
  assert (Hscale : forall m e k, -23 <= e <= 0 -> Zpos m = k * 2 ^ (- e) ->
            Zpos m * 2 ^ (e + 149) = k * 2 ^ 149).
  { intros m e k He Hm. rewrite Hm, <- Z.mul_assoc, <- Z.pow_add_r by lia.
    f_equal. f_equal. lia. }
  rewrite (Hscale ma ea a Hea Hma) in Ga. rewrite (Hscale mb eb b Heb Hmb) in Gb.
  destruct (Zpos (fst (shl_align ma ea ez)) + Zpos (fst (shl_align mb eb ez)))
    as [|q|q] eqn:Eq; try lia.
  cbn [binary_normalize].
  apply binary_round_exact.
  - rewrite Hdc. unfold fexp, SpecFloat.fexp, SpecFloat.emin, emax, prec. lia.
  - unfold emax, prec. lia.
  - unfold ez. lia.
  - rewrite (Hscale mc ec (a + b) Hec Hmc), <- Eq, Z.mul_add_distr_r, Ga, Gb. ring.
Qed.

(** X14: [createRect] on integer arguments: no coordinate is rounded as long
    as [x + w] and [y + h] stay below [2^24], and the vertex list is the
    one with corners [(x, y)] and [(x + w, y + h)]. *)
Theorem createRect_integers (x y w h : Z) :
  0 <= x -> 0 <= y -> 0 <= w -> 0 <= h -> x + w < 2 ^ 24 -> y + h < 2 ^ 24 ->
  createRect (of_int x) (of_int y) (of_int w) (of_int h) = rectangle x y w h.
Proof.
  intros Hx Hy Hw Hh Hxw Hyh. unfold createRect, rectangle.
  now rewrite !add_of_int.
Qed.

Lemma createRect_integers_witness :
  createRect (of_int 50) (of_int 50) (of_int 200) (of_int 150) =
  rectangle 50 50 200 150.
Proof. apply createRect_integers; lia. Defined.

(** ** The edge table *)

Lemma addEdge_OK (height : Z) (a b : Point) (st : EdgeTable) :
  edgeTableOK height st -> edgeTableOK height (addEdge height a b st).
Proof.
  intros (Hmin & Hmax & Hall). unfold addEdge.
  destruct (Z.eqb_spec (to_int (py a)) (to_int (py b))) as [|Hne];
    [now repeat split |].
  assert (Hgen : forall p q, to_int (py p) <> to_int (py q) ->
            edgeTableOK height
              (let e := mkEdge (to_int (py p)) (to_int (py q)) (px p)
                          (div (sub (px q) (px p)) (sub (py q) (py p))) in
               if (yMax e <=? 0) || (height <=? yMin e) then st
               else mkTable (edges st ++ [e])
                      (if yMin e <? globalMinY st then yMin e else globalMinY st)
                      (if globalMaxY st <? yMax e then yMax e else globalMaxY st))).
  { intros p q Hpq. cbv zeta. cbn [yMin yMax].
    destruct (Z.leb_spec (to_int (py q)) 0); cbn [orb]; [now repeat split |].
    destruct (Z.leb_spec height (to_int (py p))); [now repeat split |].
    unfold edgeTableOK, edgeOK. cbn [edges globalMinY globalMaxY].
    destruct (Z.ltb_spec (to_int (py p)) (globalMinY st));
      destruct (Z.ltb_spec (globalMaxY st) (to_int (py q)));
      (split; [lia | split; [lia |]]);
      (apply Forall_app; split;
       [ eapply Forall_impl; [| exact Hall];
         intros e (E1 & E2 & E3 & E4 & E5); repeat split; lia
       | repeat constructor; cbn [yMin yMax]; lia ]). }
  destruct (ltb (py b) (py a)); [apply Hgen; congruence | now apply Hgen].
Qed.

(** X15: the edge table that [drawPolygon] builds: every recorded edge spans
    at least one row, reaches into the rows of the image, and lies
    inside the running bounds [[globalMinY, globalMaxY]]; hence the
    clamped scanline range contains every image row that an edge
    covers. *)
Theorem buildEdges_invariant (height : Z) (vertices : list Point) :
  let st := buildEdges height vertices in
  edgeTableOK height st /\
  forall e y, In e (edges st) -> 0 <= y < height -> yMin e <= y < yMax e ->
    fst (clampRange height st) <= y < snd (clampRange height st).
Proof.
  intros st.
  assert (Hok : edgeTableOK height st).
  { unfold st, buildEdges.
    assert (Hgen : forall l st0, edgeTableOK height st0 ->
              edgeTableOK height
                (fold_left
                   (fun st i => addEdge height (nth i vertices origin)
                      (nth ((i + 1) mod length vertices)%nat vertices origin) st)
                   l st0)).
    { induction l as [|i l IH]; intros st0 H0; cbn [fold_left]; [exact H0 |].
      apply IH. now apply addEdge_OK. }
    apply Hgen. unfold edgeTableOK. cbn [globalMinY globalMaxY edges].
    repeat split; try lia. constructor. }
  split; [exact Hok |].
  intros e y He Hy Hrow. destruct Hok as (_ & _ & Hall).
  rewrite Forall_forall in Hall. destruct (Hall e He) as (_ & _ & _ & H4 & H5).
  unfold clampRange. cbn [fst snd].
  destruct (Z.ltb_spec (globalMinY st) 0);
    destruct (Z.ltb_spec height (globalMaxY st)); lia.
Qed.

Lemma buildEdges_invariant_witness :
  edgeTableOK 600 (buildEdges 600 triangle) /\
  fst (clampRange 600 (buildEdges 600 triangle)) <= 300
    < snd (clampRange 600 (buildEdges 600 triangle)).
Proof.
  destruct (buildEdges_invariant 600 triangle) as [Hok Hrows].
  split; [exact Hok |].
  apply (Hrows (nth 0 (edges (buildEdges 600 triangle)) (mkEdge 0 0 zero zero)) 300).
  - apply nth_In. vm_compute. lia.
  - lia.
  - vm_compute. split; [discriminate | reflexivity].
Defined.

Lemma fold_addEdge_skip (height : Z) (vertices : list Point) (st : EdgeTable)
      (l : list nat) :
  (forall a b, In a vertices -> In b vertices -> addEdge height a b st = st) ->
  (forall i, In i l -> (i < length vertices)%nat) ->
  fold_left
    (fun st i => addEdge height (nth i vertices origin)
                         (nth ((i + 1) mod length vertices)%nat vertices origin) st)
    l st = st.
Proof.
  intros Hskip. induction l as [|i l IH]; intros Hl; cbn [fold_left]; [reflexivity |].
  assert (Hi : (i < length vertices)%nat) by (apply Hl; now left).
  rewrite Hskip.
  - apply IH. intros j Hj. apply Hl. now right.
  - now apply nth_In.
  - apply nth_In. apply Nat.mod_upper_bound. lia.
Qed.

(** X16: a polygon whose vertices all have a truncated [y] of at most
    [0], or all of at least [height], is clipped away whole: the image
    is returned as it was. *)
Theorem drawPolygon_offscreen (image : ColorImage) (vertices : list Point)
        (color : ColorF) (grad : option Gradient) (blendMode : Z) :
  Forall (fun v => to_int (py v) <= 0) vertices \/
  Forall (fun v => GetHeight image <= to_int (py v)) vertices ->
  drawPolygon image vertices color grad blendMode = image.
Proof.
  intros Hoff. unfold drawPolygon.
  destruct (length vertices <? 3)%nat; [reflexivity |].
  assert (Hb : buildEdges (GetHeight image) vertices =
               mkTable [] (GetHeight image) 0).
  { unfold buildEdges. apply fold_addEdge_skip.
    - intros a b Ha Hb. unfold addEdge.
      destruct (to_int (py a) =? to_int (py b)); [reflexivity |].
      destruct Hoff as [Hoff | Hoff]; rewrite Forall_forall in Hoff;
        pose proof (Hoff a Ha); pose proof (Hoff b Hb);
        destruct (ltb (py b) (py a)); cbn [yMin yMax];
        match goal with
        | |- (if (?u <=? 0) || (?h <=? ?v) then _ else _) = _ =>
            destruct (Z.leb_spec u 0); destruct (Z.leb_spec h v);
            cbn [orb]; try reflexivity; lia
        end.
    - intros i Hi. now apply in_seq in Hi. }
  rewrite Hb. unfold clampRange, forRange. cbn [globalMinY globalMaxY edges].
  destruct (Z.ltb_spec (GetHeight image) 0);
    match goal with
    | |- forLoop (Z.to_nat ?d) _ _ _ = _ =>
        replace (Z.to_nat d) with O by lia; reflexivity
    end.
Qed.

Lemma drawPolygon_offscreen_witness :
  drawPolygon canvas aboveTriangle red None BLEND_NORMAL = canvas.
Proof.
  apply drawPolygon_offscreen. left.
  repeat constructor; vm_compute; discriminate.
Defined.

Lemma addEdge_bounds (height : Z) (vertices : list Point) (a b : Point)
      (st : EdgeTable) :
  In a vertices -> In b vertices ->
  boundsFromVertices height vertices st ->
  boundsFromVertices height vertices (addEdge height a b st).
Proof.
  intros Ha Hb (Hmin & Hmax). unfold addEdge.
  destruct (to_int (py a) =? to_int (py b)); [now split |].
  assert (Hgen : forall p q, In p vertices -> In q vertices ->
            boundsFromVertices height vertices
              (let e := mkEdge (to_int (py p)) (to_int (py q)) (px p)
                          (div (sub (px q) (px p)) (sub (py q) (py p))) in
               if (yMax e <=? 0) || (height <=? yMin e) then st
               else mkTable (edges st ++ [e])
                      (if yMin e <? globalMinY st then yMin e else globalMinY st)
                      (if globalMaxY st <? yMax e then yMax e else globalMaxY st))).
  { intros p q Hp Hq. cbv zeta. cbn [yMin yMax].
    destruct ((to_int (py q) <=? 0) || (height <=? to_int (py p)));
      [now split |].
    unfold boundsFromVertices. cbn [globalMinY globalMaxY]. split.
    - destruct (to_int (py p) <? globalMinY st); [right; eauto | exact Hmin].
    - destruct (globalMaxY st <? to_int (py q)); [right; eauto | exact Hmax]. }
  destruct (ltb (py b) (py a)); now apply Hgen.
Qed.

Lemma buildEdges_bounds (height : Z) (vertices : list Point) :
  boundsFromVertices height vertices (buildEdges height vertices).
Proof.
  unfold buildEdges.
  assert (Hgen : forall l st0,
            (forall i, In i l -> (i < length vertices)%nat) ->
            boundsFromVertices height vertices st0 ->
            boundsFromVertices height vertices
              (fold_left
                 (fun st i => addEdge height (nth i vertices origin)
                    (nth ((i + 1) mod length vertices)%nat vertices origin) st)
                 l st0)).
  { induction l as [|i l IH]; intros st0 Hl H0; cbn [fold_left]; [exact H0 |].
    assert (Hi : (i < length vertices)%nat) by (apply Hl; now left).
    apply IH; [intros j Hj; apply Hl; now right |].
    apply addEdge_bounds; [now apply nth_In | | exact H0].
    apply nth_In. apply Nat.mod_upper_bound. lia. }
  apply Hgen.
  - intros i Hi. now apply in_seq in Hi.
  - split; left; reflexivity.
Qed.

(** ** Where [drawPolygon] writes *)

Lemma confined_id (R : Z -> Z -> bool) : confined R (fun image => image).
Proof. intros image. auto. Qed.

Lemma confined_compose (R : Z -> Z -> bool) (P Q : ColorImage -> ColorImage) :
  confined R P -> confined R Q -> confined R (fun image => Q (P image)).
Proof.
  intros HP HQ image.
  destruct (HP image) as (Pw & Ph & Pg), (HQ (P image)) as (Qw & Qh & Qg).
  repeat split; [congruence | congruence |].
  intros a b Hab. now rewrite Qg, Pg.
Qed.

Lemma confined_weaken (R R' : Z -> Z -> bool) (P : ColorImage -> ColorImage) :
  (forall a b, R' a b = false -> R a b = false) -> confined R P -> confined R' P.
Proof.
  intros Hsub HP image. destruct (HP image) as (Pw & Ph & Pg).
  repeat split; auto.
Qed.

Lemma confined_forLoop (R : Z -> Z -> bool)
      (body : Z -> ColorImage -> ColorImage) (n : nat) (lo : Z) :
  (forall i, lo <= i < lo + Z.of_nat n -> confined R (body i)) ->
  confined R (forLoop n lo body).
Proof.
  revert lo. induction n as [|n IH]; intros lo Hbody; cbn [forLoop].
  - apply confined_id.
  - apply (confined_compose R (body lo) (forLoop n (lo + 1) body)).
    + apply Hbody. lia.
    + apply IH. intros i Hi. apply Hbody. lia.
Qed.

Lemma confined_forRange (R : Z -> Z -> bool)
      (body : Z -> ColorImage -> ColorImage) (lo hi : Z) :
  (forall i, lo <= i < hi -> confined R (body i)) ->
  confined R (forRange lo hi body).
Proof.
  intros Hbody. apply confined_forLoop. intros i Hi. apply Hbody. lia.
Qed.

Lemma confined_shadePixel (color : ColorF) (grad : option Gradient)
      (blendMode y x : Z) :
  confined (fun a b => (a =? x) && (b =? y)) (shadePixel color grad blendMode y x).
Proof.
  intros image. unfold shadePixel, setPixel. cbn [GetWidth GetHeight Get].
  repeat split. intros a b Hab. now rewrite Hab.
Qed.

Lemma confined_fillSpans (width y : Z) (paint : Z -> ColorImage -> ColorImage)
      (nodes : list float) :
  (forall x, confined (fun a b => (a =? x) && (b =? y)) (paint x)) ->
  let R := fun a b => (0 <=? a) && (a <? width) && (b =? y) in
  confined R (fillSpans width paint nodes) /\
  forall n0, confined R (fillSpans width paint (n0 :: nodes)).
Proof.
  intros Hpaint R. induction nodes as [|n1 rest [IH1 IH2]].
  - split; [| intros n0]; apply confined_id.
  - split; [apply IH2 |]. intros n0. cbn [fillSpans].
    destruct (width <=? to_int n0); [exact IH1 |].
    destruct (to_int n1 <=? 0); [exact IH1 |].
    apply (confined_compose R (forRange _ _ paint) (fillSpans width paint rest));
      [| exact IH1].
    apply confined_forRange. intros x Hx.
    apply (confined_weaken (fun a b => (a =? x) && (b =? y))); [| apply Hpaint].
    intros a b. unfold R.
    destruct (Z.eqb_spec a x) as [-> |]; [| reflexivity].
    destruct (Z.eqb_spec b y); [| reflexivity].
    destruct (Z.ltb_spec (to_int n0) 0), (Z.ltb_spec width (to_int n1)),
             (Z.leb_spec 0 x), (Z.ltb_spec x width); cbn [andb]; intros; lia.
Qed.

(** X17: [drawPolygon] keeps the dimensions of the image and writes no pixel
    outside [[0, width) x [0, height)], whatever the polygon, the paint
    and the blend mode are. *)
Theorem drawPolygon_in_bounds (image : ColorImage) (vertices : list Point)
        (color : ColorF) (grad : option Gradient) (blendMode : Z) :
  let out := drawPolygon image vertices color grad blendMode in
  GetWidth out = GetWidth image /\ GetHeight out = GetHeight image /\
  forall a b, inImage image a b = false -> Get out a b = Get image a b.
Proof.
  intros out. subst out. unfold drawPolygon.
  destruct (length vertices <? 3)%nat; [auto |].
  destruct (clampRange (GetHeight image) (buildEdges (GetHeight image) vertices))
    as [lo hi] eqn:Erange.
  assert (Hlo : 0 <= lo /\ hi <= GetHeight image).
  { unfold clampRange in Erange. injection Erange as <- <-.
    destruct (Z.ltb_spec (globalMinY (buildEdges (GetHeight image) vertices)) 0),
      (Z.ltb_spec (GetHeight image)
                  (globalMaxY (buildEdges (GetHeight image) vertices))); lia. }
  apply (confined_forRange (inImage image)).
  intros y Hy. unfold scanline.
  apply (confined_weaken
           (fun a b => (0 <=? a) && (a <? GetWidth image) && (b =? y))).
  - intros a b. unfold inImage.
    destruct (Z.leb_spec 0 a), (Z.ltb_spec a (GetWidth image)),
             (Z.eqb_spec b y), (Z.leb_spec 0 b), (Z.ltb_spec b (GetHeight image));
      cbn [andb]; intros; try reflexivity; try discriminate; lia.
  - apply confined_fillSpans. intros x. apply confined_shadePixel.
Qed.

Lemma drawPolygon_in_bounds_witness :
  let out := drawPolygon canvas triangle red (Some threeStops) BLEND_MULTIPLY in
  GetWidth out = 800 /\ GetHeight out = 600 /\ Get out 800 300 = white.
Proof.
  destruct (drawPolygon_in_bounds canvas triangle red (Some threeStops) BLEND_MULTIPLY)
    as (Hw & Hh & Hg).
  split; [exact Hw | split; [exact Hh |]].
  apply (Hg 800 300). reflexivity.
Defined.

(** X18: [drawPolygon] writes no pixel in a row above every vertex, nor
    in a row at or below every vertex (rows compared with the truncated
    [y] of the vertices). *)
Theorem drawPolygon_row_extent (image : ColorImage) (vertices : list Point)
        (color : ColorF) (grad : option Gradient) (blendMode : Z) (a b : Z) :
  Forall (fun v => b < to_int (py v)) vertices \/
  Forall (fun v => to_int (py v) <= b) vertices ->
  Get (drawPolygon image vertices color grad blendMode) a b = Get image a b.
Proof.
  intros Hrow. unfold drawPolygon.
  destruct (length vertices <? 3)%nat; [reflexivity |].
  pose proof (buildEdges_bounds (GetHeight image) vertices) as (Hmin & Hmax).
  set (st := buildEdges (GetHeight image) vertices) in *.
  destruct (clampRange (GetHeight image) st) as [lo hi] eqn:Erange.
  assert (Hr : (lo <=? b) && (b <? hi) = false).
  { unfold clampRange in Erange. injection Erange as <- <-.
    destruct (Z.ltb_spec (globalMinY st) 0), (Z.ltb_spec (GetHeight image) (globalMaxY st));
      match goal with
      | |- (?l <=? b) && (b <? ?h) = false =>
          destruct (Z.leb_spec l b); destruct (Z.ltb_spec b h);
          cbn [andb]; try reflexivity; exfalso
      end;
      (destruct Hrow as [Hrow | Hrow]; rewrite Forall_forall in Hrow;
       [ destruct Hmin as [Hmin | (v & Hv & Hmin)];
         [lia | specialize (Hrow v Hv); lia]
       | destruct Hmax as [Hmax | (v & Hv & Hmax)];
         [lia | specialize (Hrow v Hv); lia] ]). }
  assert (Hc : confined (fun _ y => (lo <=? y) && (y <? hi))
                 (forRange lo hi
                    (scanline (GetWidth image) (edges st) color grad blendMode))).
  { apply confined_forRange. intros y Hy. unfold scanline.
    apply (confined_weaken
             (fun a b => (0 <=? a) && (a <? GetWidth image) && (b =? y))).
    - intros a' b'. destruct (Z.eqb_spec b' y) as [-> |];
        [| now rewrite andb_false_r].
      destruct (Z.leb_spec lo y), (Z.ltb_spec y hi); cbn [andb];
        intros; try discriminate; lia.
    - apply confined_fillSpans. intros x. apply confined_shadePixel. }
  destruct (Hc image) as (_ & _ & Hg). now apply Hg.
Qed.

Lemma drawPolygon_row_extent_witness :
  Get (drawPolygon canvas triangle red (Some threeStops) BLEND_MULTIPLY) 200 400 = white /\
  Get (drawPolygon canvas triangle red (Some threeStops) BLEND_MULTIPLY) 200 249 = white.
Proof.
  split.
  - apply (drawPolygon_row_extent canvas triangle). right.
    repeat constructor; vm_compute; discriminate.
  - apply (drawPolygon_row_extent canvas triangle). left.
    repeat constructor; vm_compute; reflexivity.
Defined.

(** ** Drawing with a transparent colour *)

Lemma idle_id : idle (fun image => image).
Proof. intros image _. repeat split. Qed.

Lemma idle_compose (P Q : ColorImage -> ColorImage) :
  idle P -> idle Q -> idle (fun image => Q (P image)).
Proof.
  intros HP HQ image Ho.
  destruct (HP image Ho) as (Pw & Ph & Pg).
  assert (Ho' : opaqueImage (P image)) by (intros a b; rewrite Pg; apply Ho).
  destruct (HQ (P image) Ho') as (Qw & Qh & Qg).
  repeat split; [congruence | congruence |].
  intros a b. now rewrite Qg, Pg.
Qed.

Lemma idle_forLoop (body : Z -> ColorImage -> ColorImage) (n : nat) (i : Z) :
  (forall j, idle (body j)) -> idle (forLoop n i body).
Proof.
  intros Hbody. revert i. induction n as [|n IH]; intros i; cbn [forLoop].
  - apply idle_id.
  - apply (idle_compose (body i) (forLoop n (i + 1) body)); auto.
Qed.

Lemma idle_fillSpans (width : Z) (paint : Z -> ColorImage -> ColorImage)
      (nodes : list float) :
  (forall x, idle (paint x)) ->
  idle (fillSpans width paint nodes) /\
  forall n0, idle (fillSpans width paint (n0 :: nodes)).
Proof.
  intros Hpaint. induction nodes as [|n1 rest [IH1 IH2]].
  - split; [| intros n0]; apply idle_id.
  - split; [apply IH2 |]. intros n0. cbn [fillSpans].
    destruct (width <=? to_int n0); [exact IH1 |].
    destruct (to_int n1 <=? 0); [exact IH1 |].
    apply (idle_compose (forRange _ _ paint) (fillSpans width paint rest));
      [apply idle_forLoop |]; auto.
Qed.

Lemma idle_shadePixel (color : ColorF) (blendMode y x : Z) :
  unitChannel (cr color) -> unitChannel (cg color) -> unitChannel (cb color) ->
  isZero (ca color) = true ->
  idle (shadePixel color None blendMode y x).
Proof.
  intros Ur Ug Ub Ha image Ho. unfold shadePixel, setPixel.
  repeat split. cbn [Get]. intros a b.
  destruct ((a =? x) && (b =? y)) eqn:E; [| reflexivity].
  apply andb_prop in E. destruct E as [Ea Eb].
  apply Z.eqb_eq in Ea, Eb. subst a b.
  rewrite (blend_alpha_zero color (Get image x y) blendMode Ur Ug Ub Ha),
    toRGBA_pixel_rgb.
  specialize (Ho x y). destruct (Get image x y) as [r g b a].
  cbn [rgba_r rgba_g rgba_b rgba_a] in *. now subst a.
Qed.

(** X19: filling any polygon with a fully transparent colour (channels in
    [[0, 1]], alpha zero, no gradient) changes nothing on an image whose
    pixels all have alpha 255, in every blend mode. *)
Theorem drawPolygon_transparent (image : ColorImage) (vertices : list Point)
        (color : ColorF) (blendMode : Z) :
  unitChannel (cr color) -> unitChannel (cg color) -> unitChannel (cb color) ->
  isZero (ca color) = true -> opaqueImage image ->
  sameImage (drawPolygon image vertices color None blendMode) image.
Proof.
  intros Ur Ug Ub Ha Ho. unfold drawPolygon.
  destruct (length vertices <? 3)%nat; [repeat split |].
  destruct (clampRange (GetHeight image) (buildEdges (GetHeight image) vertices))
    as [lo hi].
  apply idle_forLoop; [| exact Ho]. intros y. unfold scanline.
  apply idle_fillSpans. intros x. now apply idle_shadePixel.
Qed.

Lemma drawPolygon_transparent_witness :
  sameImage (drawPolygon canvas triangle clearOrange None BLEND_DIFFERENCE) canvas.
Proof.
  apply drawPolygon_transparent; repeat split.
Defined.

(** ** Unpaired intersections *)

(** X20: the span loop pairs the intersections from the left; with an odd
    number of them the last one is dropped. *)
Theorem fillSpans_odd (width : Z) (paint : Z -> ColorImage -> ColorImage)
        (nodes : list float) (n : float) (image : ColorImage) :
  Nat.even (length nodes) = true ->
  fillSpans width paint (nodes ++ [n]) image = fillSpans width paint nodes image.
Proof.
  revert image.
  induction nodes as [nodes IH] using (induction_ltof1 _ (@length float)).
  unfold ltof in IH. intros image Hev.
  destruct nodes as [|n0 [|n1 rest]]; [reflexivity | discriminate Hev |].
  cbn [app fillSpans]. cbn [length Nat.even] in Hev.
  destruct (width <=? to_int n0); [apply IH; [cbn [length]; lia | exact Hev] |].
  destruct (to_int n1 <=? 0); [apply IH; [cbn [length]; lia | exact Hev] |].
  apply IH; [cbn [length]; lia | exact Hev].
Qed.

Lemma fillSpans_odd_witness :
  fillSpans 800 (shadePixel red None BLEND_NORMAL 5)
            [of_int 10; of_int 20; of_int 30] canvas =
  fillSpans 800 (shadePixel red None BLEND_NORMAL 5) [of_int 10; of_int 20] canvas.
Proof.
  apply (fillSpans_odd 800 _ [of_int 10; of_int 20] (of_int 30) canvas).
  reflexivity.
Defined.

(** ** The scenarios of the specification, evaluated *)

Example literals_canonical :
  of_int 0 = zero /\ of_int 1 = one /\ of_int 2 = two /\ of_int 255 = f255 /\
  div one two = half /\ valid f08 = true.
Proof. repeat split. Qed.

Example representable_25_bits :
  representable 16777218 /\ ~ representable 16777217.
Proof. split; [reflexivity | discriminate]. Qed.

Example createRect_S1 :
  createRect (of_int 50) (of_int 50) (of_int 200) (of_int 150) =
  rectangle 50 50 200 150.
Proof. reflexivity. Qed.

Example toRGBA_red : toRGBA red = mkRGBA xff x00 x00 xff.
Proof. reflexivity. Qed.

Example difference_on_white_S4 :
  toRGBA (blend orange08 (fromRGBA white) BLEND_DIFFERENCE) = mkRGBA x32 x99 xff xff.
Proof. reflexivity. Qed.

Example empty_gradient_S5 :
  toRGBA (blend (getColorAt (emptyLinear origin origin) half) (fromRGBA white)
                BLEND_NORMAL) = mkRGBA x00 x00 x00 xff.
Proof. reflexivity. Qed.
